(** * Semsi: tag parsing, TF-IDF embedding and cosine similarity

    A shallow embedding of [semsi/data.py], [semsi/embedding.py] and
    [semsi/similarity.py].

    - Python [str] values are lists of Unicode code points.
    - Python exceptions are the [Raise] branch of a small error monad.
    - Python [float] arithmetic is an interface ([PyFloat]) with two
      instances: IEEE-754 binary64 (what CPython runs, executable through
      the kernel's primitive floats) and the exact real numbers (what the
      formulas of the specification mean).  The program is written once,
      over the interface.
    - [math.log] is applied by [fit] to the quotient of two positive
      ints only, so its domain error is not modelled; [math.sqrt] and
      the division of floats raise as in Python. *)

From Stdlib Require Import ZArith NArith Ascii String Floats Reals Lra Lia.
From stdpp Require Import gmap list sorting.

Local Open Scope Z_scope.

(** ** Python values *)

Module Py.

(** The exceptions raised by the modelled code. *)
Inductive exn : Set :=
  | ValueError
  | RuntimeError
  | KeyError
  | IndexError
  | ZeroDivisionError.

Inductive result (A : Type) : Type :=
  | Ok (a : A)
  | Raise (e : exn).
Arguments Ok {A} a.
Arguments Raise {A} e.

Definition bind {A B} (m : result A) (k : A → result B) : result B :=
  match m with
  | Ok a => k a
  | Raise e => Raise e
  end.

#[global] Instance result_ret : MRet result := @Ok.
#[global] Instance result_bind : MBind result := λ A B k m, bind m k.
#[global] Instance result_fmap : FMap result := λ A B f m, bind m (λ a, Ok (f a)).

(** [for x in l: acc = body(acc, x)], stopping at the first exception. *)
Fixpoint for_each {A S} (body : S → A → result S) (l : list A) (s : S) : result S :=
  match l with
  | [] => Ok s
  | x :: r => s' ← body s x; for_each body r s'
  end.

(** A [str] is its sequence of code points. *)
Abbreviation char := N (only parsing).
Abbreviation str := (list N) (only parsing).

(** An ASCII literal as a [str]. *)
Definition lit (s : string) : str := N_of_ascii <$> list_ascii_of_string s.
Arguments lit s%_string.

(** [str.isspace] on one code point (the Unicode white-space table of CPython). *)
Definition isspace (c : char) : bool :=
  ((9 <=? c) && (c <=? 13) || (28 <=? c) && (c <=? 32)
   || (c =? 133) || (c =? 160) || (c =? 5760)
   || (8192 <=? c) && (c <=? 8202)
   || (c =? 8232) || (c =? 8233) || (c =? 8239) || (c =? 8287) || (c =? 12288))%N.

Fixpoint lstrip_by (p : char → bool) (s : str) : str :=
  match s with
  | [] => []
  | c :: r => if p c then lstrip_by p r else s
  end.

Definition rstrip_by (p : char → bool) (s : str) : str :=
  reverse (lstrip_by p (reverse s)).

(** [s.strip()] *)
Definition strip (s : str) : str := rstrip_by isspace (lstrip_by isspace s).

(** [s.strip(chars)] *)
Definition strip_chars (chars : str) (s : str) : str :=
  let p c := bool_decide (c ∈ chars) in
  rstrip_by p (lstrip_by p s).

(** Position of the first [c] in [s], if any. *)
Fixpoint index_of (c : char) (s : str) : option nat :=
  match s with
  | [] => None
  | x :: r => if (x =? c)%N then Some 0%nat else S <$> index_of c r
  end.

(** How a slice bound is read against a sequence of length [len]. *)
Definition clip (len i : Z) : Z :=
  if i <? 0 then Z.max 0 (len + i) else Z.min i len.

(** [l[lo:hi]] *)
Definition slice {A} (l : list A) (lo hi : Z) : list A :=
  let len := Z.of_nat (length l) in
  let lo' := clip len lo in
  let hi' := clip len hi in
  take (Z.to_nat (hi' - lo')) (drop (Z.to_nat lo') l).

(** [l[lo:]] *)
Definition slice_from {A} (l : list A) (lo : Z) : list A :=
  slice l lo (Z.of_nat (length l)).

(** [s.find(c, start)] for a one-character needle: [-1] when absent. *)
Definition find (s : str) (c : char) (start : Z) : Z :=
  let len := Z.of_nat (length s) in
  let st := if start <? 0 then Z.max 0 (len + start) else start in
  if len <? st then -1
  else match index_of c (drop (Z.to_nat st) s) with
       | Some k => st + Z.of_nat k
       | None => -1
       end.

(** [s.split(c)] for a one-character separator. *)
Fixpoint split_on (c : char) (s : str) : list str :=
  match s with
  | [] => [[]]
  | x :: r =>
      if (x =? c)%N then [] :: split_on c r
      else match split_on c r with
           | h :: t => (x :: h) :: t
           | [] => [[x]]
           end
  end.

(** [s.split()]: the maximal runs of non-space characters. *)
Fixpoint split_ws_from (cur : str) (s : str) : list str :=
  match s with
  | [] => match cur with [] => [] | _ => [reverse cur] end
  | x :: r =>
      if isspace x
      then match cur with
           | [] => split_ws_from [] r
           | _ => reverse cur :: split_ws_from [] r
           end
      else split_ws_from (x :: cur) r
  end.

Definition split_ws (s : str) : list str := split_ws_from [] s.

(** [sep.join(parts)] *)
Fixpoint join (sep : str) (parts : list str) : str :=
  match parts with
  | [] => []
  | [p] => p
  | p :: r => p ++ sep ++ join sep r
  end.

(** [s.startswith(c)] for a one-character prefix. *)
Definition startswith (s : str) (c : char) : bool :=
  match s with
  | x :: _ => (x =? c)%N
  | [] => false
  end.

(** Truth value of a sequence: non-empty. *)
Definition truthy {A} (l : list A) : bool :=
  match l with [] => false | _ => true end.

(** Python orders strings lexicographically by code point. *)
Fixpoint str_leb (a b : str) : bool :=
  match a, b with
  | [], _ => true
  | _ :: _, [] => false
  | x :: a', y :: b' => (x <? y)%N || ((x =? y)%N && str_leb a' b')
  end.

Definition str_le (a b : str) : Prop := str_leb a b = true.

#[global] Instance str_le_dec a b : Decision (str_le a b).
Proof. unfold str_le. apply _. Defined.

End Py.

Import Py.

(** ** [semsi/data.py] *)

Module Data.

Record TaggedDocument : Type := {
  identifier : str;
  tags : list str;
  source : option str;
}.

Definition _extract_bracket_content (line : str) : option str :=
  let start := find line 91 0 in
  let end_ := find line 93 (start + 1) in
  if (start =? -1) || (end_ =? -1) then None
  else Some (slice line (start + 1) end_).

(** The characters removed around a token: apostrophe, double quote,
    backtick, space, the curly quotes U+201C, U+201D and U+2019, and the
    middle dot U+00B7. *)
Definition quote_chars : str := [39; 34; 96; 32; 8220; 8221; 8217; 183]%N.

Definition _normalise_tag (token : str) : option str :=
  let cleaned := strip_chars quote_chars (strip token) in
  if truthy cleaned then Some (join [32%N] (split_ws cleaned)) else None.

Definition _build_identifier (tags : list str) (line : str) : str :=
  let closing := find line 93 0 in
  let suffix : option str :=
    if closing =? -1 then None
    else
      let suffix_candidate := strip (slice_from line (closing + 1)) in
      if startswith suffix_candidate 46 then Some (slice_from suffix_candidate 1)
      else None in
  let base := if truthy tags then join [95%N] tags else strip line in
  match suffix with
  | Some sfx => if truthy sfx then base ++ [46%N] ++ sfx else base
  | None => base
  end.

(** The tokens of the bracket content that survive normalisation. *)
Definition collect_tags (bracket_content : str) : list str :=
  foldl (λ tags token,
           match _normalise_tag token with
           | Some normalised => if truthy normalised then tags ++ [normalised] else tags
           | None => tags
           end)
        [] (split_on 44 bracket_content).

(** One iteration of the loop of [parse_contents_lines]: the state is
    [(documents, seen_identifiers)].  A line without brackets is skipped
    whether or not it ends with "contents.txt"; the two cases differ only
    in the warning that is logged. *)
Definition parse_line (drop_duplicates : bool)
    (st : list TaggedDocument * gset str) (raw_line : str)
    : list TaggedDocument * gset str :=
  let '(documents, seen_identifiers) := st in
  let line := strip raw_line in
  if negb (truthy line) then st
  else match _extract_bracket_content line with
       | None => st
       | Some bracket_content =>
           let tags := collect_tags bracket_content in
           if negb (truthy tags) then st
           else
             let identifier := _build_identifier tags line in
             if drop_duplicates && bool_decide (identifier ∈ seen_identifiers) then st
             else
               let seen' := if drop_duplicates
                            then {[identifier]} ∪ seen_identifiers
                            else seen_identifiers in
               (documents ++ [{| identifier := identifier; tags := tags;
                                 source := Some line |}], seen')
       end.

Definition parse_contents_lines (lines : list str) (drop_duplicates : bool)
    : list TaggedDocument :=
  fst (foldl (parse_line drop_duplicates) ([], ∅) lines).

End Data.

Import Data.

(** ** Python floats *)

Module Float.

(** The operations the modelled code applies to [float] values.  [f_log]
    is [math.log], [f_round] is the built-in [round(x, ndigits)] and
    [f_sum] is the built-in [sum] on a sequence of floats; [f_truediv] is
    [a / b] on two [int]s with [b] non-zero; [f_of_int] is the conversion
    of an [int] (the literals [0.0] and [1.0] are [f_of_int 0] and
    [f_of_int 1]). *)
Class PyFloat (F : Type) : Type := {
  f_of_int : Z → F;
  f_truediv : Z → Z → F;
  f_sum : list F → F;
  f_add : F → F → F;
  f_mul : F → F → F;
  f_div : F → F → F;
  f_sqrt : F → F;
  f_log : F → F;
  f_round : F → Z → F;
  f_eqb : F → F → bool;
  f_ltb : F → F → bool;
}.

Section Ops.
Context {F : Type} `{PyFloat F}.

Definition f_zero : F := f_of_int 0.
Definition f_one : F := f_of_int 1.

(** [a / b] on ints. *)
Definition int_truediv (a b : Z) : result F :=
  if b =? 0 then Raise ZeroDivisionError else Ok (f_truediv a b).

(** [x / y] on floats. *)
Definition float_div (x y : F) : result F :=
  if f_eqb y f_zero then Raise ZeroDivisionError else Ok (f_div x y).

(** [math.sqrt(x)]: a negative argument is a domain error. *)
Definition math_sqrt (x : F) : result F :=
  if f_ltb x f_zero then Raise ValueError else Ok (f_sqrt x).
End Ops.

End Float.

Import Float.

(** [seq[index]] and [seq[index] = v] for a non-negative index. *)
Definition list_get {A} (l : list A) (index : nat) : result A :=
  match l !! index with
  | Some x => Ok x
  | None => Raise IndexError
  end.

Definition list_set {A} (l : list A) (index : nat) (v : A) : result (list A) :=
  if bool_decide (index < length l)%nat then Ok (<[index := v]> l)
  else Raise IndexError.

(** [enumerate(l)] *)
Definition enumerate {A} (l : list A) : list (nat * A) := zip (seq 0 (length l)) l.

(** ** [semsi/embedding.py] *)

Module Embedding.

(** [collections.Counter(items)]: the distinct items in order of first
    occurrence, each with its number of occurrences. *)
Fixpoint counter_incr (tag : str) (c : list (str * nat)) : list (str * nat) :=
  match c with
  | [] => [(tag, 1%nat)]
  | (k, v) :: r =>
      if decide (k = tag) then (k, S v) :: r else (k, v) :: counter_incr tag r
  end.

Definition Counter (items : list str) : list (str * nat) :=
  foldl (λ c tag, counter_incr tag c) [] items.

Section Model.
Context {F : Type} `{PyFloat F}.

Record TagEmbeddingModel : Type := {
  vocabulary_ : gmap str nat;
  idf_ : list F;
  fitted : bool;
}.

(** The state of a freshly constructed instance. *)
Definition new_model : TagEmbeddingModel :=
  {| vocabulary_ := ∅; idf_ := []; fitted := false |}.

(** The body of the loop over the documents in [fit]:
    [for tag in set(document.tags): document_frequency[tag] += 1].
    A missing key of a [Counter] reads as [0]. *)
Definition count_document (document_frequency : gmap str nat)
    (document : TaggedDocument) : gmap str nat :=
  let unique_tags : gset str := list_to_set (tags document) in
  foldl (λ df tag, <[tag := S (df !!! tag)]> df)
        document_frequency (elements unique_tags).

Definition document_frequency (documents : list TaggedDocument) : gmap str nat :=
  foldl count_document ∅ documents.

(** [sorted(d.keys())] *)
Definition sorted_keys (d : gmap str nat) : list str :=
  merge_sort str_le (fst <$> map_to_list d).

(** [{tag: index for index, tag in enumerate(sorted_tags)}] *)
Definition index_tags (sorted_tags : list str) : gmap str nat :=
  foldl (λ d it, <[it.2 := it.1]> d) ∅ (enumerate sorted_tags).

Definition idf_of (doc_count : Z) (df : gmap str nat) (tag : str) : result F :=
  q ← int_truediv (1 + doc_count) (1 + Z.of_nat (df !!! tag));
  Ok (f_add (f_log q) f_one).

(** [fit] returns the new state of [self]; when it raises, [self] is
    unchanged. *)
Definition fit (self : TagEmbeddingModel) (documents : list TaggedDocument)
    : result TagEmbeddingModel :=
  if negb (truthy documents) then Raise ValueError
  else
    let doc_count := Z.of_nat (length documents) in
    let df := document_frequency documents in
    let sorted_tags := sorted_keys df in
    idf ← mapM (idf_of doc_count df) sorted_tags;
    Ok {| vocabulary_ := index_tags sorted_tags; idf_ := idf; fitted := true |}.

(** The body of the loop over [counts.items()] in [transform]. *)
Definition weigh_tag (self : TagEmbeddingModel) (total : Z)
    (vector : list F) (item : str * nat) : result (list F) :=
  let '(tag, count) := item in
  match vocabulary_ self !! tag with
  | None => Ok vector
  | Some index =>
      tf ← int_truediv (Z.of_nat count) total;
      w ← list_get (idf_ self) index;
      list_set vector index (f_mul tf w)
  end.

Definition transform_document (self : TagEmbeddingModel)
    (document : TaggedDocument) : result (list F) :=
  let counts := Counter (tags document) in
  let s := Z.of_nat (sum_list (snd <$> counts)) in
  let total := if s =? 0 then 1 else s in
  let vector := replicate (size (vocabulary_ self)) f_zero in
  for_each (weigh_tag self total) counts vector.

Definition transform (self : TagEmbeddingModel) (documents : list TaggedDocument)
    : result (list (list F)) :=
  if negb (fitted self) then Raise RuntimeError
  else
    for_each (λ vectors document,
                vector ← transform_document self document;
                Ok (vectors ++ [vector]))
             documents [].

(** [fit_transform] returns the new state together with the vectors. *)
Definition fit_transform (self : TagEmbeddingModel) (documents : list TaggedDocument)
    : result (TagEmbeddingModel * list (list F)) :=
  self' ← fit self documents;
  vectors ← transform self' documents;
  Ok (self', vectors).
End Model.

Arguments TagEmbeddingModel F : clear implicits.

End Embedding.

Import Embedding.

(** ** [semsi/similarity.py] *)

Module Similarity.

(** [labels.index(label)]: the first position holding [label]. *)
Fixpoint tuple_index (labels : list str) (label : str) : result nat :=
  match labels with
  | [] => Raise ValueError
  | l :: r => if decide (l = label) then Ok 0%nat else S <$> tuple_index r label
  end.

Section Model.
Context {F : Type} `{PyFloat F}.

Definition _cosine_similarity (vec_a vec_b : list F) : result F :=
  let dot := f_sum (zip_with f_mul vec_a vec_b) in
  norm_a ← math_sqrt (f_sum ((λ a, f_mul a a) <$> vec_a));
  norm_b ← math_sqrt (f_sum ((λ b, f_mul b b) <$> vec_b));
  if f_eqb norm_a f_zero || f_eqb norm_b f_zero then Ok f_zero
  else float_div dot (f_mul norm_a norm_b).

Record SimilarityMatrix : Type := {
  labels : list str;
  values : list (list F);
}.

Definition row (self : SimilarityMatrix) (label : str) : result (list (str * F)) :=
  index ← tuple_index (labels self) label;
  r ← list_get (values self) index;
  Ok (zip (labels self) r).

(** [round(similarity, decimals)] unless [decimals] is [None]. *)
Definition round_to (decimals : option Z) (similarity : F) : F :=
  match decimals with
  | Some d => f_round similarity d
  | None => similarity
  end.

(** The inner loop of [build_similarity_matrix]: one row. *)
Definition build_row (embeddings : list (list F)) (decimals : option Z)
    (vec_a : list F) : result (list F) :=
  for_each (λ row vec_b,
              similarity ← _cosine_similarity vec_a vec_b;
              Ok (row ++ [round_to decimals similarity]))
           embeddings [].

Definition build_similarity_matrix (documents : list TaggedDocument)
    (embeddings : list (list F)) (decimals : option Z) : result SimilarityMatrix :=
  if (Z.of_nat (length documents) =? 0) then Raise ValueError
  else
    let labels := identifier <$> documents in
    matrix ← for_each (λ matrix vec_a,
                         row ← build_row embeddings decimals vec_a;
                         Ok (matrix ++ [row]))
                      embeddings [];
    Ok {| labels := labels; values := matrix |}.

(** [scores.sort(key=lambda item: item[1], reverse=True)]: a stable sort
    into descending order of score that compares scores with [<] only.
    Every stable sort returns this list when [<] orders the scores. *)
Fixpoint insert_desc (x : str * F) (l : list (str * F)) : list (str * F) :=
  match l with
  | [] => [x]
  | y :: r => if f_ltb x.2 y.2 then y :: insert_desc x r else x :: l
  end.

Definition sort_desc (l : list (str * F)) : list (str * F) :=
  foldr insert_desc [] l.

Definition get_top_similar (similarity_matrix : SimilarityMatrix) (target : str)
    (top_n : Z) (include_self : bool) : result (list (str * F)) :=
  if negb (bool_decide (target ∈ labels similarity_matrix)) then Raise KeyError
  else
    scores ← row similarity_matrix target;
    let scores :=
      if negb include_self then filter (λ item, item.1 ≠ target) scores
      else scores in
    Ok (slice (sort_desc scores) 0 top_n).
End Model.

Arguments SimilarityMatrix F : clear implicits.

End Similarity.

Import Similarity.

(** ** IEEE-754 binary64: the floats of CPython *)

Module Binary64.

(** An [int] as an (unrounded) binary number. *)
Definition SF_of_Z (z : Z) : spec_float :=
  match z with
  | Z0 => S754_zero false
  | Zpos p => S754_finite false p 0
  | Zneg p => S754_finite true p 0
  end.

(** [float(z)]: the nearest double, ties to even. *)
Definition of_int (z : Z) : float := SF2Prim (binary_normalize prec emax z 0 false).

(** [a / b] on ints: the exact quotient rounded once. *)
Definition truediv (a b : Z) : float :=
  SF2Prim (SFdiv prec emax (SF_of_Z a) (SF_of_Z b)).

(** The integer nearest to [p / q], ties to even, for [0 ≤ p] and [0 < q]. *)
Definition div_half_even (p q : Z) : Z :=
  let n := p / q in
  let r := p mod q in
  match (2 * r ?= q) with
  | Lt => n
  | Gt => n + 1
  | Eq => if Z.even n then n else n + 1
  end.

(** [round(x, ndigits)]: the exact value of [x] rounded half-even to
    [ndigits] decimal places, then to the nearest double.  NaN, the
    infinities and the zeros are returned unchanged.  The [OverflowError]
    of a rounded value beyond the largest double, which needs negative
    [ndigits], is not modelled. *)
Definition round (x : float) (ndigits : Z) : float :=
  match Prim2SF x with
  | S754_finite s m e =>
      if 323 <? ndigits then x
      else if ndigits <? -308 then (0 * x)%float
      else
        let num := Z.pos m * 2 ^ Z.max e 0 * 10 ^ Z.max ndigits 0 in
        let den := 2 ^ Z.max (- e) 0 * 10 ^ Z.max (- ndigits) 0 in
        let n := div_half_even num den in
        let n' := if s then - n else n in
        let r :=
          if n =? 0 then S754_zero s
          else SFdiv prec emax (SF_of_Z (n' * 10 ^ Z.max (- ndigits) 0))
                               (SF_of_Z (10 ^ Z.max ndigits 0)) in
        SF2Prim r
  | _ => x
  end.

(** A stand-in for the C library's [log], used to run the model on
    concrete inputs: the results below that hold for every [PyFloat]
    instance do not depend on it.  The argument is scaled into
    [[sqrt 1/2, sqrt 2)] and [2 atanh((m-1)/(m+1))] is summed as a power
    series. *)
Definition log (x : float) : float :=
  if is_nan x then x
  else if (x <=? 0)%float then nan
  else if is_infinity x then x
  else
    let '(m, e) := Z.frexp x in
    let '(m, e) := if (m <? 0x1.6a09e667f3bcdp-1)%float then ((2 * m)%float, e - 1) else (m, e) in
    let z := ((m - 1) / (m + 1))%float in
    let z2 := (z * z)%float in
    let series :=
      foldr (λ k acc, (1 / of_int k + z2 * acc)%float) 0%float
            [1; 3; 5; 7; 9; 11; 13; 15; 17; 19; 21; 23; 25] in
    (of_int e * 0x1.62e42fefa39efp-1 + 2 * z * series)%float.

(** Not below zero: NaN, a zero, or positive. *)
Definition SFnot_neg (f : spec_float) : Prop :=
  match f with
  | S754_infinity true | S754_finite true _ _ => False
  | _ => True
  end.

(** [sum(xs)] as CPython computes it before version 3.12: from the int
    [0], adding from left to right. *)
Definition sum_left (xs : list float) : float := foldl PrimFloat.add (of_int 0) xs.

(** [sum(xs)] from CPython 3.12 on: the first float is added to the int
    [0], the others with Neumaier's compensation of the rounding errors,
    which is added at the end when it is finite and not zero. *)
Definition sum_compensated (xs : list float) : float :=
  match xs with
  | [] => of_int 0
  | x0 :: rest =>
      let step (st : float * float) (x : float) : float * float :=
        let '(f_result, c) := st in
        let t := (f_result + x)%float in
        (t, if (abs x <=? abs f_result)%float
            then (c + ((f_result - t) + x))%float
            else (c + ((x - t) + f_result))%float) in
      let '(f_result, c) := foldl step ((of_int 0 + x0)%float, 0%float) rest in
      if negb (is_zero c) && is_finite c then (f_result + c)%float else f_result
  end.

#[global] Instance binary64 : PyFloat float := {|
  f_of_int := of_int;
  f_truediv := truediv;
  f_sum := sum_left;
  f_add := PrimFloat.add;
  f_mul := PrimFloat.mul;
  f_div := PrimFloat.div;
  f_sqrt := PrimFloat.sqrt;
  f_log := log;
  f_round := round;
  f_eqb := PrimFloat.eqb;
  f_ltb := PrimFloat.ltb;
|}.

(** The same arithmetic with the summation of CPython 3.12. *)
Definition binary64_compensated : PyFloat float := {|
  f_of_int := of_int;
  f_truediv := truediv;
  f_sum := sum_compensated;
  f_add := PrimFloat.add;
  f_mul := PrimFloat.mul;
  f_div := PrimFloat.div;
  f_sqrt := PrimFloat.sqrt;
  f_log := log;
  f_round := round;
  f_eqb := PrimFloat.eqb;
  f_ltb := PrimFloat.ltb;
|}.

End Binary64.

Import Binary64.

(** ** Exact real arithmetic: what the formulas mean *)

Module Exact.

(** The integer nearest to [y], ties to even. *)
Definition rint (y : R) : Z :=
  let n := Int_part y in
  if Rlt_dec (frac_part y) (1 / 2) then n
  else if Rlt_dec (1 / 2) (frac_part y) then n + 1
  else if Z.even n then n else n + 1.

(** [round(x, ndigits)] without a second rounding to a double. *)
Definition round (x : R) (ndigits : Z) : R :=
  (IZR (rint (x * powerRZ 10 ndigits)) * powerRZ 10 (- ndigits))%R.

#[global] Instance exact : PyFloat R := {|
  f_of_int := IZR;
  f_truediv a b := (IZR a / IZR b)%R;
  f_sum := foldl Rplus 0%R;
  f_add := Rplus;
  f_mul := Rmult;
  f_div := Rdiv;
  f_sqrt := sqrt;
  f_log := ln;
  f_round := round;
  f_eqb x y := if Req_EM_T x y then true else false;
  f_ltb x y := if Rlt_dec x y then true else false;
|}.

(** The sum of the squares of a vector. *)
Definition squares (a : list R) : R := f_sum ((λ x, f_mul x x) <$> a).

End Exact.

Import Exact.

(** ** Laws of the arithmetic

    What the proofs below use of the float operations.  Binary64 with
    the left-to-right [sum] satisfies them
    ([Binary64Facts.binary64_arith], [Binary64Facts.binary64_order]), and
    so do the exact reals ([ExactFacts.exact_arith],
    [ExactFacts.exact_order]). *)

Module Laws.

Class FloatArith (F : Type) `{PyFloat F} : Prop := {
  f_mul_comm : ∀ x y : F, f_mul x y = f_mul y x;
  f_sum_not_neg : ∀ xs : list F,
    Forall (λ x, f_ltb x f_zero = false) xs → f_ltb (f_sum xs) f_zero = false;
  f_square_not_neg : ∀ x : F, f_ltb (f_mul x x) f_zero = false;
  f_sqrt_mul_nonzero : ∀ x y : F,
    f_eqb (f_sqrt x) f_zero = false → f_eqb (f_sqrt y) f_zero = false →
    f_eqb (f_mul (f_sqrt x) (f_sqrt y)) f_zero = false;
}.

(** [x == x] fails exactly for NaN. *)
Definition comparable {F} `{PyFloat F} (x : F) : Prop := f_eqb x x = true.

Class FloatOrder (F : Type) `{PyFloat F} : Prop := {
  f_ltb_asym : ∀ x y : F, f_ltb x y = true → f_ltb y x = false;
  f_ltb_negtrans : ∀ x y z : F,
    comparable x → comparable y → comparable z →
    f_ltb x y = false → f_ltb y z = false → f_ltb x z = false;
}.

End Laws.

Import Laws.

(** ** Examples *)

Module Examples.

Definition doc (id : string) (ts : list str) : TaggedDocument :=
  {| identifier := lit id; tags := ts; source := None |}.
Arguments doc id%_string ts.

(** The lines of [test_parse_contents_lines_handles_malformed_entries],
    as the specification quotes them. *)
Definition sample_lines : list str :=
  [ lit "['first','second'].txt";
    lit "['first,'second','third'].rtf";
    lit "[' lone '] .pdf";
    lit "no brackets here";
    lit "   " ].

(** Three fit documents and two query documents; the second query has a
    repeated tag, a tag never seen at fit time, and one known tag. *)
Definition corpus : list TaggedDocument :=
  [ doc "doc1.txt" [lit "crowd"; lit "city"];
    doc "doc2.txt" [lit "city"; lit "street"];
    doc "doc3.txt" [lit "river"; lit "nature"] ].

Definition queries : list TaggedDocument :=
  [ doc "q1.txt" [];
    doc "q2.txt" [lit "city"; lit "zebra"; lit "city"] ].

Definition corpus_reordered : list TaggedDocument :=
  [ doc "doc3.txt" [lit "river"; lit "nature"];
    doc "doc1.txt" [lit "crowd"; lit "city"];
    doc "doc2.txt" [lit "city"; lit "street"] ].

(** Embeddings for the three documents of [corpus], and a shorter list. *)
Definition sample_embeddings : list (list float) :=
  [ [1; 0; 2]; [0; 3; 1]; [0; 0; 0] ]%float.

Definition short_embeddings : list (list float) :=
  [ [1; 0; 2]; [0; 3; 1] ]%float.

(** A matrix in which the label a.txt occurs twice. *)
Definition namesake_matrix : SimilarityMatrix float :=
  {| labels := [lit "a.txt"; lit "b.txt"; lit "a.txt"; lit "c.txt"];
     values := [ [1; 0.5; 0.25; 0.75]; [0.5; 1; 0; 0]; [0.25; 0; 1; 0]; [0.75; 0; 0; 1] ]%float |}.

(** One document with two tags, one with seven. *)
Definition two_tags : list TaggedDocument := [ doc "d.txt" [lit "a"; lit "b"] ].
Definition seven_tags : list TaggedDocument :=
  [ doc "d.txt" [lit "a"; lit "b"; lit "c"; lit "d"; lit "e"; lit "f"; lit "g"] ].

End Examples.

Import Examples.

(** ** The quantities of the specification *)

Module EmbeddingSpec.

(** df(tag): the number of fit documents whose tags contain [tag]. *)
Definition df (D : list TaggedDocument) (tag : str) : nat :=
  length (filter (λ d, tag ∈ tags d) D).

(** count(tag): how often [tag] occurs among the tags of a document. *)
Definition occurrences (tag : str) (ts : list str) : nat :=
  length (filter (λ t, t = tag) ts).

(** T: the number of tags of the document, or 1 when it has none. *)
Definition total_count (d : TaggedDocument) : Z :=
  match tags d with
  | [] => 1
  | _ => Z.of_nat (length (tags d))
  end.

(** A counter keyed by tags holds [n t] for the tags with [n t > 0] and
    nothing else: as a map, and as the item list of a [Counter]. *)
Definition counts (d0 : gmap str nat) (n : str → nat) : Prop :=
  ∀ t, d0 !! t = if decide (n t = 0%nat) then None else Some (n t).

Fixpoint alookup (t : str) (c : list (str * nat)) : option nat :=
  match c with
  | [] => None
  | (k, v) :: r => if decide (k = t) then Some v else alookup t r
  end.

Definition acounts (c : list (str * nat)) (n : str → nat) : Prop :=
  NoDup c.*1 ∧ ∀ t, alookup t c = if decide (n t = 0%nat) then None else Some (n t).

Section Weights.
Context {F : Type} `{PyFloat F}.

(** IDF(tag) = ln((1 + N) / (1 + df(tag))) + 1 *)
Definition IDF (D : list TaggedDocument) (tag : str) : F :=
  f_add (f_log (f_truediv (1 + Z.of_nat (length D)) (1 + Z.of_nat (df D tag)))) f_one.

(** (count(tag) / T) * IDF(tag) *)
Definition weight (D : list TaggedDocument) (d : TaggedDocument) (tag : str) : F :=
  f_mul (f_truediv (Z.of_nat (occurrences tag (tags d))) (total_count d)) (IDF D tag).

(** The entry of the vector of [d] at the index of [tag]. *)
Definition entry (D : list TaggedDocument) (d : TaggedDocument) (tag : str) : F :=
  if decide (tag ∈ tags d) then weight D d tag else f_zero.

(** The calls a client can make on one model instance, and the state of
    the instance after each: a call that raises leaves the state as it
    was, [transform] never assigns to [self]. *)
Inductive call : Type :=
  | CallFit (documents : list TaggedDocument)
  | CallTransform (documents : list TaggedDocument)
  | CallFitTransform (documents : list TaggedDocument).

Definition state_after (self : TagEmbeddingModel F) (c : call) : TagEmbeddingModel F :=
  match c with
  | CallFit documents | CallFitTransform documents =>
      match fit self documents with
      | Ok self' => self'
      | Raise _ => self
      end
  | CallTransform _ => self
  end.
End Weights.

End EmbeddingSpec.

Import EmbeddingSpec.

Module SimilaritySpec.

Section Cosine.
Context {F : Type} `{PyFloat F}.

(** a·b, over the positions both vectors have. *)
Definition dot (a b : list F) : F := f_sum (zip_with f_mul a b).

(** ‖a‖ *)
Definition norm (a : list F) : F := f_sqrt (f_sum ((λ x, f_mul x x) <$> a)).

(** Cosine similarity as the specification words it:
    (a·b) / (‖a‖·‖b‖), and exactly 0.0 when either norm is zero. *)
Definition cosine (a b : list F) : F :=
  if f_eqb (norm a) f_zero || f_eqb (norm b) f_zero then f_zero
  else f_div (dot a b) (f_mul (norm a) (norm b)).

(** [x] is not below zero. *)
Definition not_neg (x : F) : Prop := f_ltb x f_zero = false.

(** [p] may stand before [q] in a list sorted by descending score. *)
Definition desc (p q : str * F) : Prop := f_ltb p.2 q.2 = false.
End Cosine.

End SimilaritySpec.

Import SimilaritySpec.

(** ** Further functions of the repository *)

Module More.

(** [TaggedDocument.as_text] *)
Definition as_text (self : TaggedDocument) : str := join [32%N] (tags self).

(** What one line contributes when duplicates are kept: the document the
    loop body of [parse_contents_lines] appends, or nothing. *)
Definition line_document (raw_line : str) : option TaggedDocument :=
  let line := strip raw_line in
  if negb (truthy line) then None
  else match _extract_bracket_content line with
       | None => None
       | Some bracket_content =>
           let tags := collect_tags bracket_content in
           if negb (truthy tags) then None
           else Some {| identifier := _build_identifier tags line; tags := tags;
                        source := Some line |}
       end.

Section Matrix.
Context {F : Type} `{PyFloat F}.

(** [SimilarityMatrix.to_dict]: in a dict comprehension a later item with
    the same key replaces the earlier one. *)
Definition to_dict (self : SimilarityMatrix F) : gmap str (gmap str F) :=
  foldl (λ d item,
           <[item.1 := foldl (λ inner cell, <[cell.1 := cell.2]> inner) ∅
                             (zip (labels self) item.2)]> d)
        ∅ (zip (labels self) (values self)).

(** The fixed-point rendering of a float with [decimals] digits after the
    point, for a precision that a format specification accepts. *)
Variable format_fixed : F → Z → str.

(** The formatting of one cell, with [.{decimals}f] as the format
    specification: a negative precision and one beyond the range of a C
    int are refused with [ValueError].  A precision within the range but
    too large for the memory at hand is not modelled. *)
Definition format_score (score : F) (decimals : Z) : result str :=
  if (decimals <? 0) || (2147483647 <? decimals) then Raise ValueError
  else Ok (format_fixed score decimals).

(** The loop of [preview]: it stops once [rows] is longer than [limit]. *)
Fixpoint preview_loop (limit decimals : Z) (items : list (str * list F))
    (rows : list str) : result (list str) :=
  match items with
  | [] => Ok rows
  | (label, row) :: rest =>
      values ← mapM (λ score, format_score score decimals) (slice row 0 limit);
      let rows := rows ++ [join [9%N] (label :: values)] in
      if limit <? Z.of_nat (length rows) then Ok rows
      else preview_loop limit decimals rest rows
  end.

(** The list [rows] that [preview] joins with newlines. *)
Definition preview_rows (self : SimilarityMatrix F) (limit decimals : Z)
    : result (list str) :=
  let limit := Z.max 1 (Z.min limit (Z.of_nat (length (labels self)))) in
  let header := lit "identifier" :: take (Z.to_nat limit) (labels self) in
  preview_loop limit decimals (zip (labels self) (values self)) [join [9%N] header].

(** [SimilarityMatrix.preview] *)
Definition preview (self : SimilarityMatrix F) (limit decimals : Z) : result str :=
  rows ← preview_rows self limit decimals;
  Ok (join [10%N] rows).

(** One data row of the preview, [n] columns wide. *)
Definition preview_row (decimals : Z) (n : nat) (item : str * list F) : str :=
  join [9%N] (item.1 :: ((λ score, format_fixed score decimals) <$> take n item.2)).

(** [ui_app._compute_similarity]; [cli.main] runs the same three lines. *)
Definition _compute_similarity (documents : list TaggedDocument)
    : result (SimilarityMatrix F) :=
  r ← fit_transform new_model documents;
  build_similarity_matrix documents r.2 (Some 6).

(** [ui_app._display_similarity], up to the rendering of the table. *)
Definition _display_similarity (matrix : SimilarityMatrix F) (target : str)
    (top_n : Z) : result (list (str * F)) :=
  get_top_similar matrix target top_n false.
End Matrix.

(** [ui_app._load_from_lines] *)
Definition _load_from_lines (lines : list str) (keep_duplicates : bool)
    : list TaggedDocument :=
  parse_contents_lines lines (negb keep_duplicates).

(** [cli.main]: [target = args.target or documents[0].identifier], where an
    absent and an empty [--target] both select the first document. *)
Definition cli_target (target : option str) (documents : list TaggedDocument)
    : result str :=
  match target with
  | Some t => if truthy t then Ok t else identifier <$> list_get documents 0
  | None => identifier <$> list_get documents 0
  end.

(** The arguments [cli.main] reads after parsing, when no [--output] is
    given, and what it then does with the parsed documents: it lists the
    identifiers, prints the matches of the target, prints the preview, or
    ends in [parser.error]; [Raised] is an exception that leaves [main]. *)
Record cli_args : Type := {
  arg_list : bool;
  arg_top : Z;
  arg_target : option str;
  arg_preview : Z;
}.

Inductive cli_outcome (F : Type) : Type :=
  | Listed (identifiers : list str)
  | TopScores (target : str) (top_scores : list (str * F))
  | Preview (text : str)
  | ParserError
  | Raised (e : exn).
Arguments Listed {F} identifiers.
Arguments TopScores {F} target top_scores.
Arguments Preview {F} text.
Arguments ParserError {F}.
Arguments Raised {F} e.

Definition cli_main {F : Type} `{PyFloat F} (format_fixed : F → Z → str)
    (documents : list TaggedDocument) (args : cli_args) : cli_outcome F :=
  if negb (truthy documents) then ParserError
  else if arg_list args then Listed (identifier <$> documents)
  else
    match _compute_similarity documents with
    | Raise e => Raised e
    | Ok similarity =>
        if negb (arg_top args =? 0) then
          match cli_target (arg_target args) documents with
          | Raise e => Raised e
          | Ok target =>
              match get_top_similar similarity target (arg_top args) false with
              | Ok top_scores => TopScores target top_scores
              | Raise KeyError => ParserError
              | Raise e => Raised e
              end
          end
        else
          match preview format_fixed similarity (arg_preview args) 3 with
          | Ok text => Preview text
          | Raise e => Raised e
          end
    end.

(** *** Notions the further results are stated with *)

(** A word: a non-empty run of characters none of which is white space. *)
Definition word (w : str) : Prop := w ≠ [] ∧ Forall (λ c, isspace c = false) w.

(** The test the loop over the tokens applies. *)
Definition keep_tag (token : str) : option str :=
  match _normalise_tag token with
  | Some normalised => if truthy normalised then Some normalised else None
  | None => None
  end.

(** A tag as the parser stores it: not empty, free of commas and closing
    brackets, its words separated by single spaces. *)
Definition normal_tag (tag : str) : Prop :=
  tag ≠ [] ∧ (44%N ∉ tag) ∧ (93%N ∉ tag) ∧ join [32%N] (split_ws tag) = tag.

(** What every parsed document satisfies: it comes from a line of the
    input whose stripped text holds a bracket pair; [source] is that
    stripped text; there is at least one tag and every tag is normal; the
    identifier is the tags joined by underscores, followed or not by a dot
    and a non-empty suffix. *)
Definition parsed_from (lines : list str) (d : TaggedDocument) : Prop :=
  ∃ raw_line pre content post,
    raw_line ∈ lines
    ∧ strip raw_line = pre ++ [91%N] ++ content ++ [93%N] ++ post
    ∧ (91%N ∉ pre) ∧ (93%N ∉ content)
    ∧ source d = Some (strip raw_line)
    ∧ tags d = collect_tags content
    ∧ tags d ≠ []
    ∧ Forall normal_tag (tags d)
    ∧ identifier d ≠ []
    ∧ (identifier d = join [95%N] (tags d)
       ∨ ∃ suffix, suffix ≠ []
           ∧ identifier d = join [95%N] (tags d) ++ [46%N] ++ suffix).

(** The loop with [drop_duplicates]: [seen_identifiers] holds the
    identifiers of the documents so far, and these are distinct. *)
Definition dedup_state (st : list TaggedDocument * gset str) : Prop :=
  NoDup (identifier <$> st.1) ∧ ∀ id, id ∈ st.2 ↔ id ∈ identifier <$> st.1.

(** A tag in single quotes, and a line as the notebooks wrote their file
    names: the tags in quotes, separated by a comma and a space, in
    brackets, followed by a dot and an extension. *)
Definition quoted (tag : str) : str := [39%N] ++ tag ++ [39%N].

Definition render_line (tags : list str) (extension : str) : str :=
  [91%N] ++ join [44%N; 32%N] (quoted <$> tags) ++ [93%N; 46%N] ++ extension.

(** A tag that can be rendered and read back: no comma, no closing
    bracket, its words separated by single spaces, and neither its first
    nor its last character is one of the stripped quote characters. *)
Definition plain_tag (tag : str) : Prop :=
  (44%N ∉ tag) ∧ (93%N ∉ tag)
  ∧ join [32%N] (split_ws tag) = tag
  ∧ (∃ x, head tag = Some x ∧ x ∉ quote_chars)
  ∧ (∃ y, last tag = Some y ∧ y ∉ quote_chars).

Section Calls.
Context {F : Type} `{PyFloat F}.

(** The state [fit] leaves on non-empty documents. *)
Definition fitted_on (D : list TaggedDocument) : TagEmbeddingModel F :=
  let st := sorted_keys (document_frequency D) in
  {| vocabulary_ := index_tags st; idf_ := IDF D <$> st; fitted := true |}.

(** The documents of the last call that fitted the model, if any did. *)
Definition last_fit_step (acc : option (list TaggedDocument)) (c : call)
    : option (list TaggedDocument) :=
  match c with
  | CallFit D | CallFitTransform D => if truthy D then Some D else acc
  | CallTransform _ => acc
  end.

Definition last_fit (calls : list call) : option (list TaggedDocument) :=
  foldl last_fit_step None calls.

Definition state_of (acc : option (list TaggedDocument)) : TagEmbeddingModel F :=
  match acc with
  | None => new_model
  | Some D => fitted_on D
  end.
End Calls.

End More.

Import More.

(** * Results *)

(** ** The parser *)

Module DataFacts.

(** C6: the five sample lines parse to exactly three documents; the first
    is named first_second.txt, the second has the tag third, the third
    has the tag lone; the line without brackets and the blank line leave
    the parser's state as it was, whatever that state is. *)
Theorem C6_malformed_lines_tolerated :
  (∃ d1 d2 d3,
     parse_contents_lines sample_lines true = [d1; d2; d3]
     ∧ identifier d1 = lit "first_second.txt"
     ∧ lit "third" ∈ tags d2
     ∧ lit "lone" ∈ tags d3)
  ∧ (∀ drop_duplicates st,
       parse_line drop_duplicates st (lit "no brackets here") = st
       ∧ parse_line drop_duplicates st (lit "   ") = st).
Proof.
  split.
  - eexists _, _, _. split; [vm_compute; reflexivity|].
    cbn [identifier tags]. split; [reflexivity|].
    split; apply list_elem_of_In; vm_compute; tauto.
  - intros dd [documents seen]. split; reflexivity.
Qed.

End DataFacts.

(** ** Strings, loops and counters *)

Module PyFacts.

Lemma str_leb_total (a b : str) : str_leb a b = true ∨ str_leb b a = true.
Proof.
  revert b. induction a as [|x a IH]; intros [|y b]; simpl; auto.
  destruct (N.ltb_spec x y), (N.ltb_spec y x), (N.eqb_spec x y), (N.eqb_spec y x);
    simpl; auto; try lia.
Qed.

Lemma str_leb_trans (a b c : str) :
  str_leb a b = true → str_leb b c = true → str_leb a c = true.
Proof.
  revert b c. induction a as [|x a IH]; intros [|y b] [|z c]; simpl; auto; try done.
  destruct (N.ltb_spec x y), (N.ltb_spec y z), (N.ltb_spec x z),
    (N.eqb_spec x y), (N.eqb_spec y z), (N.eqb_spec x z); simpl; auto; try lia; try done.
  apply IH.
Qed.

Lemma str_leb_antisym (a b : str) :
  str_leb a b = true → str_leb b a = true → a = b.
Proof.
  revert b. induction a as [|x a IH]; intros [|y b]; simpl; auto; try done.
  destruct (N.ltb_spec x y), (N.ltb_spec y x), (N.eqb_spec x y), (N.eqb_spec y x);
    simpl; try lia; try done.
  intros. subst. f_equal. by apply IH.
Qed.

#[global] Instance str_le_total : Total str_le.
Proof. intros a b. apply str_leb_total. Qed.

#[global] Instance str_le_trans : Transitive str_le.
Proof. intros a b c. apply str_leb_trans. Qed.

#[global] Instance str_le_antisym : AntiSymm eq str_le.
Proof. intros a b. apply str_leb_antisym. Qed.

Lemma for_each_app {A S} (body : S → A → result S) l1 l2 s :
  for_each body (l1 ++ l2) s = s' ← for_each body l1 s; for_each body l2 s'.
Proof.
  revert s. induction l1 as [|x l1 IH]; intros s; simpl; [done|].
  destruct (body s x); simpl; [apply IH|done].
Qed.

(** A loop that appends one computed element per item is a map. *)
Lemma for_each_append {A B} (f : A → result B) (g : A → B) (l : list A) (acc : list B) :
  (∀ x, x ∈ l → f x = Ok (g x)) →
  for_each (λ acc x, y ← f x; Ok (acc ++ [y])) l acc = Ok (acc ++ (g <$> l)).
Proof.
  revert acc. induction l as [|x l IH]; intros acc Hf; simpl.
  - by rewrite app_nil_r.
  - rewrite Hf by left. simpl. rewrite IH.
    + by rewrite <- app_assoc.
    + intros y Hy. apply Hf. by right.
Qed.

Lemma for_each_append_map {A B C} (f : A → result B) (h : B → C) (g : A → B)
    (l : list A) (acc : list C) :
  (∀ x, x ∈ l → f x = Ok (g x)) →
  for_each (λ acc x, y ← f x; Ok (acc ++ [h y])) l acc = Ok (acc ++ ((λ x, h (g x)) <$> l)).
Proof.
  revert acc. induction l as [|x l IH]; intros acc Hf; simpl.
  - by rewrite app_nil_r.
  - rewrite Hf by left. simpl. rewrite IH.
    + by rewrite <- app_assoc.
    + intros y Hy. apply Hf. by right.
Qed.

Lemma mapM_total {A B} (f : A → result B) (g : A → B) (l : list A) :
  (∀ x, x ∈ l → f x = Ok (g x)) → mapM f l = Ok (g <$> l).
Proof.
  induction l as [|x l IH]; intros Hf; simpl; [done|].
  rewrite Hf by left. simpl. rewrite IH; [done|].
  intros y Hy. apply Hf. by right.
Qed.

End PyFacts.

Import PyFacts.

(** ** The embedding model *)

Module EmbeddingFacts.

Section Facts.
Context {F : Type} `{PyFloat F}.

Lemma count_tags_lookup (l : list str) (d0 : gmap str nat) (t : str) :
  NoDup l →
  foldl (λ df tag, <[tag := S (df !!! tag)]> df) d0 l !! t
  = if decide (t ∈ l) then Some (S (d0 !!! t)) else d0 !! t.
Proof.
  revert d0. induction l as [|x l IH]; intros d0 Hnd; cbn [foldl].
  - rewrite decide_False; [done|]. apply not_elem_of_nil.
  - apply NoDup_cons in Hnd as [Hx Hnd]. rewrite IH by done.
    destruct (decide (t = x)) as [->|Hne].
    + rewrite (decide_False _ _ Hx), decide_True by left.
      by rewrite lookup_insert_eq.
    + rewrite lookup_insert_ne, lookup_total_insert_ne by done.
      destruct (decide (t ∈ l)) as [Hin|Hin].
      * rewrite decide_True; [done|]. by right.
      * rewrite decide_False; [done|]. rewrite elem_of_cons. tauto.
Qed.

Lemma count_document_lookup (d0 : gmap str nat) (d : TaggedDocument) (t : str) :
  count_document d0 d !! t
  = if decide (t ∈ tags d) then Some (S (d0 !!! t)) else d0 !! t.
Proof.
  unfold count_document. rewrite count_tags_lookup by apply NoDup_elements.
  destruct (decide (t ∈ tags d)) as [Hin|Hin].
  - rewrite decide_True; [done|]. by apply elem_of_elements, elem_of_list_to_set.
  - rewrite decide_False; [done|]. by rewrite elem_of_elements, elem_of_list_to_set.
Qed.

Lemma counts_total d0 n t : counts d0 n → d0 !!! t = n t.
Proof.
  intros Hc. rewrite lookup_total_alt, Hc. by destruct (decide (n t = 0%nat)).
Qed.

Lemma document_frequency_from (D : list TaggedDocument) d0 n :
  counts d0 n → counts (foldl count_document d0 D) (λ t, (n t + df D t)%nat).
Proof.
  revert d0 n. induction D as [|d D IH]; intros d0 n Hc; simpl.
  - intros t. unfold df. simpl. rewrite Nat.add_0_r. apply Hc.
  - assert (Hstep : counts (count_document d0 d)
                      (λ t, (n t + if decide (t ∈ tags d) then 1 else 0)%nat)).
    { intros t. rewrite count_document_lookup, (counts_total _ _ _ Hc).
      destruct (decide (t ∈ tags d)).
      - rewrite decide_False by lia. f_equal. lia.
      - rewrite Nat.add_0_r. apply Hc. }
    intros t. rewrite (IH _ _ Hstep t). unfold df. simpl.
    rewrite filter_cons. destruct (decide (t ∈ tags d)); simpl.
    + rewrite !decide_False by lia. f_equal. lia.
    + by rewrite Nat.add_0_r.
Qed.

Lemma document_frequency_lookup (D : list TaggedDocument) (t : str) :
  document_frequency D !! t = if decide (df D t = 0%nat) then None else Some (df D t).
Proof.
  apply (document_frequency_from D ∅ (λ _, 0%nat)).
  intros t'. by rewrite lookup_empty.
Qed.

Lemma document_frequency_total (D : list TaggedDocument) (t : str) :
  document_frequency D !!! t = df D t.
Proof.
  rewrite lookup_total_alt, document_frequency_lookup.
  by destruct (decide (df D t = 0%nat)).
Qed.

Lemma df_Permutation (D1 D2 : list TaggedDocument) (t : str) :
  D1 ≡ₚ D2 → df D1 t = df D2 t.
Proof. intros HP. unfold df. by rewrite HP. Qed.

Lemma document_frequency_Permutation (D1 D2 : list TaggedDocument) :
  D1 ≡ₚ D2 → document_frequency D1 = document_frequency D2.
Proof.
  intros HP. apply map_eq. intros t.
  by rewrite !document_frequency_lookup, (df_Permutation _ _ _ HP).
Qed.

Lemma sorted_keys_Permutation (d : gmap str nat) :
  sorted_keys d ≡ₚ (map_to_list d).*1.
Proof. apply merge_sort_Permutation. Qed.

Lemma sorted_keys_NoDup (d : gmap str nat) : NoDup (sorted_keys d).
Proof. rewrite sorted_keys_Permutation. apply NoDup_fst_map_to_list. Qed.

Lemma elem_of_sorted_keys (d : gmap str nat) (t : str) :
  t ∈ sorted_keys d ↔ is_Some (d !! t).
Proof.
  rewrite sorted_keys_Permutation, list_elem_of_fmap. split.
  - intros [[k v] [-> Hkv]]. apply elem_of_map_to_list in Hkv. by exists v.
  - intros [v Hv]. exists (t, v). split; [done|]. by apply elem_of_map_to_list.
Qed.

Lemma sorted_keys_sorted (d : gmap str nat) : StronglySorted str_le (sorted_keys d).
Proof. apply StronglySorted_merge_sort; apply _. Qed.

Lemma enumerate_snoc {A} (l : list A) (x : A) :
  enumerate (l ++ [x]) = enumerate l ++ [(length l, x)].
Proof.
  unfold enumerate. rewrite length_app. simpl.
  rewrite seq_app. simpl. rewrite zip_with_app by (by rewrite length_seq). done.
Qed.

Lemma index_tags_snoc (l : list str) (x : str) :
  index_tags (l ++ [x]) = <[x := length l]> (index_tags l).
Proof. unfold index_tags. by rewrite enumerate_snoc, foldl_app. Qed.

Lemma index_tags_lookup (l : list str) (t : str) (i : nat) :
  NoDup l → index_tags l !! t = Some i ↔ l !! i = Some t.
Proof.
  induction l as [|x l IH] using rev_ind; intros Hnd.
  - unfold index_tags. simpl. rewrite lookup_empty, lookup_nil. done.
  - apply NoDup_app in Hnd as (Hnd & Hx & _). rewrite index_tags_snoc.
    destruct (decide (t = x)) as [->|Hne].
    + rewrite lookup_insert_eq. split.
      * intros [= <-]. by rewrite list_lookup_middle.
      * intros Hi. f_equal.
        destruct (decide (i < length l)%nat) as [Hlt|Hge].
        -- rewrite lookup_app_l in Hi by done.
           exfalso. apply (Hx x); [|left]. eapply list_elem_of_lookup_2, Hi.
        -- apply lookup_lt_Some in Hi. rewrite length_app in Hi. simpl in Hi. lia.
    + rewrite lookup_insert_ne by done. rewrite IH by done. split.
      * intros Hi. rewrite lookup_app_l; [done|]. by eapply lookup_lt_Some.
      * intros Hi. destruct (decide (i < length l)%nat) as [Hlt|Hge].
        -- by rewrite lookup_app_l in Hi.
        -- rewrite lookup_app_r in Hi by lia.
           destruct (i - length l)%nat; simpl in Hi; [congruence|].
           by rewrite lookup_nil in Hi.
Qed.

Lemma index_tags_size (l : list str) : NoDup l → size (index_tags l) = length l.
Proof.
  induction l as [|x l IH] using rev_ind; intros Hnd.
  - unfold index_tags. simpl. apply map_size_empty.
  - apply NoDup_app in Hnd as (Hnd & Hx & _). rewrite index_tags_snoc.
    rewrite map_size_insert_None, IH, length_app; simpl; [lia|done|].
    destruct (index_tags l !! x) as [i|] eqn:Hi; [|done].
    apply index_tags_lookup in Hi; [|done].
    exfalso. apply (Hx x); [|left]. eapply list_elem_of_lookup_2, Hi.
Qed.

(** What [fit] stores: the tags seen, sorted, with their weights. *)
Lemma fit_Ok (self : TagEmbeddingModel F) (D : list TaggedDocument) :
  D ≠ [] →
  fit self D = Ok {| vocabulary_ := index_tags (sorted_keys (document_frequency D));
                     idf_ := IDF D <$> sorted_keys (document_frequency D);
                     fitted := true |}.
Proof.
  intros HD. unfold fit. destruct D as [|d D]; [done|]. cbn [truthy negb].
  erewrite (mapM_total _ (IDF (d :: D))); [done|].
  intros t _. unfold idf_of, int_truediv.
  destruct (Z.eqb_spec (1 + Z.of_nat (document_frequency (d :: D) !!! t)) 0); [lia|].
  simpl. by rewrite document_frequency_total.
Qed.

Lemma alookup_None (t : str) (c : list (str * nat)) :
  alookup t c = None ↔ t ∉ c.*1.
Proof.
  induction c as [|[k v] c IH]; simpl.
  - split; [intros _; apply not_elem_of_nil|done].
  - rewrite not_elem_of_cons. destruct (decide (k = t)) as [->|Hne].
    + split; [done|]. by intros [? _].
    + rewrite IH. split; [|tauto]. intros ?; split; [congruence|done].
Qed.

Lemma counter_incr_lookup (t t' : str) (c : list (str * nat)) :
  alookup t (counter_incr t' c)
  = if decide (t = t') then Some (S (default 0%nat (alookup t c))) else alookup t c.
Proof.
  induction c as [|[k v] c IH]; simpl; [repeat case_decide; by simplify_eq|].
  destruct (decide (k = t')) as [->|Hk]; simpl; [|rewrite IH];
    repeat case_decide; by simplify_eq/=.
Qed.

Lemma counter_incr_keys (t : str) (c : list (str * nat)) :
  (counter_incr t c).*1 = if decide (t ∈ c.*1) then c.*1 else c.*1 ++ [t].
Proof.
  induction c as [|[k v] c IH].
  - rewrite decide_False; [done|]. apply not_elem_of_nil.
  - cbn [counter_incr]. rewrite (fmap_cons fst). cbn [fst].
    destruct (decide (k = t)) as [->|Hk].
    + rewrite decide_True; [done|]. left.
    + rewrite (fmap_cons fst). cbn [fst]. rewrite IH.
      destruct (decide (t ∈ c.*1)) as [Hin|Hin].
      * rewrite decide_True; [done|]. by right.
      * rewrite decide_False; [done|]. rewrite elem_of_cons. intros [?|?]; congruence.
Qed.

Lemma counter_incr_sum (t : str) (c : list (str * nat)) :
  sum_list (counter_incr t c).*2 = S (sum_list c.*2).
Proof.
  induction c as [|[k v] c IH]; [done|]. cbn [counter_incr].
  destruct (decide (k = t)); [done|].
  rewrite !(fmap_cons snd). simpl in *. lia.
Qed.

Lemma counter_incr_acounts (t' : str) (c : list (str * nat)) n :
  acounts c n →
  acounts (counter_incr t' c) (λ t, (n t + if decide (t = t') then 1 else 0)%nat).
Proof.
  intros [Hnd Hc]. split.
  - rewrite counter_incr_keys. destruct (decide (t' ∈ c.*1)) as [Hin|Hin]; [done|].
    apply NoDup_app. split_and!; [done| |apply NoDup_singleton].
    intros x Hx ->%list_elem_of_singleton. done.
  - intros t. rewrite counter_incr_lookup, Hc.
    repeat case_decide; simplify_eq/=; try done; try lia; f_equal; lia.
Qed.

Lemma Counter_from (l : list str) (c : list (str * nat)) n :
  acounts c n →
  acounts (foldl (λ c tag, counter_incr tag c) c l) (λ t, (n t + occurrences t l)%nat).
Proof.
  revert c n. induction l as [|x l IH]; intros c n Hc; cbn [foldl].
  - destruct Hc as [Hnd Hc]. split; [done|]. intros t.
    unfold occurrences. simpl. rewrite Nat.add_0_r. apply Hc.
  - apply counter_incr_acounts with (t' := x) in Hc. apply IH in Hc.
    destruct Hc as [Hnd Hc]. split; [done|]. intros t. rewrite Hc.
    unfold occurrences. rewrite filter_cons.
    repeat case_decide; simplify_eq/=; try done; try lia; f_equal; lia.
Qed.

Lemma Counter_acounts (l : list str) : acounts (Counter l) (λ t, occurrences t l).
Proof.
  apply (Counter_from l [] (λ _, 0%nat)). split; [apply NoDup_nil_2|done].
Qed.

Lemma Counter_sum (l : list str) : sum_list (Counter l).*2 = length l.
Proof.
  unfold Counter.
  assert (Hgen : ∀ c, sum_list (foldl (λ c tag, counter_incr tag c) c l).*2
                      = (sum_list c.*2 + length l)%nat).
  { induction l as [|x l IH]; intros c; cbn [foldl]; simpl; [lia|].
    rewrite IH, counter_incr_sum. lia. }
  by rewrite Hgen.
Qed.

Lemma occurrences_zero (t : str) (l : list str) : occurrences t l = 0%nat ↔ t ∉ l.
Proof.
  unfold occurrences. induction l as [|x l IH]; simpl.
  - split; [intros _; apply not_elem_of_nil|done].
  - rewrite filter_cons, not_elem_of_cons. destruct (decide (x = t)) as [->|Hne]; simpl.
    + split; [done|]. by intros [? _].
    + rewrite IH. split; [|tauto]. intros ?; split; [congruence|done].
Qed.

Lemma df_zero (D : list TaggedDocument) (t : str) :
  df D t = 0%nat ↔ ∀ d, d ∈ D → t ∉ tags d.
Proof.
  unfold df. induction D as [|d D IH]; simpl.
  - split; [|done]. intros _ d Hd. by apply not_elem_of_nil in Hd.
  - rewrite filter_cons. destruct (decide (t ∈ tags d)) as [Hin|Hin]; simpl.
    + split; [done|]. intros Hall. exfalso. apply (Hall d); [left|done].
    + rewrite IH. split.
      * intros Hall d' [->|Hd']%elem_of_cons; auto.
      * intros Hall d' Hd'. apply Hall. by right.
Qed.

(** The loop over [counts.items()]: the cell of each vocabulary tag among
    the items receives its weight, every other cell is left as it was. *)
Lemma weigh_loop (self : TagEmbeddingModel F) (st : list str) (T : Z)
    (items : list (str * nat)) (v0 : list F) :
  NoDup st → vocabulary_ self = index_tags st → length (idf_ self) = length st →
  T ≠ 0 → NoDup items.*1 → length v0 = length st →
  ∃ v, for_each (weigh_tag self T) items v0 = Ok v
       ∧ length v = length st
       ∧ ∀ i t, st !! i = Some t →
           v !! i = match alookup t items with
                    | Some c => f_mul (f_truediv (Z.of_nat c) T) <$> idf_ self !! i
                    | None => v0 !! i
                    end.
Proof.
  intros Hst Hvoc Hidf HT. revert v0.
  induction items as [|[t0 c0] items IH]; intros v0 Hnd Hlen.
  - exists v0. by split_and!.
  - rewrite (fmap_cons fst) in Hnd. cbn [fst] in Hnd.
    apply NoDup_cons in Hnd as [Ht0 Hnd].
    cbn [for_each weigh_tag]. rewrite Hvoc.
    destruct (index_tags st !! t0) as [idx|] eqn:Hidx.
    + apply index_tags_lookup in Hidx; [|done].
      pose proof (lookup_lt_Some _ _ _ Hidx) as Hlt.
      unfold int_truediv. destruct (Z.eqb_spec T 0) as [|_]; [done|]. cbn.
      unfold list_get. destruct (idf_ self !! idx) as [w|] eqn:Hw; cycle 1.
      { apply lookup_ge_None in Hw. lia. }
      cbn. unfold list_set. rewrite bool_decide_true by lia. cbn.
      destruct (IH (<[idx := f_mul (f_truediv (Z.of_nat c0) T) w]> v0)) as (v & Hv & Hvl & Hvi);
        [done|by rewrite length_insert|].
      exists v. split_and!; [done..|].
      intros i t Hi. rewrite (Hvi i t Hi). cbn [alookup].
      destruct (decide (t0 = t)) as [->|Hne].
      * assert (i = idx) as -> by (by eapply (NoDup_lookup st i idx t)).
        apply alookup_None in Ht0. rewrite Ht0, Hw.
        rewrite list_lookup_insert_eq by lia. done.
      * destruct (alookup t items); [done|].
        apply list_lookup_insert_ne. intros ->. congruence.
    + cbn. destruct (IH v0) as (v & Hv & Hvl & Hvi); [done..|].
      exists v. split_and!; [done..|].
      intros i t Hi. rewrite (Hvi i t Hi). cbn [alookup].
      destruct (decide (t0 = t)) as [->|Hne]; [|done].
      apply (index_tags_lookup st t i Hst) in Hi. congruence.
Qed.

(** The vector [transform] computes for one document, for a model that
    [fit] built from the documents [D]. *)
Lemma transform_document_fitted (D : list TaggedDocument) (d : TaggedDocument) fl :
  let st := sorted_keys (document_frequency D) in
  transform_document {| vocabulary_ := index_tags st; idf_ := IDF D <$> st; fitted := fl |} d
  = Ok (entry D d <$> st).
Proof.
  intros st. unfold transform_document.
  pose proof (sorted_keys_NoDup (document_frequency D)) as Hst. fold st in Hst.
  destruct (Counter_acounts (tags d)) as [Hnd Hc].
  rewrite Counter_sum. cbn [vocabulary_].
  set (T := if Z.of_nat (length (tags d)) =? 0 then 1 else Z.of_nat (length (tags d))).
  assert (HT : T = total_count d).
  { unfold T, total_count. by destruct (tags d). }
  assert (HT0 : T ≠ 0).
  { unfold T. destruct (Z.eqb_spec (Z.of_nat (length (tags d))) 0); lia. }
  edestruct (weigh_loop {| vocabulary_ := index_tags st; idf_ := IDF D <$> st; fitted := fl |}
               st T (Counter (tags d)) (replicate (size (index_tags st)) f_zero))
    as (v & Hv & Hvl & Hvi); [done|done|cbn [idf_]; by rewrite length_fmap|done|done| |].
  { by rewrite length_replicate, index_tags_size. }
  rewrite Hv. f_equal. apply list_eq. intros i.
  destruct (st !! i) as [t|] eqn:Hi.
  - rewrite (Hvi i t Hi), list_lookup_fmap, Hi, Hc. cbn [idf_].
    rewrite list_lookup_fmap, Hi. cbn. unfold entry, weight.
    destruct (decide (occurrences t (tags d) = 0%nat)) as [Hz|Hnz].
    + apply occurrences_zero in Hz. rewrite decide_False by done.
      apply lookup_replicate_2. rewrite index_tags_size by done.
      by eapply lookup_lt_Some.
    + rewrite decide_True; [by rewrite HT|].
      destruct (decide (t ∈ tags d)); [done|]. by apply occurrences_zero in n.
  - rewrite list_lookup_fmap, Hi. cbn. apply lookup_ge_None.
    apply lookup_ge_None in Hi. lia.
Qed.

Lemma transform_fitted (D docs : list TaggedDocument) :
  let st := sorted_keys (document_frequency D) in
  transform {| vocabulary_ := index_tags st; idf_ := IDF D <$> st; fitted := true |} docs
  = Ok ((λ d, entry D d <$> st) <$> docs).
Proof.
  intros st. unfold transform. cbn [fitted negb].
  rewrite (for_each_append _ (λ d, entry D d <$> st)); [done|].
  intros d _. apply transform_document_fitted.
Qed.

Lemma df_pos (D : list TaggedDocument) (t : str) :
  df D t ≠ 0%nat → ∃ d, d ∈ D ∧ t ∈ tags d.
Proof.
  unfold df. induction D as [|d D IH]; [done|]. rewrite filter_cons.
  destruct (decide (t ∈ tags d)) as [Hin|Hin].
  - intros _. exists d. split; [left|done].
  - intros [d' [Hd' Hin']]%IH. exists d'. split; [by right|done].
Qed.

Lemma StronglySorted_lookup_lt {A} (R : relation A) (l : list A) i j x y :
  StronglySorted R l → (i < j)%nat → l !! i = Some x → l !! j = Some y → R x y.
Proof.
  intros Hs. revert i j. induction Hs as [|a l Hs IH Hall]; intros i j Hij Hi Hj.
  - by rewrite lookup_nil in Hi.
  - destruct j as [|j]; [lia|]. cbn in Hj. destruct i as [|i]; cbn in Hi.
    + injection Hi as ->. rewrite Forall_forall in Hall.
      apply Hall. by eapply list_elem_of_lookup_2.
    + apply (IH i j); [lia|done..].
Qed.

Lemma vocabulary_seen (D : list TaggedDocument) (tag : str) :
  is_Some (index_tags (sorted_keys (document_frequency D)) !! tag)
  ↔ ∃ d, d ∈ D ∧ tag ∈ tags d.
Proof.
  pose proof (sorted_keys_NoDup (document_frequency D)) as Hst.
  transitivity (tag ∈ sorted_keys (document_frequency D)).
  - split.
    + intros [i Hi]. apply index_tags_lookup in Hi; [|done].
      by eapply list_elem_of_lookup_2.
    + intros [i Hi]%list_elem_of_lookup_1. exists i. by apply index_tags_lookup.
  - rewrite elem_of_sorted_keys, document_frequency_lookup.
    destruct (decide (df D tag = 0%nat)) as [Hz|Hnz].
    + split; [by intros [? ?]|]. intros (d & Hd & Hin).
      rewrite df_zero in Hz. by destruct (Hz d Hd).
    + split; [intros _|by eexists]. by apply df_pos.
Qed.

Lemma fit_fitted (self self' : TagEmbeddingModel F) (D : list TaggedDocument) :
  fit self D = Ok self' → fitted self' = true.
Proof.
  destruct D as [|d D]; [done|]. rewrite fit_Ok by done. by intros [= <-].
Qed.

Lemma state_after_fitted (self : TagEmbeddingModel F) (c : call) :
  fitted self = true → fitted (state_after self c) = true.
Proof.
  intros Hf. destruct c as [D|D|D]; cbn; [|done|];
    destruct (fit self D) as [s|] eqn:Hs; try done; by eapply fit_fitted.
Qed.

(** C1: for a model fitted on a non-empty [D], [transform] returns one
    vector per document, each as long as the vocabulary; the vocabulary
    holds exactly the tags seen in [D], indexed densely; the entry at the
    index of a vocabulary tag is [(count(tag)/T) * IDF(tag)] when the
    document has the tag and [0.0] otherwise; a document without any
    vocabulary tag gets the all-zero vector, and nothing raises. *)
Theorem C1_transform_is_tf_idf (self : TagEmbeddingModel F)
    (D docs : list TaggedDocument) :
  D ≠ [] →
  ∃ self' vectors,
    fit self D = Ok self'
    ∧ transform self' docs = Ok vectors
    ∧ length vectors = length docs
    ∧ (∀ tag, is_Some (vocabulary_ self' !! tag) ↔ ∃ d, d ∈ D ∧ tag ∈ tags d)
    ∧ (∀ i, (i < size (vocabulary_ self'))%nat ↔ ∃ tag, vocabulary_ self' !! tag = Some i)
    ∧ ∀ k d, docs !! k = Some d →
        ∃ v, vectors !! k = Some v
          ∧ length v = size (vocabulary_ self')
          ∧ (∀ tag i, vocabulary_ self' !! tag = Some i →
               v !! i = Some (if decide (tag ∈ tags d)
                              then f_mul (f_truediv (Z.of_nat (occurrences tag (tags d)))
                                                    (total_count d))
                                         (IDF D tag)
                              else f_zero))
          ∧ ((∀ tag, tag ∈ tags d → vocabulary_ self' !! tag = None) →
               v = replicate (size (vocabulary_ self')) f_zero).
Proof.
  intros HD. eexists _, _. split; [by apply fit_Ok|].
  split; [apply transform_fitted|]. cbn [vocabulary_].
  set (st := sorted_keys (document_frequency D)).
  pose proof (sorted_keys_NoDup (document_frequency D)) as Hst. fold st in Hst.
  rewrite index_tags_size by done.
  split; [by rewrite length_fmap|].
  split; [intros tag; apply vocabulary_seen|].
  split.
  { intros i. split.
    - intros [t Ht]%lookup_lt_is_Some_2. exists t. by apply index_tags_lookup.
    - intros [t Ht]. apply index_tags_lookup in Ht; [|done]. by eapply lookup_lt_Some. }
  intros k d Hk. exists (entry D d <$> st).
  split; [by rewrite list_lookup_fmap, Hk|].
  split; [by rewrite length_fmap|].
  split.
  - intros tag i Hi. apply index_tags_lookup in Hi; [|done].
    by rewrite list_lookup_fmap, Hi.
  - intros Hnone. apply list_eq. intros i. rewrite list_lookup_fmap.
    destruct (st !! i) as [t|] eqn:Hi; cbn.
    + rewrite lookup_replicate_2 by (by eapply lookup_lt_Some).
      unfold entry. destruct (decide (t ∈ tags d)) as [Hin|]; [|done].
      apply Hnone in Hin. apply (index_tags_lookup st t i Hst) in Hi. congruence.
    + symmetry. apply lookup_ge_None. rewrite length_replicate.
      by apply lookup_ge_None in Hi.
Qed.

(** C7: fitting on a permutation of the same documents gives the same
    result, whatever the instances held before: the same vocabulary
    mapping and the same IDF list; the indices follow the lexicographic
    order of the tags. *)
Theorem C7_fit_is_order_independent (self1 self2 : TagEmbeddingModel F)
    (D1 D2 : list TaggedDocument) :
  D1 ≡ₚ D2 →
  fit self1 D1 = fit self2 D2
  ∧ ∀ m t1 t2 i1 i2,
      fit self1 D1 = Ok m →
      vocabulary_ m !! t1 = Some i1 → vocabulary_ m !! t2 = Some i2 →
      ((i1 ≤ i2)%nat ↔ str_le t1 t2).
Proof.
  intros HP. split.
  - destruct D1 as [|d1 D1].
    + apply Permutation_nil_l in HP. by subst.
    + destruct D2 as [|d2 D2]; [by apply Permutation_nil_r in HP|].
      rewrite !fit_Ok by done. unfold IDF.
      rewrite (document_frequency_Permutation _ _ HP).
      do 2 f_equal. apply list_fmap_ext. intros _ t _.
      by rewrite (df_Permutation _ _ t HP), (Permutation_length HP).
  - intros m t1 t2 i1 i2 Hm H1 H2. destruct D1 as [|d1 D1]; [done|].
    rewrite fit_Ok in Hm by done. injection Hm as <-. cbn [vocabulary_] in H1, H2.
    pose proof (sorted_keys_NoDup (document_frequency (d1 :: D1))) as Hnd.
    pose proof (sorted_keys_sorted (document_frequency (d1 :: D1))) as Hs.
    apply index_tags_lookup in H1; [|done]. apply index_tags_lookup in H2; [|done].
    split.
    + intros Hle. destruct (decide (i1 = i2)) as [->|Hne].
      * assert (t1 = t2) as -> by congruence.
        by destruct (total str_le t2 t2).
      * eapply StronglySorted_lookup_lt; [done| |done..]. lia.
    + intros Hle. destruct (decide (i1 ≤ i2)%nat) as [|Hgt]; [done|]. exfalso.
      assert (str_le t2 t1) as Hge.
      { eapply StronglySorted_lookup_lt; [done| |done..]. lia. }
      assert (t1 = t2) as -> by (by apply (anti_symm str_le)).
      apply Hgt. by rewrite (NoDup_lookup _ i1 i2 t2 Hnd H1 H2).
Qed.

(** C8 (amended): once [fit] has succeeded, no later call makes the
    instance unfit; [transform] and a [fit] that raises leave the state as
    it is; a later [fit] on non-empty documents is not refused, and stores
    what a fresh instance would store for those documents. *)
Theorem C8_fitted_until_refit (self self' : TagEmbeddingModel F)
    (D : list TaggedDocument) :
  fit self D = Ok self' →
  (∀ calls, fitted (foldl state_after self' calls) = true)
  ∧ (∀ docs, state_after self' (CallTransform docs) = self')
  ∧ state_after self' (CallFit []) = self'
  ∧ (∀ D2, D2 ≠ [] →
       fit self' D2 = fit new_model D2
       ∧ fit self' D2 = Ok (state_after self' (CallFit D2))).
Proof.
  intros Hfit. apply fit_fitted in Hfit. split_and!.
  - intros calls. revert self' Hfit.
    induction calls as [|c calls IH]; intros s Hs; cbn [foldl]; [done|].
    apply IH. by apply state_after_fitted.
  - done.
  - done.
  - intros D2 HD2. cbn [state_after]. by rewrite !fit_Ok.
Qed.

End Facts.

(** C1 at the sample corpus, on binary64. *)
Lemma C1_witness :
  ∃ self' vectors,
    fit (F := float) new_model corpus = Ok self'
    ∧ transform self' queries = Ok vectors
    ∧ length vectors = 2%nat.
Proof.
  destruct (C1_transform_is_tf_idf (F := float) new_model corpus queries)
    as (self' & vectors & Hfit & Htr & Hlen & _); [discriminate|].
  exists self', vectors. split_and!; [exact Hfit|exact Htr|exact Hlen].
Defined.

(** C7 at the sample corpus and a reordering of it, on binary64. *)
Lemma C7_witness :
  fit (F := float) new_model corpus = fit new_model corpus_reordered.
Proof.
  refine (proj1 (C7_fit_is_order_independent (F := float) new_model new_model corpus
                   corpus_reordered _)).
  unfold corpus, corpus_reordered.
  apply Permutation_sym, Permutation_cons_append.
Defined.

(** C8 as stated fails: a second [fit] on other documents replaces the
    vocabulary of a fitted instance. *)
Lemma C8_counterexample :
  (m1 ← fit (F := float) new_model [doc "a.txt" [lit "x"]];
   m2 ← fit m1 [doc "b.txt" [lit "y"]];
   Ok (fitted m1, vocabulary_ m1 !! lit "x", fitted m2, vocabulary_ m2 !! lit "x"))
  = Ok (true, Some 0%nat, true, None).
Proof. vm_compute. reflexivity. Qed.

(** C8 (amended) at the sample corpus, on binary64: the instance stays
    fitted through a [transform], a failing [fit] and a second [fit]. *)
Lemma C8_witness :
  fitted (foldl state_after
            {| vocabulary_ := index_tags (sorted_keys (document_frequency corpus));
               idf_ := IDF (F := float) corpus <$> sorted_keys (document_frequency corpus);
               fitted := true |}
            [CallTransform queries; CallFit []; CallFit two_tags]) = true.
Proof.
  refine (proj1 (C8_fitted_until_refit (F := float) new_model _ corpus _) _).
  apply fit_Ok. discriminate.
Defined.

End EmbeddingFacts.

(** ** The similarity engine *)

Module SimilarityFacts.

Section Facts.
Context {F : Type} `{PyFloat F}.

Lemma sum_squares_not_neg `{!FloatArith F} (a : list F) :
  not_neg (f_sum ((λ x, f_mul x x) <$> a)).
Proof.
  apply f_sum_not_neg, Forall_fmap, Forall_forall. intros x _. apply f_square_not_neg.
Qed.

(** [math.sqrt] never gets a negative sum of squares. *)
Lemma math_sqrt_norm `{!FloatArith F} (a : list F) :
  math_sqrt (f_sum ((λ x, f_mul x x) <$> a)) = Ok (norm a).
Proof. unfold math_sqrt. by rewrite sum_squares_not_neg. Qed.

(** The function computes the cosine of the specification, and whenever
    it divides, the divisor is not zero. *)
Lemma _cosine_similarity_Ok `{!FloatArith F} (a b : list F) :
  _cosine_similarity a b = Ok (cosine a b).
Proof.
  unfold _cosine_similarity, cosine. rewrite !math_sqrt_norm. cbn.
  fold (dot a b).
  destruct (f_eqb (norm a) f_zero) eqn:Ha; [done|].
  destruct (f_eqb (norm b) f_zero) eqn:Hb; [done|]. cbn.
  unfold float_div, norm. rewrite f_sqrt_mul_nonzero; done.
Qed.

Lemma zip_with_mul_comm `{!FloatArith F} (a b : list F) :
  zip_with f_mul a b = zip_with f_mul b a.
Proof.
  revert b. induction a as [|x a IH]; intros [|y b]; cbn; [done..|].
  by rewrite f_mul_comm, IH.
Qed.

Lemma cosine_comm `{!FloatArith F} (a b : list F) : cosine a b = cosine b a.
Proof.
  unfold cosine, dot.
  by rewrite zip_with_mul_comm, (f_mul_comm (norm a)), orb_comm.
Qed.

(** What [build_similarity_matrix] returns for at least one document. *)
Lemma build_similarity_matrix_Ok `{!FloatArith F} (documents : list TaggedDocument)
    (embeddings : list (list F)) (decimals : option Z) :
  documents ≠ [] →
  build_similarity_matrix documents embeddings decimals
  = Ok {| labels := identifier <$> documents;
          values := (λ a, (λ b, round_to decimals (cosine a b)) <$> embeddings)
                      <$> embeddings |}.
Proof.
  intros Hd. unfold build_similarity_matrix.
  destruct documents as [|d documents]; [done|]. cbn [length Z.of_nat].
  destruct (Z.eqb_spec (Z.pos (Pos.of_succ_nat (length documents))) 0) as [|_]; [lia|].
  rewrite (for_each_append _ (λ a, (λ b, round_to decimals (cosine a b)) <$> embeddings));
    [done|].
  intros a _. unfold build_row.
  rewrite (for_each_append_map _ (round_to decimals) (cosine a)); [done|].
  intros b _. apply _cosine_similarity_Ok.
Qed.

Lemma tuple_index_first (ls : list str) (label : str) (i : nat) :
  tuple_index ls label = Ok i
  ↔ ls !! i = Some label ∧ ∀ j, (j < i)%nat → ls !! j ≠ Some label.
Proof.
  revert i. induction ls as [|l ls IH]; intros i; cbn [tuple_index].
  - split; [done|]. intros [Hi _]. by rewrite lookup_nil in Hi.
  - destruct (decide (l = label)) as [->|Hne].
    + split.
      * intros [= <-]. split; [done|]. intros j Hj. lia.
      * intros [Hi Hfirst]. destruct i as [|i]; [done|].
        exfalso. apply (Hfirst 0%nat); [lia|done].
    + destruct (tuple_index ls label) as [k|e]; cbn.
      * split.
        -- intros [= <-]. destruct (proj1 (IH k) eq_refl) as [Hk Hfirst].
           split; [done|].
           intros [|j] Hj; cbn; [congruence|]. apply Hfirst. lia.
        -- intros [Hi Hfirst]. destruct i as [|i]; cbn in Hi; [congruence|].
           assert (Ok k = Ok i) as [= ->]; [|done].
           apply IH. split; [done|]. intros j Hj. apply (Hfirst (S j)). lia.
      * split; [done|]. intros [Hi Hfirst].
        destruct i as [|i]; cbn in Hi; [congruence|].
        assert (@Raise nat e = Ok i) as Hi'; [|done].
        apply IH. split; [done|]. intros j Hj. apply (Hfirst (S j)). lia.
Qed.

Lemma tuple_index_elem_of (ls : list str) (label : str) :
  label ∈ ls → ∃ i, tuple_index ls label = Ok i.
Proof.
  induction ls as [|l ls IH]; intros Hin; [by apply not_elem_of_nil in Hin|].
  cbn [tuple_index]. destruct (decide (l = label)) as [|Hne]; [by eexists|].
  apply elem_of_cons in Hin as [|Hin]; [congruence|].
  destruct (IH Hin) as [i ->]. by eexists.
Qed.

Lemma insert_desc_Permutation (x : str * F) (l : list (str * F)) :
  insert_desc x l ≡ₚ x :: l.
Proof.
  induction l as [|y l IH]; cbn [insert_desc]; [done|].
  destruct (f_ltb x.2 y.2); [|done]. rewrite IH. apply perm_swap.
Qed.

Lemma sort_desc_Permutation (l : list (str * F)) : sort_desc l ≡ₚ l.
Proof.
  induction l as [|x l IH]; cbn; [done|].
  fold (sort_desc l). by rewrite insert_desc_Permutation, IH.
Qed.

Lemma insert_desc_sorted `{!FloatOrder F} (x : str * F) (l : list (str * F)) :
  comparable x.2 → Forall (λ p, comparable p.2) l →
  StronglySorted desc l → StronglySorted desc (insert_desc x l).
Proof.
  intros Hx Hall Hs. induction Hs as [|y l Hs IH Hy]; cbn [insert_desc].
  - repeat constructor.
  - apply Forall_cons in Hall as [Hcy Hall].
    destruct (f_ltb x.2 y.2) eqn:Hxy.
    + constructor; [by apply IH|].
      rewrite insert_desc_Permutation. constructor; [|done].
      by apply f_ltb_asym.
    + constructor; [by constructor|]. constructor; [done|].
      rewrite Forall_forall in Hy, Hall |- *. intros z Hz.
      by apply (f_ltb_negtrans _ y.2); [| |apply Hall|..|apply Hy].
Qed.

Lemma sort_desc_sorted `{!FloatOrder F} (l : list (str * F)) :
  Forall (λ p, comparable p.2) l → StronglySorted desc (sort_desc l).
Proof.
  induction l as [|x l IH]; intros Hall; cbn; [constructor|].
  apply Forall_cons in Hall as [Hx Hall]. fold (sort_desc l).
  apply insert_desc_sorted; [done| |by apply IH].
  by rewrite sort_desc_Permutation.
Qed.

Lemma slice_prefix {A} (l : list A) (n : Z) :
  slice l 0 n = take (Z.to_nat (clip (Z.of_nat (length l)) n)) l.
Proof.
  unfold slice. replace (clip (Z.of_nat (length l)) 0) with 0 by (unfold clip; cbn; lia).
  by rewrite Z.sub_0_r.
Qed.

Lemma slice_prefix_length {A} (l : list A) (n : Z) :
  Z.of_nat (length (slice l 0 n))
  = if n <? 0 then Z.max 0 (Z.of_nat (length l) + n) else Z.min n (Z.of_nat (length l)).
Proof.
  rewrite slice_prefix, length_take. unfold clip. destruct (n <? 0) eqn:Hn; lia.
Qed.

Lemma StronglySorted_take {A} (R : relation A) (l : list A) (n : nat) :
  StronglySorted R l → StronglySorted R (take n l).
Proof.
  intros Hs. rewrite <- (take_drop n l) in Hs. by apply StronglySorted_app_1_l in Hs.
Qed.

Lemma elem_of_zip_score (ls : list str) (r : list F) (p : str * F) :
  p ∈ zip ls r → p.2 ∈ r.
Proof.
  intros [i Hi]%list_elem_of_lookup_1. apply lookup_zip_with_Some in Hi
    as (l & x & -> & _ & Hx). by eapply list_elem_of_lookup_2.
Qed.

(** C2: [_cosine_similarity] returns (a·b)/(‖a‖·‖b‖), and exactly 0.0
    without dividing when either norm is zero; when it divides, the
    divisor is not zero; every cell [values[i][j]] of the matrix holds the
    cosine of embeddings [i] and [j], rounded to [decimals] digits when
    [decimals] is given. *)
Theorem C2_cells_are_rounded_cosines `{!FloatArith F} (documents : list TaggedDocument)
    (embeddings : list (list F)) (decimals : option Z) :
  documents ≠ [] →
  (∀ a b : list F,
     _cosine_similarity a b
     = Ok (if f_eqb (norm a) f_zero || f_eqb (norm b) f_zero then f_zero
           else f_div (dot a b) (f_mul (norm a) (norm b)))
     ∧ (f_eqb (norm a) f_zero = false → f_eqb (norm b) f_zero = false →
        float_div (dot a b) (f_mul (norm a) (norm b))
        = Ok (f_div (dot a b) (f_mul (norm a) (norm b)))))
  ∧ ∃ m, build_similarity_matrix documents embeddings decimals = Ok m
      ∧ ∀ i j a b, embeddings !! i = Some a → embeddings !! j = Some b →
          ∃ c, _cosine_similarity a b = Ok c
            ∧ (values m !! i) ≫= (.!! j)
              = Some (match decimals with Some d => f_round c d | None => c end).
Proof.
  intros Hd. split.
  - intros a b. split; [apply _cosine_similarity_Ok|].
    intros Ha Hb. unfold float_div, norm. by rewrite f_sqrt_mul_nonzero.
  - eexists. split; [by apply build_similarity_matrix_Ok|].
    intros i j a b Hi Hj. exists (cosine a b). split; [apply _cosine_similarity_Ok|].
    cbn [values]. rewrite list_lookup_fmap, Hi. cbn.
    rewrite list_lookup_fmap, Hj. by destruct decimals.
Qed.

(** C10: the lengths of [documents] and [embeddings] are never compared:
    whatever the embeddings, the call succeeds with one label per
    document and a square block of one row and one column per embedding. *)
Theorem C10_lengths_are_not_compared `{!FloatArith F} (documents : list TaggedDocument)
    (embeddings : list (list F)) (decimals : option Z) :
  documents ≠ [] →
  ∃ m, build_similarity_matrix documents embeddings decimals = Ok m
    ∧ length (labels m) = length documents
    ∧ length (values m) = length embeddings
    ∧ Forall (λ row, length row = length embeddings) (values m).
Proof.
  intros Hd. eexists. split; [by apply build_similarity_matrix_Ok|].
  cbn [labels values]. rewrite !length_fmap. split_and!; [done..|].
  apply Forall_fmap, Forall_forall. intros a _. cbn. by rewrite length_fmap.
Qed.


(** C4: [fit] and [build_similarity_matrix] raise [ValueError] on zero
    documents, and [transform] raises [RuntimeError] on an instance whose
    [fitted] flag is not set, whatever else the instance holds. *)
Theorem C4_input_errors_are_raised :
  (∀ self : TagEmbeddingModel F, fit self [] = Raise ValueError)
  ∧ (∀ (embeddings : list (list F)) decimals,
       build_similarity_matrix [] embeddings decimals = Raise ValueError)
  ∧ (∀ vocabulary idf documents,
       transform {| vocabulary_ := vocabulary; idf_ := idf; fitted := false |} documents
       = Raise RuntimeError)
  ∧ (∀ documents, transform (F := F) new_model documents = Raise RuntimeError).
Proof. by split_and!. Qed.

(** What [get_top_similar] does, by cases. *)
Lemma get_top_similar_cases (m : SimilarityMatrix F) (target : str)
    (top_n : Z) (include_self : bool) :
  ((target ∉ labels m) ∧ get_top_similar m target top_n include_self = Raise KeyError)
  ∨ (∃ i, target ∈ labels m
          ∧ tuple_index (labels m) target = Ok i
          ∧ match values m !! i with
            | None => get_top_similar m target top_n include_self = Raise IndexError
            | Some r =>
                get_top_similar m target top_n include_self
                = Ok (slice (sort_desc
                               (if include_self then zip (labels m) r
                                else filter (λ item, item.1 ≠ target) (zip (labels m) r)))
                            0 top_n)
            end).
Proof.
  unfold get_top_similar, row.
  destruct (decide (target ∈ labels m)) as [Hin|Hin].
  - right. destruct (tuple_index_elem_of _ _ Hin) as [i Hi]. exists i.
    split_and!; [done..|]. rewrite bool_decide_true by done. cbn [negb].
    rewrite Hi. cbn. unfold list_get.
    destruct (values m !! i) as [r|]; [|done]. cbn. by destruct include_self.
  - left. split; [done|]. by rewrite bool_decide_false.
Qed.

(** C5 (amended): [KeyError] is raised exactly when the target is not a
    label.  Otherwise the call raises [IndexError] when the matrix has no
    row at the first position of the target, and else returns pairs of
    that row: at most [top_n] of them when [top_n ≥ 0], all but the last
    [-top_n] eligible pairs when [top_n < 0]; none with the label of the
    target unless [include_self]; in descending order of score when no
    score of the row is NaN. *)
Theorem C5_top_similar `{!FloatOrder F} (m : SimilarityMatrix F) (target : str)
    (top_n : Z) (include_self : bool) :
  (get_top_similar m target top_n include_self = Raise KeyError ↔ target ∉ labels m)
  ∧ (target ∈ labels m →
     ∃ i, tuple_index (labels m) target = Ok i
       ∧ match values m !! i with
         | None => get_top_similar m target top_n include_self = Raise IndexError
         | Some r =>
             ∃ res, get_top_similar m target top_n include_self = Ok res
               ∧ (0 ≤ top_n → Z.of_nat (length res) ≤ top_n)
               ∧ (top_n < 0 →
                  let eligible := if include_self then zip (labels m) r
                                  else filter (λ item, item.1 ≠ target) (zip (labels m) r) in
                  Z.of_nat (length res) = Z.max 0 (Z.of_nat (length eligible) + top_n))
               ∧ (∀ p, p ∈ res → p ∈ zip (labels m) r)
               ∧ (include_self = false → ∀ p, p ∈ res → p.1 ≠ target)
               ∧ (Forall comparable r → StronglySorted desc res)
         end).
Proof.
  destruct (get_top_similar_cases m target top_n include_self)
    as [[Hin Hget]|(i & Hin & Hi & Hget)].
  - split; [by rewrite Hget|done].
  - split.
    { split; [|done]. intros Hk. destruct (values m !! i); by rewrite Hget in Hk. }
    intros _. exists i. split; [done|].
    destruct (values m !! i) as [r|]; [|done].
    set (eligible := if include_self then zip (labels m) r
                     else filter (λ item, item.1 ≠ target) (zip (labels m) r)) in *.
    assert (Hsub : ∀ p, p ∈ eligible → p ∈ zip (labels m) r).
    { intros p. unfold eligible. destruct include_self; [done|].
      by intros [_ ?]%list_elem_of_filter. }
    assert (Hres : ∀ p, p ∈ slice (sort_desc eligible) 0 top_n → p ∈ eligible).
    { intros p. rewrite slice_prefix. intros Hp%elem_of_take.
      destruct Hp as (k & Hp & _). apply list_elem_of_lookup_2 in Hp.
      by rewrite sort_desc_Permutation in Hp. }
    eexists. split; [done|]. split_and!.
    + intros Hn. rewrite slice_prefix_length.
      destruct (top_n <? 0) eqn:Hneg; lia.
    + intros Hn. cbn zeta. rewrite slice_prefix_length.
      rewrite (Permutation_length (sort_desc_Permutation eligible)).
      destruct (Z.ltb_spec top_n 0); [done|lia].
    + intros p Hp. by apply Hsub, Hres.
    + intros -> p Hp. apply Hres in Hp. unfold eligible in Hp.
      by apply list_elem_of_filter in Hp as [? _].
    + intros Hcmp. rewrite slice_prefix. apply StronglySorted_take, sort_desc_sorted.
      apply Forall_forall. intros p Hp. rewrite Forall_forall in Hcmp.
      apply Hcmp. eapply elem_of_zip_score, Hsub, Hp.
Qed.

(** C9: when [i] is the first position of the target among the labels,
    the pairs come from row [i] of the values, however often the label
    occurs; without [include_self] no returned pair carries the label of
    the target, so every document of that name is left out. *)
Theorem C9_first_row_and_all_namesakes_removed (m : SimilarityMatrix F)
    (target : str) (top_n : Z) (i : nat) (r : list F) :
  labels m !! i = Some target →
  (∀ j, (j < i)%nat → labels m !! j ≠ Some target) →
  values m !! i = Some r →
  get_top_similar m target top_n true
  = Ok (slice (sort_desc (zip (labels m) r)) 0 top_n)
  ∧ get_top_similar m target top_n false
    = Ok (slice (sort_desc (filter (λ item, item.1 ≠ target) (zip (labels m) r))) 0 top_n)
  ∧ ∀ res, get_top_similar m target top_n false = Ok res →
      (∀ p, p ∈ res → p.1 ≠ target)
      ∧ ∀ j x, labels m !! j = Some target → r !! j = Some x →
               (target, x) ∉ res.
Proof.
  intros Hi Hfirst Hr.
  assert (tuple_index (labels m) target = Ok i) as Hidx.
  { by apply tuple_index_first. }
  assert (Hcases : ∀ inc, get_top_similar m target top_n inc
            = Ok (slice (sort_desc
                           (if inc then zip (labels m) r
                            else filter (λ item, item.1 ≠ target) (zip (labels m) r)))
                        0 top_n)).
  { intros inc. destruct (get_top_similar_cases m target top_n inc)
      as [[Hin _]|(i' & _ & Hi' & Hget)].
    - exfalso. apply Hin. by eapply list_elem_of_lookup_2.
    - assert (i' = i) as -> by congruence. by rewrite Hr in Hget. }
  split; [apply (Hcases true)|]. split; [apply (Hcases false)|].
  intros res. rewrite (Hcases false). intros [= <-].
  assert (Hne : ∀ p, p ∈ slice (sort_desc (filter (λ item, item.1 ≠ target)
                                             (zip (labels m) r))) 0 top_n →
                     p.1 ≠ target).
  { intros p. rewrite slice_prefix. intros Hp%elem_of_take.
    destruct Hp as (k & Hp & _). apply list_elem_of_lookup_2 in Hp.
    rewrite sort_desc_Permutation in Hp.
    by apply list_elem_of_filter in Hp as [? _]. }
  split; [done|]. intros j x _ _ Hin. by apply Hne in Hin.
Qed.

End Facts.

End SimilarityFacts.

(** ** Binary64 satisfies the laws *)

Module Binary64Facts.

Lemma digits2_pos_size (p : positive) : digits2_pos p = Pos.size p.
Proof. induction p as [p IH|p IH|]; cbn; by rewrite ?IH. Qed.

Lemma Zdigits2_log2 (m : Z) : 0 < m → Zdigits2 m = Z.log2 m + 1.
Proof.
  destruct m as [|p|p]; try lia. intros _. cbn [Zdigits2].
  rewrite digits2_pos_size. destruct p; cbn; lia.
Qed.

Lemma iter_pos_iter {A} (f : A → A) (n : positive) (x : A) :
  SpecFloat.iter_pos f n x = Pos.iter f x n.
Proof.
  revert x. induction n as [n IH|n IH|]; intros x; cbn; [|by rewrite !IH|done].
  by rewrite !IH, <- !Pos.iter_swap.
Qed.

Lemma shr_1_m (mrs : shr_record) : 0 ≤ shr_m mrs → shr_m (shr_1 mrs) = Z.div2 (shr_m mrs).
Proof. destruct mrs as [[|[p|p|]|p] r s]; cbn; try done; lia. Qed.

Lemma shr_iter_m (n : positive) (mrs : shr_record) :
  0 ≤ shr_m mrs → shr_m (SpecFloat.iter_pos shr_1 n mrs) = Z.shiftr (shr_m mrs) (Z.pos n).
Proof.
  intros Hm. rewrite iter_pos_iter. induction n as [|n IH] using Pos.peano_ind.
  - cbn [Pos.iter]. rewrite shr_1_m by done. by rewrite Z.div2_spec.
  - rewrite Pos.iter_succ, shr_1_m, IH.
    + rewrite Z.div2_spec, Z.shiftr_shiftr by lia. f_equal. lia.
    + rewrite IH. by apply Z.shiftr_nonneg.
Qed.

Lemma shr_record_of_loc_m (m : Z) (l : location) : shr_m (shr_record_of_loc m l) = m.
Proof. by destruct l as [|[]]. Qed.

(** Rounding to the format never lowers the exponent. *)
Lemma shr_fexp_exp (m e : Z) (l : location) :
  e ≤ (shr_fexp prec emax m e l).2.
Proof.
  unfold shr_fexp, shr. destruct (fexp prec emax (Zdigits2 m + e) - e); cbn; lia.
Qed.

(** A number of at least [2^emin] keeps a positive mantissa. *)
Lemma shr_fexp_pos (m e : Z) (l : location) :
  0 < m → -1074 < Zdigits2 m + e →
  0 < shr_m (shr_fexp prec emax m e l).1
  ∧ Zdigits2 (shr_m (shr_fexp prec emax m e l).1) + (shr_fexp prec emax m e l).2
    = Zdigits2 m + e.
Proof.
  intros Hm Hd. unfold shr_fexp, shr.
  pose proof (Zdigits2_log2 m Hm) as Hlog.
  pose proof (Z.log2_nonneg m) as Hnn.
  destruct (fexp prec emax (Zdigits2 m + e) - e) as [|n|n] eqn:Hn; cbn [fst snd];
    rewrite ?shr_record_of_loc_m; [lia| |lia].
  rewrite shr_iter_m by (rewrite shr_record_of_loc_m; lia).
  rewrite shr_record_of_loc_m.
  assert (Z.pos n ≤ Z.log2 m) as Hle.
  { unfold fexp, SpecFloat.emin in Hn. change prec with 53 in Hn.
    change emax with 1024 in Hn. lia. }
  assert (0 < Z.shiftr m (Z.pos n)) as Hpos.
  { rewrite Z.shiftr_div_pow2 by lia.
    apply Z.div_str_pos. split; [lia|].
    apply Z.le_trans with (2 ^ Z.log2 m); [apply Z.pow_le_mono_r; lia|].
    apply Z.log2_spec. lia. }
  split; [done|].
  rewrite (Zdigits2_log2 _ Hpos), Z.log2_shiftr by lia. lia.
Qed.

Lemma round_nearest_even_bounds (m : Z) (l : location) :
  m ≤ round_nearest_even m l ≤ m + 1.
Proof. destruct l as [|[]]; cbn; try lia. destruct (Z.even m); lia. Qed.

Lemma Zdigits2_mono (a b : Z) : 0 < a → a ≤ b → Zdigits2 a ≤ Zdigits2 b.
Proof.
  intros Ha Hab. rewrite !Zdigits2_log2 by lia.
  pose proof (Z.log2_le_mono a b Hab). lia.
Qed.

Lemma binary_round_aux_nonzero (s s' : bool) (m e : Z) (l : location) :
  0 < m → -1074 < Zdigits2 m + e →
  binary_round_aux prec emax s m e l ≠ S754_zero s'.
Proof.
  intros Hm Hd. unfold binary_round_aux.
  destruct (shr_fexp_pos m e l Hm Hd) as [H1 H1d].
  destruct (shr_fexp prec emax m e l) as [mrs' e'] eqn:E1. cbn [fst snd] in H1, H1d.
  set (m2 := round_nearest_even (shr_m mrs') (loc_of_shr_record mrs')).
  pose proof (round_nearest_even_bounds (shr_m mrs') (loc_of_shr_record mrs')) as Hr.
  fold m2 in Hr.
  assert (0 < m2) as Hm2 by lia.
  assert (-1074 < Zdigits2 m2 + e') as Hd2.
  { pose proof (Zdigits2_mono (shr_m mrs') m2). lia. }
  destruct (shr_fexp_pos m2 e' loc_Exact Hm2 Hd2) as [H2 _].
  destruct (shr_fexp prec emax m2 e' loc_Exact) as [mrs'' e''] eqn:E2. cbn [fst] in H2.
  destruct (shr_m mrs''); [lia| |lia].
  by destruct (e'' <=? emax - prec).
Qed.

(** The result of rounding has the sign that was asked for, and an
    exponent that is not below the one given. *)
Lemma binary_round_aux_shape (s : bool) (m e : Z) (l : location) :
  match binary_round_aux prec emax s m e l with
  | S754_zero s' | S754_infinity s' => s' = s
  | S754_nan => True
  | S754_finite s' _ e' => s' = s ∧ e ≤ e'
  end.
Proof.
  unfold binary_round_aux.
  pose proof (shr_fexp_exp m e l) as H1.
  destruct (shr_fexp prec emax m e l) as [mrs' e'] eqn:E1. cbn [snd] in H1.
  set (m2 := round_nearest_even (shr_m mrs') (loc_of_shr_record mrs')).
  pose proof (shr_fexp_exp m2 e' loc_Exact) as H2.
  destruct (shr_fexp prec emax m2 e' loc_Exact) as [mrs'' e''] eqn:E2. cbn [snd] in H2.
  destruct (shr_m mrs''); [done| |done].
  destruct (e'' <=? emax - prec); [split; [done|lia]|done].
Qed.

Lemma valid_exponent (s : bool) (m : positive) (e : Z) :
  valid_binary (S754_finite s m e) = true →
  -1074 ≤ e ∧ (-1074 < e → Z.log2 (Z.pos m) = 52).
Proof.
  unfold valid_binary, bounded, canonical_mantissa, fexp, SpecFloat.emin.
  change prec with 53. change emax with 1024.
  intros [Hc _]%andb_prop. apply Z.eqb_eq in Hc.
  unfold fexp, SpecFloat.emin in Hc.
  pose proof (Zdigits2_log2 (Z.pos m) eq_refl) as Hlog. cbn [Zdigits2] in Hlog. lia.
Qed.

(** A square root is NaN, +infinity, a zero, or at least [2^-537]. *)
Lemma SFsqrt_shape (f : spec_float) :
  valid_binary f = true →
  match SFsqrt prec emax f with
  | S754_nan | S754_infinity false | S754_zero _ => True
  | S754_finite false _ e => -589 ≤ e
  | _ => False
  end.
Proof.
  destruct f as [s|[]| |[] m e]; cbn [SFsqrt]; try done.
  intros [He _]%valid_exponent.
  destruct (SFsqrt_core_binary prec emax (Z.pos m) e) as [[q e'] l] eqn:Hcore.
  assert (-589 ≤ e') as He'.
  { unfold SFsqrt_core_binary in Hcore.
    destruct (Z.sqrtrem _) as [q' r']. injection Hcore as _ <- _.
    unfold fexp, SpecFloat.emin. change prec with 53. change emax with 1024.
    rewrite !Z.div2_div.
    assert (1 ≤ Zdigits2 (Z.pos m)) by (cbn; lia).
    assert (-536 ≤ (Zdigits2 (Z.pos m) + e + 1) / 2) by (apply Z.div_le_lower_bound; lia).
    assert (-537 ≤ e / 2) by (apply Z.div_le_lower_bound; lia).
    cbn [Zdigits2] in *. lia. }
  pose proof (binary_round_aux_shape false q e' l) as Hs.
  destruct (binary_round_aux prec emax false q e' l) as [s|s| |s m' e''];
    try done; try (by subst s). destruct Hs as [-> ?]. lia.
Qed.

Lemma SFmul_nonzero (s1 s2 s : bool) (m1 m2 : positive) (e1 e2 : Z) :
  valid_binary (S754_finite s1 m1 e1) = true →
  valid_binary (S754_finite s2 m2 e2) = true →
  -589 ≤ e1 → -589 ≤ e2 →
  SFmul prec emax (S754_finite s1 m1 e1) (S754_finite s2 m2 e2) ≠ S754_zero s.
Proof.
  intros [_ H1]%valid_exponent [_ H2]%valid_exponent He1 He2. cbn [SFmul].
  apply binary_round_aux_nonzero; [done|].
  rewrite Zdigits2_log2 by done.
  pose proof (Z.log2_mul_below (Z.pos m1) (Z.pos m2) eq_refl eq_refl) as Hmul.
  rewrite Pos2Z.inj_mul. lia.
Qed.

Lemma SFeqb_zero (f : spec_float) :
  SFeqb f (S754_zero false) = true ↔ ∃ s, f = S754_zero s.
Proof.
  destruct f as [s|[]| |[] m e]; cbn; split; try done; try (by intros [? ?]).
  by exists s.
Qed.

Lemma sqrt_mul_nonzero (x y : float) :
  (PrimFloat.sqrt x =? 0)%float = false → (PrimFloat.sqrt y =? 0)%float = false →
  (PrimFloat.sqrt x * PrimFloat.sqrt y =? 0)%float = false.
Proof.
  rewrite !FloatAxioms.eqb_spec, mul_spec. change (Prim2SF 0) with (S754_zero false).
  pose proof (Prim2SF_valid (PrimFloat.sqrt x)) as Vx. pose proof (Prim2SF_valid (PrimFloat.sqrt y)) as Vy.
  pose proof (SFsqrt_shape _ (Prim2SF_valid x)) as Sx.
  pose proof (SFsqrt_shape _ (Prim2SF_valid y)) as Sy.
  rewrite <- sqrt_spec in Sx, Sy.
  destruct (Prim2SF (PrimFloat.sqrt x)) as [sx|[]| |[] mx ex]; try done;
    destruct (Prim2SF (PrimFloat.sqrt y)) as [sy|[]| |[] my ey]; try done.
  intros _ _. apply not_true_iff_false. intros [s Hs]%SFeqb_zero.
  revert Hs. by apply SFmul_nonzero.
Qed.

Lemma SFmul_comm (x y : spec_float) : SFmul prec emax x y = SFmul prec emax y x.
Proof.
  destruct x as [sx|sx| |sx mx ex], y as [sy|sy| |sy my ey]; cbn;
    rewrite ?(xorb_comm sx sy); try done.
  by rewrite Pos.mul_comm, Z.add_comm.
Qed.

Lemma mul_comm (x y : float) : (x * y)%float = (y * x)%float.
Proof. apply Prim2SF_inj. rewrite !mul_spec. apply SFmul_comm. Qed.

Lemma SFltb_zero (f : spec_float) :
  SFltb f (S754_zero false) = false ↔ SFnot_neg f.
Proof. by destruct f as [s|[]| |[] m e]. Qed.

Lemma binary_round_aux_not_neg (m e : Z) (l : location) :
  SFnot_neg (binary_round_aux prec emax false m e l).
Proof.
  pose proof (binary_round_aux_shape false m e l) as Hs.
  destruct (binary_round_aux prec emax false m e l) as [s|s| |s m' e'];
    try done; [by subst|by destruct Hs as [-> _]].
Qed.

Lemma SFmul_square_not_neg (f : spec_float) : SFnot_neg (SFmul prec emax f f).
Proof.
  destruct f as [s|s| |s m e]; cbn; rewrite ?xorb_nilpotent; try done.
  apply binary_round_aux_not_neg.
Qed.

Lemma SFadd_not_neg (f g : spec_float) :
  SFnot_neg f → SFnot_neg g → SFnot_neg (SFadd prec emax f g).
Proof.
  destruct f as [[]|[]| |[] m e], g as [[]|[]| |[] m' e']; cbn; try done.
  intros _ _. unfold binary_normalize.
  destruct (shl_align m e (e `min` e')) as [a ?], (shl_align m' e' (e `min` e')) as [b ?].
  cbn [fst cond_Zopp]. change (Z.pos a + Z.pos b) with (Z.pos (a + b)). cbv iota beta.
  unfold binary_round.
  match goal with
  | |- context [shl_align ?a ?b ?c] => destruct (shl_align a b c) as [mz ez]
  end.
  apply binary_round_aux_not_neg.
Qed.

Lemma square_not_neg (x : float) : (x * x <? 0)%float = false.
Proof.
  rewrite ltb_spec, mul_spec. change (Prim2SF 0) with (S754_zero false).
  apply SFltb_zero, SFmul_square_not_neg.
Qed.

Lemma add_not_neg (x y : float) :
  (x <? 0)%float = false → (y <? 0)%float = false → (x + y <? 0)%float = false.
Proof.
  rewrite !ltb_spec, add_spec. change (Prim2SF 0) with (S754_zero false).
  rewrite !SFltb_zero. apply SFadd_not_neg.
Qed.

Lemma SFltb_asym (f g : spec_float) : SFltb f g = true → SFltb g f = false.
Proof.
  unfold SFltb.
  destruct f as [[]|[]| |[] m e], g as [[]|[]| |[] m' e']; cbn; try done;
    rewrite ?Pos.compare_cont_spec; cbn;
    destruct (Z.compare_spec e e'), (Z.compare_spec e' e), (Pos.compare_spec m m'),
      (Pos.compare_spec m' m); cbn; try done; lia.
Qed.

Lemma SFltb_negtrans (f g h : spec_float) :
  f ≠ S754_nan → g ≠ S754_nan → h ≠ S754_nan →
  SFltb f g = false → SFltb g h = false → SFltb f h = false.
Proof.
  unfold SFltb.
  destruct f as [[]|[]| |[] m e], g as [[]|[]| |[] m' e'], h as [[]|[]| |[] m'' e''];
    cbn; try done; intros _ _ _;
    rewrite ?Pos.compare_cont_spec; cbn;
    destruct (Z.compare_spec e e'), (Z.compare_spec e' e''), (Z.compare_spec e e'');
    cbn; try done; try lia;
    destruct (Pos.compare_spec m m'), (Pos.compare_spec m' m''), (Pos.compare_spec m m'');
    cbn; try done; lia.
Qed.

Lemma SFeqb_refl_nan (f : spec_float) : SFeqb f f = true → f ≠ S754_nan.
Proof. by destruct f. Qed.

Lemma ltb_asym (x y : float) : (x <? y)%float = true → (y <? x)%float = false.
Proof. rewrite !ltb_spec. apply SFltb_asym. Qed.

Lemma ltb_negtrans (x y z : float) :
  (x =? x)%float = true → (y =? y)%float = true → (z =? z)%float = true →
  (x <? y)%float = false → (y <? z)%float = false → (x <? z)%float = false.
Proof.
  rewrite !FloatAxioms.eqb_spec, !ltb_spec.
  intros Hx%SFeqb_refl_nan Hy%SFeqb_refl_nan Hz%SFeqb_refl_nan.
  by apply SFltb_negtrans.
Qed.

Lemma sum_left_not_neg (xs : list float) :
  Forall (λ x, (x <? 0)%float = false) xs → (sum_left xs <? 0)%float = false.
Proof.
  unfold sum_left. change (of_int 0) with 0%float.
  assert (Hgen : ∀ acc, (acc <? 0)%float = false →
                        Forall (λ x, (x <? 0)%float = false) xs →
                        (foldl PrimFloat.add acc xs <? 0)%float = false).
  { induction xs as [|x xs IH]; intros acc Hacc Hall; cbn [foldl]; [done|].
    apply Forall_cons in Hall as [Hx Hall]. apply IH; [|done].
    by apply add_not_neg. }
  by apply Hgen.
Qed.

Lemma binary64_arith : FloatArith float.
Proof.
  split.
  - apply mul_comm.
  - apply sum_left_not_neg.
  - apply square_not_neg.
  - apply sqrt_mul_nonzero.
Qed.

Lemma binary64_order : FloatOrder float.
Proof.
  split.
  - apply ltb_asym.
  - apply ltb_negtrans.
Qed.

End Binary64Facts.

(** ** The results at concrete inputs, on binary64 *)

Module Witnesses.

Import SimilarityFacts Binary64Facts.

(** C2 at three documents and three embeddings, rounding to 6 digits. *)
Lemma C2_witness :
  ∃ m, build_similarity_matrix corpus sample_embeddings (Some 6) = Ok m
    ∧ ∀ i j a b, sample_embeddings !! i = Some a → sample_embeddings !! j = Some b →
        ∃ c, _cosine_similarity a b = Ok c
          ∧ (values m !! i) ≫= (.!! j) = Some (f_round c 6).
Proof.
  refine (proj2 (C2_cells_are_rounded_cosines (F := float) (FloatArith0 := binary64_arith)
                   corpus sample_embeddings (Some 6) _)).
  discriminate.
Defined.

(** C10 at three documents and two embeddings. *)
Lemma C10_witness :
  ∃ m, build_similarity_matrix corpus short_embeddings (Some 6) = Ok m
    ∧ length (labels m) = 3%nat
    ∧ length (values m) = 2%nat
    ∧ Forall (λ row, length row = 2%nat) (values m).
Proof.
  refine (C10_lengths_are_not_compared (F := float) (FloatArith0 := binary64_arith)
            corpus short_embeddings (Some 6) _).
  discriminate.
Defined.

(** C5 as stated fails: with [top_n = -1] both pairs of other labels but
    the last are returned, which is more than [top_n]. *)
Lemma C5_counterexample :
  (res ← get_top_similar namesake_matrix (lit "b.txt") (-1) false;
   Ok (res, Z.of_nat (length res) <=? -1))
  = Ok ([(lit "a.txt", 0.5); (lit "a.txt", 0)]%float, false).
Proof. vm_compute. reflexivity. Qed.

(** C5 (amended) at a matrix with a repeated label, asking for the two
    best matches of b.txt. *)
Lemma C5_witness :
  (get_top_similar namesake_matrix (lit "b.txt") 2 false = Raise KeyError
   ↔ lit "b.txt" ∉ labels namesake_matrix)
  ∧ ∃ res, get_top_similar namesake_matrix (lit "b.txt") 2 false = Ok res
      ∧ Z.of_nat (length res) ≤ 2
      ∧ (∀ p, p ∈ res → p.1 ≠ lit "b.txt")
      ∧ StronglySorted desc res.
Proof.
  destruct (C5_top_similar (F := float) (FloatOrder0 := binary64_order)
              namesake_matrix (lit "b.txt") 2 false) as [Hkey Hin].
  split; [exact Hkey|].
  destruct Hin as (i & Hi & Hrow).
  { apply list_elem_of_In. vm_compute. tauto. }
  injection Hi as <-. cbn [values namesake_matrix lookup list_lookup] in Hrow.
  destruct Hrow as (res & Hres & Hlen & _ & _ & Hself & Hsorted).
  exists res. split; [exact Hres|]. split; [apply Hlen; lia|].
  split; [by apply Hself|]. apply Hsorted.
  repeat constructor.
Defined.

(** C9 at a matrix whose first and third labels are both a.txt: the row
    read is the first one, and neither a.txt pair is returned. *)
Lemma C9_witness :
  get_top_similar namesake_matrix (lit "a.txt") 10 true
  = Ok (slice (sort_desc (zip (labels namesake_matrix) [1; 0.5; 0.25; 0.75]%float)) 0 10)
  ∧ get_top_similar namesake_matrix (lit "a.txt") 10 false
    = Ok (slice (sort_desc (filter (λ item, item.1 ≠ lit "a.txt")
                              (zip (labels namesake_matrix) [1; 0.5; 0.25; 0.75]%float))) 0 10)
  ∧ ∀ res, get_top_similar namesake_matrix (lit "a.txt") 10 false = Ok res →
      (∀ p, p ∈ res → p.1 ≠ lit "a.txt")
      ∧ ∀ j x, labels namesake_matrix !! j = Some (lit "a.txt") →
               [1; 0.5; 0.25; 0.75]%float !! j = Some x → (lit "a.txt", x) ∉ res.
Proof.
  apply (C9_first_row_and_all_namesakes_removed (F := float) namesake_matrix
           (lit "a.txt") 10 0 [1; 0.5; 0.25; 0.75]%float).
  - reflexivity.
  - intros j Hj. lia.
  - reflexivity.
Defined.

(** The assertions of the repository's tests, run on the model. *)

Example test_parse_contents_lines_handles_malformed_entries :
  (λ d, (identifier d, tags d))
    <$> parse_contents_lines
          [ lit "['first', 'second'].txt"; lit "['first, 'second', 'third'].rtf";
            lit "[' lone '] .pdf"; lit "no brackets here"; lit "   " ] true
  = [ (lit "first_second.txt", [lit "first"; lit "second"]);
      (lit "first_second_third.rtf", [lit "first"; lit "second"; lit "third"]);
      (lit "lone.pdf", [lit "lone"]) ].
Proof. vm_compute. reflexivity. Qed.

Example test_parse_contents_lines_can_keep_duplicates :
  length (parse_contents_lines [lit "['a', 'b'].txt"; lit "['a', 'b'].txt"] true) = 1%nat
  ∧ length (parse_contents_lines [lit "['a', 'b'].txt"; lit "['a', 'b'].txt"] false) = 2%nat.
Proof. split; vm_compute; reflexivity. Qed.

(** The off-diagonal cell is 0.366. *)
Example test_similarity_matrix_roundtrip :
  (r ← fit_transform (F := float) new_model corpus;
   m ← build_similarity_matrix corpus r.2 (Some 3);
   Ok (length (labels m), length (values m), values m))
  = Ok (3%nat, 3%nat, [[1; 0x1.76c8b43958106p-2; 0]; [0x1.76c8b43958106p-2; 1; 0]; [0; 0; 1]]%float).
Proof. vm_compute. reflexivity. Qed.

Example test_get_top_similar_returns_sorted_scores :
  (r ← fit_transform (F := float) new_model corpus;
   m ← build_similarity_matrix corpus r.2 (Some 6);
   top ← get_top_similar m (lit "doc1.txt") 2 false;
   Ok (top.*1))
  = Ok [lit "doc2.txt"; lit "doc3.txt"].
Proof. vm_compute. reflexivity. Qed.

End Witnesses.

(** ** Exact arithmetic: the laws, and the cosine of non-negative vectors *)

Module ExactFacts.

Import SimilarityFacts.

Lemma exact_eqb (x y : R) : f_eqb x y = true ↔ x = y.
Proof. cbn. by destruct (Req_EM_T x y). Qed.

Lemma exact_ltb (x y : R) : f_ltb x y = true ↔ (x < y)%R.
Proof. cbn. by destruct (Rlt_dec x y). Qed.

Lemma exact_eqb_false (x y : R) : f_eqb x y = false ↔ x ≠ y.
Proof. cbn. by destruct (Req_EM_T x y). Qed.

Lemma exact_ltb_false (x y : R) : f_ltb x y = false ↔ (y <= x)%R.
Proof. cbn. destruct (Rlt_dec x y); split; try done; lra. Qed.

(** [sum] adds from the left; in exact arithmetic that is the sum. *)
Lemma sum_cons (x : R) (xs : list R) : f_sum (x :: xs) = (x + f_sum xs)%R.
Proof.
  cbn [f_sum exact foldl].
  assert (Hgen : ∀ acc : R, foldl Rplus acc xs = (acc + foldl Rplus 0 xs)%R).
  { induction xs as [|y ys IH]; intros acc; cbn [foldl].
    - lra.
    - rewrite (IH (acc + y)%R), (IH (0 + y)%R). lra. }
  rewrite Hgen. lra.
Qed.

Lemma sum_nil : f_sum ([] : list R) = 0%R.
Proof. reflexivity. Qed.

Lemma sum_nonneg (xs : list R) : Forall (λ x, (0 <= x)%R) xs → (0 <= f_sum xs)%R.
Proof.
  induction 1 as [|x xs Hx Hxs IH]; [rewrite sum_nil; lra|]. rewrite sum_cons. lra.
Qed.

Lemma exact_arith : FloatArith R.
Proof.
  split.
  - intros x y. apply Rmult_comm.
  - intros xs Hxs. apply exact_ltb_false. apply sum_nonneg.
    eapply Forall_impl; [exact Hxs|]. intros x Hx. by apply exact_ltb_false in Hx.
  - intros x. apply exact_ltb_false. cbn. nra.
  - intros x y. rewrite !exact_eqb_false. cbn. intros Hx Hy Hxy.
    by destruct (Rmult_integral _ _ Hxy).
Qed.

Lemma exact_order : FloatOrder R.
Proof.
  split.
  - intros x y. rewrite exact_ltb, exact_ltb_false. lra.
  - intros x y z _ _ _. rewrite !exact_ltb_false. lra.
Qed.

Lemma squares_cons (x : R) (a : list R) : squares (x :: a) = (x * x + squares a)%R.
Proof. unfold squares. by rewrite fmap_cons, sum_cons. Qed.

Lemma squares_nonneg (a : list R) : (0 <= squares a)%R.
Proof.
  induction a as [|x a IH]; [cbn; lra|]. rewrite squares_cons. nra.
Qed.

Lemma squares_pos (a : list R) : (∃ x, x ∈ a ∧ x ≠ 0%R) → (0 < squares a)%R.
Proof.
  intros (x & Hin & Hx). induction a as [|y a IH]; [by apply not_elem_of_nil in Hin|].
  rewrite squares_cons. pose proof (squares_nonneg a).
  apply elem_of_cons in Hin as [<-|Hin]; [nra|]. specialize (IH Hin). nra.
Qed.

Lemma norm_sqr (a : list R) : (norm a * norm a = squares a)%R.
Proof. apply sqrt_sqrt, squares_nonneg. Qed.

Lemma norm_nonneg (a : list R) : (0 <= norm a)%R.
Proof. apply sqrt_pos. Qed.

Lemma dot_self (a : list R) : dot a a = squares a.
Proof.
  unfold dot, squares. f_equal. induction a as [|x a IH]; [done|].
  cbn [zip_with]. rewrite fmap_cons. by f_equal.
Qed.

(** Cauchy-Schwarz for the vectors of the matrix: entries not below
    zero, products taken over the common prefix. *)
Lemma dot_bounds (a b : list R) :
  Forall (λ x, (0 <= x)%R) a → Forall (λ x, (0 <= x)%R) b →
  (0 <= dot a b <= norm a * norm b)%R.
Proof.
  intros Ha. revert b. induction Ha as [|x a Hx Ha IH]; intros b Hb.
  - unfold dot. cbn [zip_with]. rewrite sum_nil.
    pose proof (norm_nonneg []). pose proof (norm_nonneg b). nra.
  - destruct Hb as [|y b Hy Hb].
    + unfold dot. cbn [zip_with]. rewrite sum_nil.
      pose proof (norm_nonneg (x :: a)). pose proof (norm_nonneg []). nra.
    + specialize (IH b Hb). unfold dot in *. cbn [zip_with]. rewrite sum_cons.
      pose proof (norm_sqr a) as Hpa. pose proof (norm_sqr b) as Hqb.
      pose proof (norm_sqr (x :: a)) as Hu. pose proof (norm_sqr (y :: b)) as Hv.
      rewrite squares_cons in Hu, Hv.
      pose proof (norm_nonneg a). pose proof (norm_nonneg b).
      pose proof (norm_nonneg (x :: a)). pose proof (norm_nonneg (y :: b)).
      set (p := norm a) in *. set (q := norm b) in *.
      set (u := norm (x :: a)) in *. set (v := norm (y :: b)) in *.
      set (d := f_sum (zip_with f_mul a b)) in *. cbn [f_mul exact].
      split; [nra|].
      assert (((x * y + p * q) * (x * y + p * q) <= (u * v) * (u * v))%R) as Hsq.
      { replace ((u * v) * (u * v))%R with ((u * u) * (v * v))%R by ring.
        rewrite Hu, Hv, <- Hpa, <- Hqb.
        pose proof (Rle_0_sqr (x * q - y * p)) as Hs. unfold Rsqr in Hs. nra. }
      assert ((x * y + p * q <= u * v)%R); [|lra].
      apply Rsqr_incr_0_var; [exact Hsq|by apply Rmult_le_pos].
Qed.

Lemma cosine_self_exact (a : list R) :
  (∃ x, x ∈ a ∧ x ≠ 0%R) → cosine a a = 1%R.
Proof.
  intros Hnz%squares_pos. unfold cosine. rewrite orb_diag, dot_self.
  pose proof (norm_sqr a) as Hn.
  destruct (f_eqb (norm a) f_zero) eqn:Hz.
  - apply exact_eqb in Hz. rewrite Hz in Hn.
    change (f_zero (F := R)) with 0%R in Hn. lra.
  - cbn [f_div f_mul exact]. rewrite Hn. field. lra.
Qed.

Lemma cosine_range_exact (a b : list R) :
  Forall (λ x, (0 <= x)%R) a → Forall (λ x, (0 <= x)%R) b →
  (0 <= cosine a b <= 1)%R.
Proof.
  intros Ha Hb. unfold cosine. pose proof (dot_bounds a b Ha Hb) as Hd.
  pose proof (norm_nonneg a). pose proof (norm_nonneg b).
  destruct (f_eqb (norm a) f_zero) eqn:Hza; [cbn; lra|].
  destruct (f_eqb (norm b) f_zero) eqn:Hzb; [cbn; lra|].
  apply exact_eqb_false in Hza, Hzb.
  change (f_zero (F := R)) with 0%R in Hza, Hzb. cbn [orb f_div f_mul exact].
  assert (0 < norm a * norm b)%R as Hpos by (apply Rmult_lt_0_compat; lra).
  split.
  - apply Rmult_le_pos; [lra|]. left. by apply Rinv_0_lt_compat.
  - apply (Rmult_le_reg_r (norm a * norm b)); [done|].
    unfold Rdiv. rewrite Rmult_assoc, Rinv_l by lra. lra.
Qed.

Lemma rint_bounds (y : R) (n : Z) :
  (0 <= y <= IZR n)%R → 0 ≤ rint y ≤ n.
Proof.
  intros [Hlo Hhi]. unfold rint.
  destruct (base_Int_part y) as [Hfl Hce].
  pose proof (Rplus_Int_part_frac_part y) as Hfrac.
  assert (0 ≤ Int_part y) as Hn0.
  { apply Z.lt_succ_r, lt_IZR. rewrite succ_IZR. lra. }
  assert (Int_part y ≤ n) as Hn1 by (apply le_IZR; lra).
  assert ((1 / 2 <= frac_part y)%R → Int_part y + 1 ≤ n) as Hup.
  { intros Hhalf. apply Z.lt_succ_r, lt_IZR. rewrite succ_IZR, plus_IZR. lra. }
  destruct (Rlt_dec (frac_part y) (1 / 2)) as [|Hge]; [lia|].
  apply Rnot_lt_le in Hge. specialize (Hup Hge).
  destruct (Rlt_dec (1 / 2) (frac_part y)); [lia|].
  destruct (Z.even (Int_part y)); lia.
Qed.

Lemma rint_IZR (n : Z) : 0 ≤ n → rint (IZR n) = n.
Proof.
  intros Hn. unfold rint.
  assert (Int_part (IZR n) = n) as Hi.
  { symmetry. apply Int_part_spec. lra. }
  pose proof (Rplus_Int_part_frac_part (IZR n)) as Hfrac. rewrite Hi in Hfrac |- *.
  destruct (Rlt_dec (frac_part (IZR n)) (1 / 2)); [done|]. lra.
Qed.

Lemma powerRZ_10 (d : Z) : 0 ≤ d → powerRZ 10 d = IZR (10 ^ d) ∧ 0 < 10 ^ d.
Proof.
  intros Hd. split; [|by apply Z.pow_pos_nonneg].
  destruct d as [|p|p]; [done| |lia].
  by rewrite <- Zpower_pos_powerRZ.
Qed.

Lemma round_unit (d : Z) : 0 ≤ d → round 1 d = 1%R.
Proof.
  intros Hd. unfold round. rewrite powerRZ_neg'.
  destruct (powerRZ_10 d Hd) as [-> Hpos]. rewrite Rmult_1_l, rint_IZR by lia.
  apply Rinv_r. apply IZR_lt in Hpos. lra.
Qed.

Lemma round_range (x : R) (d : Z) :
  0 ≤ d → (0 <= x <= 1)%R → (0 <= round x d <= 1)%R.
Proof.
  intros Hd Hx. unfold round. rewrite powerRZ_neg'.
  destruct (powerRZ_10 d Hd) as [-> Hpos]. apply IZR_lt in Hpos.
  destruct (rint_bounds (x * IZR (10 ^ d)) (10 ^ d)) as [Hlo Hhi]; [nra|].
  apply IZR_le in Hlo, Hhi.
  pose proof (Rinv_0_lt_compat _ Hpos) as Hinv. split; [nra|].
  apply (Rmult_le_reg_r (IZR (10 ^ d))); [done|].
  rewrite Rmult_assoc, Rinv_l by lra. lra.
Qed.


End ExactFacts.

(** ** The invariants of the matrix *)

Module MatrixFacts.

Import SimilarityFacts Binary64Facts ExactFacts.



(** The two cells are the same with the summation of CPython 3.12. *)
Example self_similarity_with_compensated_sum :
  (r ← fit_transform (H := binary64_compensated) new_model two_tags;
   m ← build_similarity_matrix (H := binary64_compensated) two_tags r.2 None;
   Ok (values m))
  = Ok [[0x1.ffffffffffffep-1]]%float
  ∧ (r ← fit_transform (H := binary64_compensated) new_model seven_tags;
     m ← build_similarity_matrix (H := binary64_compensated) seven_tags r.2 None;
     Ok (values m))
    = Ok [[0x1.0000000000001p+0]]%float.
Proof. split; vm_compute; reflexivity. Qed.


End MatrixFacts.

(** * Further results

    The parser line by line, the model across calls, the views of the
    matrix, and the callers in [semsi/ui_app.py] and [semsi/cli.py] that
    put the three stages together. *)

(** ** The parser, line by line *)

Module ParserFacts.

Lemma parse_line_document (drop_duplicates : bool) (documents : list TaggedDocument)
    (seen : gset str) (raw_line : str) :
  parse_line drop_duplicates (documents, seen) raw_line
  = match line_document raw_line with
    | None => (documents, seen)
    | Some d =>
        if drop_duplicates && bool_decide (identifier d ∈ seen) then (documents, seen)
        else (documents ++ [d],
              if drop_duplicates then {[identifier d]} ∪ seen else seen)
    end.
Proof.
  unfold parse_line, line_document.
  destruct (negb (truthy (strip raw_line))); [done|].
  destruct (_extract_bracket_content (strip raw_line)) as [bc|]; [|done].
  destruct (negb (truthy (collect_tags bc))); done.
Qed.

Lemma parse_keep_from (lines : list str) (documents : list TaggedDocument)
    (seen : gset str) :
  foldl (parse_line false) (documents, seen) lines
  = (documents ++ omap line_document lines, seen).
Proof.
  revert documents. induction lines as [|l lines IH]; intros documents; cbn [foldl].
  - cbn. by rewrite app_nil_r.
  - rewrite parse_line_document. cbn [andb].
    change (omap line_document (l :: lines))
      with (match line_document l with
            | Some d => d :: omap line_document lines
            | None => omap line_document lines
            end).
    destruct (line_document l) as [d|]; rewrite IH; [|done].
    by rewrite <- app_assoc.
Qed.

Lemma parse_keep (lines : list str) :
  parse_contents_lines lines false = omap line_document lines.
Proof. unfold parse_contents_lines. by rewrite parse_keep_from. Qed.

(** X1: when duplicates are kept every line is parsed on its own: parsing
    two batches of lines one after the other gives the documents of the
    first followed by those of the second, and the result never has more
    documents than there are lines. *)
Theorem parse_keep_duplicates_app (lines1 lines2 : list str) :
  parse_contents_lines (lines1 ++ lines2) false
  = parse_contents_lines lines1 false ++ parse_contents_lines lines2 false
  ∧ (length (parse_contents_lines lines1 false) ≤ length lines1)%nat.
Proof.
  rewrite !parse_keep. split; [apply omap_app|].
  induction lines1 as [|l lines1 IH]; [done|].
  change (omap line_document (l :: lines1))
    with (match line_document l with
          | Some d => d :: omap line_document lines1
          | None => omap line_document lines1
          end).
  destruct (line_document l); cbn [length]; lia.
Qed.


Lemma parse_line_dedup_state (st : list TaggedDocument * gset str) (raw_line : str) :
  dedup_state st → dedup_state (parse_line true st raw_line).
Proof.
  destruct st as [documents seen]. intros [Hnd Hseen].
  rewrite parse_line_document. destruct (line_document raw_line) as [d|]; [|done].
  cbn [andb]. destruct (bool_decide_reflect (identifier d ∈ seen)) as [Hin|Hin];
    [done|]. split; cbn [fst snd].
  - rewrite fmap_app. apply NoDup_app. split_and!; [done| |apply NoDup_singleton].
    intros id Hid ->%list_elem_of_singleton. by apply Hin, Hseen.
  - intros id. rewrite fmap_app, elem_of_app, elem_of_union, elem_of_singleton,
      Hseen. cbn. rewrite list_elem_of_singleton. tauto.
Qed.

Lemma parse_dedup_state (lines : list str) (st : list TaggedDocument * gset str) :
  dedup_state st → dedup_state (foldl (parse_line true) st lines).
Proof.
  revert st. induction lines as [|l lines IH]; intros st Hst; cbn [foldl]; [done|].
  by apply IH, parse_line_dedup_state.
Qed.

(** The documents of the deduplicating loop, from a state on: those of the
    lines whose identifier is new. *)
Lemma parse_dedup_from (lines : list str) (documents : list TaggedDocument)
    (seen : gset str) :
  dedup_state (documents, seen) →
  ∃ kept, (foldl (parse_line true) (documents, seen) lines).1 = documents ++ kept
    ∧ kept `sublist_of` omap line_document lines
    ∧ (∀ d, d ∈ omap line_document lines →
         identifier d ∈ identifier <$> (documents ++ kept))
    ∧ (∀ d, d ∈ kept →
         (identifier d ∉ identifier <$> documents)
         ∧ ∃ i, omap line_document lines !! i = Some d
             ∧ ∀ j d', (j < i)%nat → omap line_document lines !! j = Some d' →
                       identifier d' ≠ identifier d).
Proof.
  revert documents seen. induction lines as [|l lines IH]; intros documents seen Hst.
  - exists []. cbn. rewrite app_nil_r. split_and!; [done|done| |].
    + intros d Hd. by apply not_elem_of_nil in Hd.
    + intros d Hd. by apply not_elem_of_nil in Hd.
  - cbn [foldl]. pose proof (parse_line_dedup_state _ l Hst) as Hst'.
    change (omap line_document (l :: lines))
      with (match line_document l with
            | Some d => d :: omap line_document lines
            | None => omap line_document lines
            end).
    rewrite parse_line_document in Hst' |- *.
    destruct (line_document l) as [d0|]; [|by apply IH].
    cbn [andb] in Hst' |- *.
    destruct (bool_decide_reflect (identifier d0 ∈ seen)) as [Hin|Hin].
    + destruct (IH documents seen Hst) as (kept & Hk & Hsub & Hall & Hfirst).
      exists kept. split_and!; [done|by apply sublist_cons| |].
      * intros d [->|Hd]%elem_of_cons; [|by apply Hall].
        rewrite fmap_app, elem_of_app. left. by apply Hst.
      * intros d Hd. destruct (Hfirst d Hd) as (Hnew & i & Hi & Hbefore).
        split; [done|]. exists (S i). split; [done|].
        intros [|j] d' Hj Hd'; cbn in Hd'.
        -- injection Hd' as <-. intros Heq. apply Hnew. rewrite <- Heq. by apply Hst.
        -- apply (Hbefore j); [lia|done].
    + destruct (IH _ _ Hst') as (kept & Hk & Hsub & Hall & Hfirst).
      exists (d0 :: kept). rewrite Hk, <- app_assoc. cbn [app].
      split_and!; [done|by apply sublist_skip| |].
      * intros d [->|Hd]%elem_of_cons.
        -- rewrite fmap_app, elem_of_app. right. rewrite fmap_cons. left.
        -- specialize (Hall d Hd). by rewrite <- app_assoc in Hall.
      * intros d [->|Hd]%elem_of_cons.
        -- split; [intros Hd0; by apply Hin, Hst|].
           exists 0%nat. split; [done|]. intros j d' Hj. lia.
        -- destruct (Hfirst d Hd) as (Hnew & i & Hi & Hbefore).
           rewrite fmap_app, not_elem_of_app in Hnew. destruct Hnew as [Hnew Hne].
           split; [done|]. exists (S i). split; [done|].
           intros [|j] d' Hj Hd'; cbn in Hd'.
           ++ injection Hd' as <-. intros Heq. apply Hne. rewrite <- Heq.
              rewrite fmap_cons. left.
           ++ apply (Hbefore j); [lia|done].
Qed.

(** X2: with [drop_duplicates] the identifiers of the result are pairwise
    distinct; the result is a sublist of the result without
    [drop_duplicates], names the same identifiers, and keeps of each
    identifier the first document that carries it. *)
Theorem parse_drop_duplicates (lines : list str) :
  NoDup (identifier <$> parse_contents_lines lines true)
  ∧ parse_contents_lines lines true `sublist_of` parse_contents_lines lines false
  ∧ (∀ id, id ∈ identifier <$> parse_contents_lines lines false
           ↔ id ∈ identifier <$> parse_contents_lines lines true)
  ∧ (∀ d, d ∈ parse_contents_lines lines true →
       ∃ i, parse_contents_lines lines false !! i = Some d
         ∧ ∀ j d', (j < i)%nat → parse_contents_lines lines false !! j = Some d' →
                   identifier d' ≠ identifier d).
Proof.
  rewrite parse_keep. unfold parse_contents_lines.
  assert (dedup_state ([], ∅)) as Hst0.
  { split; [apply NoDup_nil_2|]. intros id. cbn. set_solver. }
  destruct (parse_dedup_from lines [] ∅ Hst0) as (kept & Hk & Hsub & Hall & Hfirst).
  cbn [app] in Hk, Hall. rewrite Hk. split_and!.
  - pose proof (parse_dedup_state lines _ Hst0) as [Hnd _]. by rewrite Hk in Hnd.
  - done.
  - intros id. split.
    + intros (d & -> & Hd)%list_elem_of_fmap. by apply Hall.
    + intros (d & -> & Hd)%list_elem_of_fmap. apply list_elem_of_fmap.
      exists d. split; [done|]. by eapply elem_of_sublist.
  - intros d Hd. by destruct (Hfirst d Hd) as (_ & i & Hi & Hbefore); eauto.
Qed.

End ParserFacts.

(** ** Stripping, splitting and searching *)

Module StrFacts.

Lemma lstrip_by_elem_of (p : N → bool) (s : str) (c : N) :
  c ∈ lstrip_by p s → c ∈ s.
Proof.
  induction s as [|x s IH]; cbn [lstrip_by]; [done|].
  destruct (p x); [|done]. intros Hc. right. by apply IH.
Qed.

Lemma rstrip_by_elem_of (p : N → bool) (s : str) (c : N) :
  c ∈ rstrip_by p s → c ∈ s.
Proof.
  unfold rstrip_by. rewrite elem_of_reverse. intros Hc%lstrip_by_elem_of.
  by apply elem_of_reverse.
Qed.

Lemma strip_elem_of (s : str) (c : N) : c ∈ strip s → c ∈ s.
Proof. unfold strip. by intros Hc%rstrip_by_elem_of%lstrip_by_elem_of. Qed.

Lemma strip_chars_elem_of (chars s : str) (c : N) : c ∈ strip_chars chars s → c ∈ s.
Proof. unfold strip_chars. by intros Hc%rstrip_by_elem_of%lstrip_by_elem_of. Qed.

Lemma lstrip_by_nil (p : N → bool) (s : str) :
  lstrip_by p s = [] ↔ Forall (λ c, p c = true) s.
Proof.
  induction s as [|x s IH]; cbn [lstrip_by]; [by split|].
  destruct (p x) eqn:Hx.
  - rewrite IH, Forall_cons. tauto.
  - split; [done|]. intros [Hx' _]%Forall_cons. congruence.
Qed.

(** What is left of a left strip does not start with a stripped character. *)
Lemma lstrip_by_head (p : N → bool) (s : str) (x : N) (r : str) :
  lstrip_by p s = x :: r → p x = false.
Proof.
  induction s as [|y s IH]; cbn [lstrip_by]; [done|].
  destruct (p y) eqn:Hy; [done|]. by intros [= <- _].
Qed.

Lemma rstrip_by_nil (p : N → bool) (s : str) :
  rstrip_by p s = [] ↔ Forall (λ c, p c = true) s.
Proof.
  unfold rstrip_by. rewrite <- (Forall_reverse _ s), <- lstrip_by_nil.
  split; [|by intros ->].
  intros Hr. apply (f_equal reverse) in Hr. by rewrite reverse_involutive in Hr.
Qed.

(** Stripping on both sides leaves nothing exactly when every character
    is one that is stripped. *)
Lemma strip_by_nil (p : N → bool) (s : str) :
  rstrip_by p (lstrip_by p s) = [] ↔ Forall (λ c, p c = true) s.
Proof.
  rewrite rstrip_by_nil. split.
  - intros Hall. apply lstrip_by_nil.
    destruct (lstrip_by p s) as [|x r] eqn:Hl; [done|].
    apply lstrip_by_head in Hl. apply Forall_cons in Hall as [Hx _]. congruence.
  - intros Hall%lstrip_by_nil. rewrite Hall. constructor.
Qed.

Lemma index_of_None (c : N) (s : str) : index_of c s = None ↔ c ∉ s.
Proof.
  induction s as [|x s IH]; cbn [index_of]; [by split; [intros _; apply not_elem_of_nil|]|].
  rewrite not_elem_of_cons. destruct (N.eqb_spec x c) as [->|Hne].
  - split; [done|]. by intros [? _].
  - destruct (index_of c s); cbn.
    + split; [done|]. intros [_ Hs]. by apply IH in Hs.
    + split; [|done]. intros _. split; [congruence|]. by apply IH.
Qed.

(** [index_of] finds the first occurrence: the string splits around it. *)
Lemma index_of_Some (c : N) (s : str) (k : nat) :
  index_of c s = Some k
  ↔ ∃ pre post, s = pre ++ c :: post ∧ (c ∉ pre) ∧ length pre = k.
Proof.
  revert k. induction s as [|x s IH]; intros k; cbn [index_of].
  - split; [done|]. intros (pre & post & Hs & _). by destruct pre.
  - destruct (N.eqb_spec x c) as [->|Hne].
    + split.
      * intros [= <-]. exists [], s. split_and!; [done|apply not_elem_of_nil|done].
      * intros (pre & post & Hs & Hpre & <-). destruct pre as [|y pre]; [done|].
        injection Hs as <- _. exfalso. apply Hpre. left.
    + split.
      * destruct (index_of c s) as [k'|] eqn:Hk; [|done]. cbn. intros [= <-].
        destruct (proj1 (IH k') eq_refl) as (pre & post & -> & Hpre & <-).
        exists (x :: pre), post. split_and!; [done| |done].
        rewrite not_elem_of_cons. split; [congruence|done].
      * intros (pre & post & Hs & Hpre & <-). destruct pre as [|y pre].
        { injection Hs as -> _. done. }
        injection Hs as <- ->. apply not_elem_of_cons in Hpre as [_ Hpre].
        assert (index_of c (pre ++ c :: post) = Some (length pre)) as ->; [|done].
        apply IH. by exists pre, post.
Qed.

Lemma find_absent (s : str) (c : N) (start : Z) :
  0 ≤ start → c ∉ s → find s c start = -1.
Proof.
  intros Hs Hc. unfold find. destruct (Z.ltb_spec start 0) as [|_]; [lia|].
  destruct (Z.of_nat (length s) <? start); [done|].
  assert (index_of c (drop (Z.to_nat start) s) = None) as ->; [|done].
  apply index_of_None. intros Hin. apply Hc.
  rewrite <- (take_drop (Z.to_nat start) s), elem_of_app. by right.
Qed.


Lemma split_ws_from_words (cur s : str) :
  Forall (λ c, isspace c = false) cur → Forall word (split_ws_from cur s).
Proof.
  revert cur. induction s as [|x s IH]; intros cur Hcur; cbn [split_ws_from].
  - destruct cur as [|c cur]; [constructor|]. repeat constructor.
    + intros Hr%(f_equal length). rewrite length_reverse in Hr. done.
    + by apply Forall_reverse.
  - destruct (isspace x) eqn:Hx.
    + destruct cur as [|c cur]; [by apply IH|]. constructor; [|by apply IH].
      split; [|by apply Forall_reverse].
      intros Hr%(f_equal length). rewrite length_reverse in Hr. done.
    + apply IH. by constructor.
Qed.

Lemma split_ws_from_elem_of (cur s w : str) (c : N) :
  w ∈ split_ws_from cur s → c ∈ w → c ∈ cur ∨ c ∈ s.
Proof.
  revert cur. induction s as [|x s IH]; intros cur; cbn [split_ws_from].
  - destruct cur as [|y cur]; cbv iota; [by intros ?%not_elem_of_nil|].
    intros ->%list_elem_of_singleton Hc. left. by apply elem_of_reverse.
  - destruct (isspace x).
    + destruct cur as [|y cur]; cbv iota.
      * intros Hw Hc. destruct (IH _ Hw Hc) as [?%not_elem_of_nil|?]; [done|].
        right. by right.
      * intros [->|Hw]%elem_of_cons Hc.
        -- left. by apply elem_of_reverse.
        -- destruct (IH _ Hw Hc) as [?%not_elem_of_nil|?]; [done|]. right. by right.
    + intros Hw Hc. destruct (IH _ Hw Hc) as [[->|?]%elem_of_cons|?].
      * right. left.
      * by left.
      * right. by right.
Qed.

Lemma split_ws_from_nonspace (cur w rest : str) :
  Forall (λ c, isspace c = false) w →
  split_ws_from cur (w ++ rest) = split_ws_from (reverse w ++ cur) rest.
Proof.
  revert cur. induction w as [|x w IH]; intros cur Hw; [done|].
  apply Forall_cons in Hw as [Hx Hw]. cbn [app split_ws_from]. rewrite Hx, IH by done.
  by rewrite reverse_cons, <- app_assoc.
Qed.

Lemma reverse_word (w : str) : w ≠ [] → ∃ x r, reverse w = x :: r.
Proof.
  intros Hne. destruct (reverse w) as [|x r] eqn:Hr; [|by eauto].
  apply (f_equal length) in Hr. rewrite length_reverse in Hr. by destruct w.
Qed.

(** Splitting at white space undoes joining words with single spaces. *)
Lemma split_ws_join (ws : list str) :
  Forall word ws → split_ws (join [32%N] ws) = ws.
Proof.
  unfold split_ws. induction ws as [|w ws IH]; intros Hws; [done|].
  apply Forall_cons in Hws as [[Hne Hw] Hws]. cbn [join].
  destruct (reverse_word w Hne) as (x & r & Hr). destruct ws as [|w' ws].
  - pose proof (split_ws_from_nonspace [] w [] Hw) as E.
    rewrite !app_nil_r in E. rewrite E, Hr. cbn [split_ws_from].
    by rewrite <- Hr, reverse_involutive.
  - rewrite split_ws_from_nonspace, app_nil_r, Hr by done.
    cbn [app split_ws_from]. change (isspace 32) with true. cbv iota.
    rewrite (IH Hws). by rewrite <- Hr, reverse_involutive.
Qed.

Lemma join_elem_of (sep : str) (parts : list str) (c : N) :
  c ∈ join sep parts → c ∈ sep ∨ ∃ p, p ∈ parts ∧ c ∈ p.
Proof.
  induction parts as [|p parts IH]; cbn [join]; [by intros ?%not_elem_of_nil|].
  destruct parts as [|q parts].
  - intros Hc. right. exists p. split; [left|done].
  - rewrite !elem_of_app. intros [Hc|[Hc|Hc]].
    + right. exists p. split; [left|done].
    + by left.
    + destruct (IH Hc) as [?|(r & Hr & Hcr)]; [by left|].
      right. exists r. split; [by right|done].
Qed.

Lemma join_nil (sep : str) (parts : list str) :
  parts ≠ [] → Forall (λ p, p ≠ []) parts → join sep parts ≠ [].
Proof.
  destruct parts as [|p parts]; [done|]. intros _ [Hp _]%Forall_cons. cbn [join].
  destruct parts; [done|]. by destruct p.
Qed.

(** The pieces of [s.split(c)] do not contain [c], and consist of
    characters of [s]. *)
Lemma split_on_pieces (c : N) (s piece : str) :
  piece ∈ split_on c s → (c ∉ piece) ∧ ∀ x, x ∈ piece → x ∈ s.
Proof.
  revert piece. induction s as [|x s IH]; intros piece; cbn [split_on].
  - intros ->%list_elem_of_singleton. split; [apply not_elem_of_nil|done].
  - destruct (N.eqb_spec x c) as [->|Hne].
    + intros [->|Hp]%elem_of_cons.
      * split; [apply not_elem_of_nil|]. by intros ? ?%not_elem_of_nil.
      * destruct (IH _ Hp) as [? Hsub]. split; [done|]. intros y Hy. right. eauto.
    + destruct (split_on c s) as [|h t] eqn:Hsplit.
      * intros ->%list_elem_of_singleton. split.
        -- rewrite list_elem_of_singleton. congruence.
        -- intros y ->%list_elem_of_singleton. left.
      * intros [->|Hp]%elem_of_cons.
        -- destruct (IH h) as [Hh Hsub]; [left|]. split.
           ++ rewrite not_elem_of_cons. split; [congruence|done].
           ++ intros y [->|Hy]%elem_of_cons; [left|right; eauto].
        -- destruct (IH piece) as [? Hsub]; [by right|]. split; [done|].
           intros y Hy. right. eauto.
Qed.

End StrFacts.

(** ** What a parsed document looks like *)

Module DocumentFacts.
Import StrFacts ParserFacts.

Lemma index_of_lt (c : N) (s : str) (k : nat) :
  index_of c s = Some k → (k < length s)%nat.
Proof.
  intros (pre & post & -> & _ & <-)%index_of_Some. rewrite length_app. cbn. lia.
Qed.

(** The two searches of [_extract_bracket_content], on positions. *)
Lemma _extract_bracket_content_eq (line : str) :
  _extract_bracket_content line
  = match index_of 91 line with
    | None => None
    | Some k =>
        match index_of 93 (drop (S k) line) with
        | None => None
        | Some m => Some (take m (drop (S k) line))
        end
    end.
Proof.
  unfold _extract_bracket_content, find. change (0 <? 0) with false. cbv iota.
  destruct (Z.ltb_spec (Z.of_nat (length line)) 0) as [|_]; [lia|].
  change (Z.to_nat 0) with 0%nat. rewrite drop_0.
  destruct (index_of 91 line) as [k|] eqn:Hk; [|done].
  apply index_of_lt in Hk.
  destruct (Z.ltb_spec (0 + Z.of_nat k + 1) 0) as [|_]; [lia|].
  destruct (Z.ltb_spec (Z.of_nat (length line)) (0 + Z.of_nat k + 1)) as [|_]; [lia|].
  replace (Z.to_nat (0 + Z.of_nat k + 1)) with (S k) by lia.
  destruct (index_of 93 (drop (S k) line)) as [m|] eqn:Hm.
  - apply index_of_lt in Hm. rewrite length_drop in Hm.
    destruct (Z.eqb_spec (0 + Z.of_nat k) (-1)) as [|_]; [lia|].
    destruct (Z.eqb_spec (0 + Z.of_nat k + 1 + Z.of_nat m) (-1)) as [|_]; [lia|].
    cbn [orb]. f_equal. unfold slice, clip.
    destruct (Z.ltb_spec (0 + Z.of_nat k + 1) 0) as [|_]; [lia|].
    destruct (Z.ltb_spec (0 + Z.of_nat k + 1 + Z.of_nat m) 0) as [|_]; [lia|].
    f_equal; [|f_equal]; lia.
  - destruct (0 + Z.of_nat k =? -1); done.
Qed.

Lemma _extract_bracket_content_Some (line content : str) :
  _extract_bracket_content line = Some content →
  ∃ pre post, line = pre ++ [91%N] ++ content ++ [93%N] ++ post
              ∧ (91%N ∉ pre) ∧ (93%N ∉ content).
Proof.
  rewrite _extract_bracket_content_eq.
  destruct (index_of 91 line) as [k|] eqn:Hk; [|done].
  apply index_of_Some in Hk as (pre & rest & -> & Hpre & <-).
  replace (S (length pre)) with (length pre + 1)%nat by lia.
  rewrite <- drop_drop, drop_app_length. cbn [drop]. rewrite drop_0.
  destruct (index_of 93 rest) as [m|] eqn:Hm; [|done].
  apply index_of_Some in Hm as (c & post & -> & Hc & <-).
  rewrite take_app_length. intros [= <-]. by exists pre, post.
Qed.

Lemma _extract_bracket_content_None (line : str) :
  (91%N ∉ line) ∨ (93%N ∉ line) → _extract_bracket_content line = None.
Proof.
  rewrite _extract_bracket_content_eq. intros Hno.
  destruct (index_of 91 line) as [k|] eqn:Hk; [|done].
  destruct Hno as [Hno|Hno].
  { apply index_of_None in Hno. congruence. }
  assert (index_of 93 (drop (S k) line) = None) as ->; [|done].
  apply index_of_None. intros Hin. apply Hno.
  rewrite <- (take_drop (S k) line), elem_of_app. by right.
Qed.

Lemma _extract_bracket_content_split (pre content post : str) :
  (91%N ∉ pre) → (93%N ∉ content) →
  _extract_bracket_content (pre ++ [91%N] ++ content ++ [93%N] ++ post) = Some content.
Proof.
  intros Hpre Hc. rewrite _extract_bracket_content_eq.
  assert (index_of 91 (pre ++ [91%N] ++ content ++ [93%N] ++ post)
          = Some (length pre)) as ->.
  { apply index_of_Some. by eexists pre, _. }
  replace (S (length pre)) with (length pre + 1)%nat by lia.
  rewrite <- drop_drop, drop_app_length. cbn [app drop]. rewrite drop_0.
  assert (index_of 93 (content ++ 93%N :: post) = Some (length content)) as ->.
  { apply index_of_Some. by eexists content, _. }
  by rewrite take_app_length.
Qed.

(** X3: [_extract_bracket_content] returns the text between the first
    opening bracket and the first closing bracket after it, and returns
    [None] exactly when the line has no such pair. *)
Theorem _extract_bracket_content_spec (line content : str) :
  _extract_bracket_content line = Some content
  ↔ ∃ pre post, line = pre ++ [91%N] ++ content ++ [93%N] ++ post
                ∧ (91%N ∉ pre) ∧ (93%N ∉ content).
Proof.
  split; [apply _extract_bracket_content_Some|].
  intros (pre & post & -> & Hpre & Hc). by apply _extract_bracket_content_split.
Qed.

Lemma _normalise_tag_Some (token tag : str) :
  _normalise_tag token = Some tag →
  split_ws tag = split_ws (strip_chars quote_chars (strip token))
  ∧ join [32%N] (split_ws tag) = tag
  ∧ ∀ c, c ∈ tag → c = 32%N ∨ c ∈ token.
Proof.
  unfold _normalise_tag, strip_chars.
  set (p := λ c, bool_decide (c ∈ quote_chars)).
  set (cleaned := rstrip_by p (lstrip_by p (strip token))).
  destruct (truthy cleaned); [|done]. intros [= <-].
  pose proof (split_ws_from_words [] cleaned (Forall_nil_2 _)) as Hwords.
  fold (split_ws cleaned) in Hwords. split_and!.
  - by apply split_ws_join.
  - by rewrite split_ws_join.
  - intros c [->%list_elem_of_singleton|(w & Hw & Hc)]%join_elem_of; [by left|].
    right. destruct (split_ws_from_elem_of _ _ _ _ Hw Hc) as [?%not_elem_of_nil|Hin];
      [done|].
    by apply rstrip_by_elem_of, lstrip_by_elem_of, strip_elem_of in Hin.
Qed.

(** X4: [_normalise_tag] returns [None] exactly when the token, stripped of
    white space, consists of quote characters only; any text it returns
    has the words of the cleaned token, separated by single spaces, and
    only characters of the token besides those spaces. *)
Theorem _normalise_tag_spec (token : str) :
  (_normalise_tag token = None ↔ Forall (λ c, c ∈ quote_chars) (strip token))
  ∧ (∀ tag, _normalise_tag token = Some tag →
       split_ws tag = split_ws (strip_chars quote_chars (strip token))
       ∧ join [32%N] (split_ws tag) = tag
       ∧ ∀ c, c ∈ tag → c = 32%N ∨ c ∈ token).
Proof.
  split; [|apply _normalise_tag_Some].
  unfold _normalise_tag, strip_chars.
  set (p := λ c, bool_decide (c ∈ quote_chars)).
  set (cleaned := rstrip_by p (lstrip_by p (strip token))).
  assert (cleaned = [] ↔ Forall (λ c, c ∈ quote_chars) (strip token)) as <-.
  { unfold cleaned. rewrite strip_by_nil.
    apply Forall_iff. intros c. unfold p. by rewrite bool_decide_eq_true. }
  by destruct cleaned.
Qed.


Lemma collect_tags_from (tokens : list str) (acc : list str) :
  foldl (λ tags token,
           match _normalise_tag token with
           | Some normalised => if truthy normalised then tags ++ [normalised] else tags
           | None => tags
           end) acc tokens
  = acc ++ omap keep_tag tokens.
Proof.
  revert acc. induction tokens as [|token tokens IH]; intros acc; cbn [foldl].
  - cbn. by rewrite app_nil_r.
  - rewrite IH.
    change (omap keep_tag (token :: tokens))
      with (match keep_tag token with
            | Some t => t :: omap keep_tag tokens
            | None => omap keep_tag tokens
            end).
    unfold keep_tag. destruct (_normalise_tag token) as [t|]; [|done].
    destruct (truthy t); [|done]. by rewrite <- app_assoc.
Qed.

Lemma collect_tags_omap (bracket_content : str) :
  collect_tags bracket_content = omap keep_tag (split_on 44 bracket_content).
Proof. unfold collect_tags. by rewrite collect_tags_from. Qed.


Lemma collect_tags_normal (bracket_content tag : str) :
  (93%N ∉ bracket_content) → tag ∈ collect_tags bracket_content → normal_tag tag.
Proof.
  rewrite collect_tags_omap, list_elem_of_omap. intros Hbc (token & Htoken & Hkeep).
  unfold keep_tag in Hkeep. destruct (_normalise_tag token) as [t|] eqn:Ht; [|done].
  destruct (truthy t) eqn:Htruthy; [|done]. injection Hkeep as ->.
  apply _normalise_tag_Some in Ht as (_ & Hjoin & Hchars).
  apply split_on_pieces in Htoken as [Hcomma Hsub].
  split_and!; [by destruct tag| | |done].
  - intros [?|?]%Hchars; done.
  - intros [?|?%Hsub]%Hchars; done.
Qed.


Lemma line_document_parsed_from (lines : list str) (raw_line : str)
    (d : TaggedDocument) :
  raw_line ∈ lines → line_document raw_line = Some d → parsed_from lines d.
Proof.
  intros Hraw. unfold line_document.
  destruct (negb (truthy (strip raw_line))); [done|].
  destruct (_extract_bracket_content (strip raw_line)) as [bc|] eqn:Hbc; [|done].
  destruct (collect_tags bc) as [|t ts] eqn:Htags; [done|]. cbn [truthy negb].
  intros [= <-]. cbn [identifier tags source].
  apply _extract_bracket_content_Some in Hbc as (pre & post & Hline & Hpre & Hc).
  assert (Forall normal_tag (t :: ts)) as Hnormal.
  { apply Forall_forall. intros tag Htag. apply (collect_tags_normal bc); [done|].
    by rewrite Htags. }
  assert (join [95%N] (t :: ts) ≠ []) as Hbase.
  { apply join_nil; [done|]. eapply Forall_impl; [exact Hnormal|]. by intros ? [? _]. }
  exists raw_line, pre, bc, post. split_and!; try done.
  - unfold _build_identifier. cbn [truthy].
    repeat match goal with
           | |- context [if ?b then _ else _] => destruct b
           end; try done.
    all: by destruct (join [95%N] (t :: ts)).
  - unfold _build_identifier. cbn [truthy].
    destruct (find (strip raw_line) 93 0 =? -1); [by left|].
    destruct (startswith _ 46); [|by left].
    destruct (slice_from _ 1) as [|x sfx] eqn:Hsfx; [by left|].
    right. by exists (x :: sfx).
Qed.

Lemma parse_elem_of (lines : list str) (drop_duplicates : bool) (d : TaggedDocument) :
  d ∈ parse_contents_lines lines drop_duplicates →
  ∃ raw_line, raw_line ∈ lines ∧ line_document raw_line = Some d.
Proof.
  intros Hd. apply list_elem_of_omap. destruct drop_duplicates.
  - assert (dedup_state ([], ∅)) as Hst0.
    { split; [apply NoDup_nil_2|]. intros id. cbn. set_solver. }
    destruct (parse_dedup_from lines [] ∅ Hst0) as (kept & Hk & Hsub & _).
    unfold parse_contents_lines in Hd. rewrite Hk in Hd.
    by eapply elem_of_sublist.
  - by rewrite parse_keep in Hd.
Qed.

(** X5: every document the parser returns, with or without
    [drop_duplicates], comes from a line with a bracket pair, has that
    stripped line as its source, at least one tag, only tags that are not
    empty, hold no comma and no closing bracket and have their words
    separated by single spaces, and a non-empty identifier made of the
    tags joined by underscores and, possibly, a dot and a non-empty
    suffix. *)
Theorem parsed_documents_are_well_formed (lines : list str) (drop_duplicates : bool) :
  Forall (parsed_from lines) (parse_contents_lines lines drop_duplicates).
Proof.
  apply Forall_forall. intros d (raw_line & Hraw & Hd)%parse_elem_of.
  by eapply line_document_parsed_from.
Qed.

Lemma line_document_None (raw_line : str) :
  strip raw_line = [] ∨ (91%N ∉ raw_line) ∨ (93%N ∉ raw_line) →
  line_document raw_line = None.
Proof.
  unfold line_document. intros [Hblank|Hno].
  - by rewrite Hblank.
  - destruct (negb (truthy (strip raw_line))); [done|].
    rewrite _extract_bracket_content_None; [done|].
    destruct Hno as [Hno|Hno]; [left|right]; intros Hin%strip_elem_of; done.
Qed.

(** X6: a line that is blank, or has no opening bracket, or has no closing
    bracket contributes nothing: removing it from the input, wherever it
    stands, leaves the parser's result unchanged. *)
Theorem unparseable_line_is_skipped (before after : list str) (raw_line : str)
    (drop_duplicates : bool) :
  strip raw_line = [] ∨ (91%N ∉ raw_line) ∨ (93%N ∉ raw_line) →
  parse_contents_lines (before ++ raw_line :: after) drop_duplicates
  = parse_contents_lines (before ++ after) drop_duplicates.
Proof.
  intros Hline%line_document_None. unfold parse_contents_lines.
  rewrite !foldl_app. cbn [foldl].
  destruct (foldl (parse_line drop_duplicates) ([], ∅) before) as [documents seen].
  by rewrite parse_line_document, Hline.
Qed.

(** X6 at a line that names the contents file, between two tagged lines. *)
Lemma unparseable_line_is_skipped_witness :
  (strip (lit "contents.txt") = []
   ∨ (91%N ∉ lit "contents.txt") ∨ (93%N ∉ lit "contents.txt"))
  ∧ parse_contents_lines
      ([lit "['a', 'b'].txt"] ++ lit "contents.txt" :: [lit "['b'].txt"]) true
    = parse_contents_lines ([lit "['a', 'b'].txt"] ++ [lit "['b'].txt"]) true.
Proof.
  assert (91%N ∉ lit "contents.txt") as Hno.
  { intros Hin%list_elem_of_In. vm_compute in Hin. intuition discriminate. }
  split; [by right; left|].
  apply (unparseable_line_is_skipped _ _ (lit "contents.txt") true).
  by right; left.
Defined.

End DocumentFacts.

(** ** The model across calls, and what the vectors depend on *)

Module ModelFacts.
Import EmbeddingFacts.

Section Facts.
Context {F : Type} `{PyFloat F}.


Lemma state_after_step (acc : option (list TaggedDocument)) (c : call) :
  state_after (state_of acc) c = state_of (last_fit_step acc c).
Proof.
  destruct c as [D|D|D]; cbn [state_after last_fit_step]; [|done|].
  all: destruct D as [|d D]; [by destruct acc|].
  all: by rewrite fit_Ok.
Qed.

Lemma state_after_calls (calls : list call) (acc : option (list TaggedDocument)) :
  foldl state_after (state_of acc) calls = state_of (foldl last_fit_step acc calls).
Proof.
  revert acc. induction calls as [|c calls IH]; intros acc; cbn [foldl]; [done|].
  by rewrite state_after_step, IH.
Qed.

Lemma last_fit_step_nonempty (calls : list call) (acc : option (list TaggedDocument)) D :
  (∀ D0, acc = Some D0 → D0 ≠ []) →
  foldl last_fit_step acc calls = Some D → D ≠ [].
Proof.
  revert acc. induction calls as [|c calls IH]; intros acc Hacc; cbn [foldl]; [by auto|].
  apply IH. intros D0. destruct c as [D1|D1|D1]; cbn [last_fit_step]; [|by auto|].
  all: destruct D1; cbn [truthy]; [by auto|]; by intros [= <-].
Qed.

(** X7: after any sequence of calls on a fresh instance, the state is that
    of a fresh instance when no call has fitted it, and [transform] then
    raises [RuntimeError]; otherwise it is the state that [fit] produces
    from the documents of the last fitting call alone, and [transform]
    then returns, for any documents, one vector per document, each as
    long as the vocabulary, which is as long as the list of weights: it
    raises nothing. *)
Theorem transform_after_any_calls (calls : list call) (docs : list TaggedDocument) :
  let self := foldl state_after new_model calls in
  match last_fit calls with
  | None => self = new_model ∧ transform self docs = Raise RuntimeError
  | Some D =>
      D ≠ [] ∧ fit new_model D = Ok self
      ∧ length (idf_ self) = size (vocabulary_ self)
      ∧ ∃ vectors, transform self docs = Ok vectors
          ∧ length vectors = length docs
          ∧ Forall (λ v, length v = size (vocabulary_ self)) vectors
  end.
Proof.
  intros self. unfold last_fit.
  assert (self = state_of (foldl last_fit_step None calls)) as ->
    by apply (state_after_calls calls None).
  destruct (foldl last_fit_step None calls) as [D|] eqn:Hlast; cbn [state_of]; [|done].
  assert (D ≠ []) as HD by (by eapply last_fit_step_nonempty; [|exact Hlast]).
  pose proof (sorted_keys_NoDup (document_frequency D)) as Hnd.
  split; [done|]. rewrite fit_Ok by done. split; [done|].
  unfold fitted_on. cbn [idf_ vocabulary_].
  rewrite index_tags_size, length_fmap by done. split; [done|].
  rewrite transform_fitted. eexists. split; [done|].
  rewrite length_fmap. split; [done|].
  apply Forall_fmap, Forall_forall. intros d _. cbn. by rewrite length_fmap.
Qed.

Lemma df_same_tags (D1 D2 : list TaggedDocument) (t : str) :
  Forall2 (λ a b, ∀ t, t ∈ tags a ↔ t ∈ tags b) D1 D2 → df D1 t = df D2 t.
Proof.
  unfold df. induction 1 as [|a b D1 D2 Hab _ IH]; [done|].
  rewrite !filter_cons. specialize (Hab t).
  destruct (decide (t ∈ tags a)), (decide (t ∈ tags b)); cbn [length]; tauto || lia.
Qed.

Lemma entry_same_tags (D : list TaggedDocument) (a b : TaggedDocument) (t : str) :
  tags a ≡ₚ tags b → entry (F := F) D a t = entry D b t.
Proof.
  intros HP. unfold entry, weight, total_count, occurrences.
  assert (length (filter (λ t0, t0 = t) (tags a))
          = length (filter (λ t0, t0 = t) (tags b))) as -> by (by rewrite HP).
  pose proof (Permutation_length HP) as Hlen.
  assert (t ∈ tags a ↔ t ∈ tags b) as Hin by (by rewrite HP).
  destruct (tags a) as [|x ta], (tags b) as [|y tb]; try done.
  rewrite Hlen. repeat case_decide; tauto || done.
Qed.

(** X8: the model looks at tags only.  [fit] gives the same state for two
    lists of documents that carry, position by position, the same sets of
    tags, whatever their identifiers, sources, tag order and repetitions;
    and a fitted model gives the same vectors for documents whose tags
    are permutations of each other. *)
Theorem embeddings_depend_on_tags_only (self1 self2 : TagEmbeddingModel F)
    (D1 D2 docs1 docs2 : list TaggedDocument) :
  Forall2 (λ a b, ∀ t, t ∈ tags a ↔ t ∈ tags b) D1 D2 →
  Forall2 (λ a b, tags a ≡ₚ tags b) docs1 docs2 →
  fit self1 D1 = fit self2 D2
  ∧ ∀ m, fit self1 D1 = Ok m → transform m docs1 = transform m docs2.
Proof.
  intros HD Hdocs. destruct HD as [|a b D1 D2 Hab HD]; [done|].
  assert (Forall2 (λ a b, ∀ t, t ∈ tags a ↔ t ∈ tags b) (a :: D1) (b :: D2)) as HD'
    by (by constructor).
  assert (document_frequency (a :: D1) = document_frequency (b :: D2)) as Hdf.
  { apply map_eq. intros t.
    by rewrite !document_frequency_lookup, (df_same_tags _ _ t HD'). }
  rewrite !fit_Ok by done. rewrite Hdf.
  assert (IDF (F := F) (a :: D1) <$> sorted_keys (document_frequency (b :: D2))
          = IDF (b :: D2) <$> sorted_keys (document_frequency (b :: D2))) as HIDF.
  { apply list_fmap_ext. intros i t _. unfold IDF.
    by rewrite (df_same_tags _ _ t HD'), (Forall2_length _ _ _ HD'). }
  rewrite HIDF. split; [done|]. intros m [= <-].
  rewrite !transform_fitted. f_equal.
  induction Hdocs as [|x y docs1 docs2 Hxy _ IH]; [done|].
  rewrite !fmap_cons, IH. f_equal.
  apply list_fmap_ext. intros i t _. by apply entry_same_tags.
Qed.

End Facts.

(** X8 on binary64: the sample corpus, and the same corpus renamed, with
    the tags of each document reversed. *)
Lemma embeddings_depend_on_tags_only_witness :
  let renamed :=
    (λ d, {| identifier := lit "renamed"; tags := reverse (tags d); source := None |})
      <$> corpus in
  fit (F := float) new_model corpus = fit new_model renamed
  ∧ ∀ m, fit (F := float) new_model corpus = Ok m →
         transform m corpus = transform m renamed.
Proof.
  intros renamed.
  apply (embeddings_depend_on_tags_only (F := float) new_model new_model
           corpus renamed corpus renamed).
  - apply Forall2_fmap_r, Forall_Forall2_diag, Forall_forall.
    intros d _ t. cbn [tags]. by rewrite elem_of_reverse.
  - apply Forall2_fmap_r, Forall_Forall2_diag, Forall_forall.
    intros d _. unfold compose. cbn [tags]. symmetry. apply reverse_Permutation.
Defined.

End ModelFacts.

(** ** The weights in exact arithmetic *)

Module ExactModelFacts.
Import EmbeddingFacts ExactFacts.

Lemma ln_le (x y : R) : (0 < x)%R → (x <= y)%R → (ln x <= ln y)%R.
Proof.
  intros Hx [Hlt| ->]; [|lra]. left. by apply ln_increasing.
Qed.

Lemma df_le (D : list TaggedDocument) (t : str) : (df D t ≤ length D)%nat.
Proof. unfold df. apply length_filter. Qed.

Lemma occurrences_le (t : str) (l : list str) : (occurrences t l ≤ length l)%nat.
Proof. unfold occurrences. apply length_filter. Qed.

(** IDF lies between 1 and 1 + ln(1 + N). *)
Lemma IDF_bounds (D : list TaggedDocument) (t : str) :
  (1 <= IDF (F := R) D t <= 1 + ln (IZR (1 + Z.of_nat (length D))))%R.
Proof.
  unfold IDF. cbn [f_add f_log f_truediv f_one f_of_int exact].
  pose proof (df_le D t) as Hdf.
  set (n := (1 + Z.of_nat (length D))%Z). set (k := (1 + Z.of_nat (df D t))%Z).
  assert (1 <= IZR k)%R as Hk by (apply IZR_le; lia).
  assert (IZR k <= IZR n)%R as Hkn by (apply IZR_le; lia).
  assert (0 < / IZR k)%R as Hik by (apply Rinv_0_lt_compat; lra).
  assert (IZR k * / IZR k = 1)%R as Hinv by (apply Rinv_r; lra).
  assert (1 <= IZR n / IZR k)%R as Hq by (unfold Rdiv; nra).
  assert (IZR n / IZR k <= IZR n)%R as Hqn by (unfold Rdiv; nra).
  pose proof (ln_le 1 (IZR n / IZR k) ltac:(lra) Hq) as H1. rewrite ln_1 in H1.
  pose proof (ln_le (IZR n / IZR k) (IZR n) ltac:(lra) Hqn) as H2.
  unfold f_one. cbn. lra.
Qed.

(** An entry is positive for a tag of the document and zero otherwise. *)
Lemma entry_sign (D : list TaggedDocument) (d : TaggedDocument) (t : str) :
  (0 <= entry (F := R) D d t)%R ∧ (entry (F := R) D d t ≠ 0%R ↔ t ∈ tags d).
Proof.
  unfold entry. destruct (decide (t ∈ tags d)) as [Hin|Hin].
  - assert (0 < weight (F := R) D d t)%R as Hpos.
    { unfold weight. cbn [f_mul f_truediv exact].
      pose proof (IDF_bounds D t) as [Hidf _].
      pose proof (occurrences_le t (tags d)) as Hle.
      assert (occurrences t (tags d) ≠ 0%nat) as Hocc
        by (by intros Hz%occurrences_zero).
      assert (0 < IZR (Z.of_nat (occurrences t (tags d))))%R by (apply IZR_lt; lia).
      assert (0 < IZR (total_count d))%R.
      { apply IZR_lt. unfold total_count. destruct (tags d); cbn [length]; lia. }
      apply Rmult_lt_0_compat; [|lra]. by apply Rdiv_lt_0_compat. }
    split; [lra|]. split; [done|]. intros _. lra.
  - cbn. split; [lra|]. split; [done|]. done.
Qed.

(** X9: in exact arithmetic, fitting on non-empty documents and then
    transforming any documents gives weights between 1 and 1 + ln(1 + N),
    vectors without negative entries, and a vector has a non-zero entry
    exactly when its document has a tag that occurs in the fitted
    documents. *)
Theorem exact_weights_and_vectors (D docs : list TaggedDocument) :
  D ≠ [] →
  ∃ self' vectors,
    fit (F := R) new_model D = Ok self'
    ∧ transform self' docs = Ok vectors
    ∧ Forall (λ w, (1 <= w <= 1 + ln (IZR (1 + Z.of_nat (length D))))%R) (idf_ self')
    ∧ Forall (Forall (λ x, (0 <= x)%R)) vectors
    ∧ ∀ k d v, docs !! k = Some d → vectors !! k = Some v →
        ((∃ x, x ∈ v ∧ x ≠ 0%R) ↔ ∃ t d', t ∈ tags d ∧ d' ∈ D ∧ t ∈ tags d').
Proof.
  intros HD. rewrite fit_Ok by done. eexists _, _. split; [done|].
  rewrite transform_fitted. split; [done|]. cbn [idf_]. split_and!.
  - apply Forall_fmap, Forall_forall. intros t _. apply IDF_bounds.
  - apply Forall_fmap, Forall_forall. intros d _. cbn.
    apply Forall_fmap, Forall_forall. intros t _. apply entry_sign.
  - intros k d v Hd. rewrite list_lookup_fmap, Hd. intros [= <-]. split.
    + intros (x & (t & -> & Ht)%list_elem_of_fmap & Hx).
      apply entry_sign in Hx. apply elem_of_sorted_keys in Ht.
      rewrite document_frequency_lookup in Ht.
      destruct (decide (df D t = 0%nat)) as [|Hdf]; [by destruct Ht|].
      apply df_pos in Hdf as (d' & Hd' & Hin). by exists t, d'.
    + intros (t & d' & Ht & Hd' & Hin). exists (entry D d t). split.
      * apply list_elem_of_fmap. exists t. split; [done|].
        apply elem_of_sorted_keys. rewrite document_frequency_lookup.
        destruct (decide (df D t = 0%nat)) as [Hz|]; [|done].
        rewrite df_zero in Hz. by destruct (Hz d' Hd').
      * by apply entry_sign.
Qed.

(** X9 at the sample corpus and queries. *)
Lemma exact_weights_and_vectors_witness :
  ∃ self' vectors,
    fit (F := R) new_model corpus = Ok self'
    ∧ transform self' queries = Ok vectors
    ∧ Forall (Forall (λ x, (0 <= x)%R)) vectors.
Proof.
  destruct (exact_weights_and_vectors corpus queries)
    as (self' & vectors & Hfit & Htr & _ & Hpos & _); [discriminate|].
  exists self', vectors. split_and!; [exact Hfit|exact Htr|exact Hpos].
Defined.

End ExactModelFacts.

(** ** The matrix as a dictionary and as a preview *)

Module ViewFacts.
Import SimilarityFacts.

(** A dict comprehension over items: the value of a key is that of the
    last item with the key. *)
Lemma dict_items_lookup {V W} (g : W → V) (items : list (str * W))
    (d0 : gmap str V) (k : str) (i : nat) (w : W) :
  items !! i = Some (k, w) →
  (∀ i' w', (i < i')%nat → items !! i' ≠ Some (k, w')) →
  foldl (λ d item, <[item.1 := g item.2]> d) d0 items !! k = Some (g w).
Proof.
  induction items as [|[k' w'] items IH] using rev_ind; intros Hi Hlast.
  - by rewrite lookup_nil in Hi.
  - rewrite foldl_app. cbn [foldl fst snd].
    destruct (decide (i < length items)%nat) as [Hlt|Hge].
    + rewrite lookup_app_l in Hi by done.
      assert (k' ≠ k) as Hne.
      { intros ->. apply (Hlast (length items) w'); [done|].
        by rewrite list_lookup_middle. }
      rewrite lookup_insert_ne by done. apply IH; [done|].
      intros i' w'' Hi' Hlook. apply (Hlast i' w'' Hi').
      by apply lookup_app_l_Some.
    + assert (i = length items) as ->.
      { apply lookup_lt_Some in Hi. rewrite length_app in Hi. cbn in Hi. lia. }
      rewrite list_lookup_middle in Hi by done. injection Hi as -> ->.
      by rewrite lookup_insert_eq.
Qed.

Lemma dict_items_lookup_None {V W} (g : W → V) (items : list (str * W))
    (d0 : gmap str V) (k : str) :
  d0 !! k = None → k ∉ items.*1 →
  foldl (λ d item, <[item.1 := g item.2]> d) d0 items !! k = None.
Proof.
  revert d0. induction items as [|[k' w'] items IH]; intros d0 Hd0 Hk; [done|].
  rewrite fmap_cons, not_elem_of_cons in Hk. destruct Hk as [Hne Hk].
  cbn [foldl fst snd]. apply IH; [|done]. by rewrite lookup_insert_ne.
Qed.

Section Facts.
Context {F : Type} `{PyFloat F}.

(** X10: [to_dict] keeps, of rows that share a label, the last one, and
    within a row, of cells whose columns share a label, the last one;
    a label that heads no row is not a key. *)
Theorem to_dict_keeps_last (m : SimilarityMatrix F) (a b : str) (i j : nat)
    (r : list F) (x : F) :
  labels m !! i = Some a → values m !! i = Some r →
  (∀ i', (i < i')%nat → (i' < length (values m))%nat → labels m !! i' ≠ Some a) →
  labels m !! j = Some b → r !! j = Some x →
  (∀ j', (j < j')%nat → (j' < length r)%nat → labels m !! j' ≠ Some b) →
  to_dict m !! a ≫= (.!! b) = Some x
  ∧ ∀ c, c ∉ labels m → to_dict m !! c = None.
Proof.
  intros Hi Hr Hlast Hj Hx Hlastj. unfold to_dict. split.
  - rewrite (dict_items_lookup
               (λ row, foldl (λ inner cell, <[cell.1 := cell.2]> inner) ∅
                             (zip (labels m) row))
               (zip (labels m) (values m)) ∅ a i r).
    + cbn [mbind option_bind].
      apply (dict_items_lookup (λ v : F, v) (zip (labels m) r) ∅ b j x).
      * apply lookup_zip_with_Some. by exists b, x.
      * intros j' x' Hj' (b' & x'' & [= <- <-] & Hb' & Hx')%lookup_zip_with_Some.
        apply (Hlastj j' Hj'); [|done]. by eapply lookup_lt_Some.
    + apply lookup_zip_with_Some. by exists a, r.
    + intros i' r' Hi' (a' & r'' & [= <- <-] & Ha' & Hr')%lookup_zip_with_Some.
      apply (Hlast i' Hi'); [|done]. by eapply lookup_lt_Some.
  - intros c Hc.
    apply (dict_items_lookup_None
             (λ row, foldl (λ inner cell, <[cell.1 := cell.2]> inner) ∅
                           (zip (labels m) row))); [done|].
    intros ((c' & r') & -> & Hin)%list_elem_of_fmap. apply Hc.
    apply list_elem_of_lookup in Hin as (k & Hk).
    apply lookup_zip_with_Some in Hk as (c'' & r'' & [= <- <-] & Hc'' & _).
    by eapply list_elem_of_lookup_2.
Qed.

Variable format_fixed : F → Z → str.


(** Whether [decimals] is a precision that a format specification accepts. *)
Definition precision_ok (decimals : Z) : Prop := 0 ≤ decimals ≤ 2147483647.

Lemma format_row_ok (decimals : Z) (cells : list F) :
  precision_ok decimals ∨ cells = [] →
  mapM (λ score, format_score format_fixed score decimals) cells
  = Ok ((λ score, format_fixed score decimals) <$> cells).
Proof.
  intros [[Hlo Hhi]| ->]; [|done]. apply mapM_total. intros x _. unfold format_score.
  destruct (Z.ltb_spec decimals 0) as [|_]; [lia|].
  destruct (Z.ltb_spec 2147483647 decimals) as [|_]; [lia|]. done.
Qed.

Lemma format_row_raise (decimals : Z) (cells : list F) :
  ¬ precision_ok decimals → cells ≠ [] →
  mapM (λ score, format_score format_fixed score decimals) cells = Raise ValueError.
Proof.
  intros Hbad Hcells. destruct cells as [|x cells]; [done|].
  cbn [mapM]. assert (format_score format_fixed x decimals = Raise ValueError) as ->.
  { unfold format_score.
    destruct (Z.ltb_spec decimals 0) as [|Hlo]; [done|].
    destruct (Z.ltb_spec 2147483647 decimals) as [|Hhi]; [done|].
    exfalso. apply Hbad. unfold precision_ok. lia. }
  done.
Qed.

Lemma slice_take {A} (row : list A) (n : nat) : slice row 0 (Z.of_nat n) = take n row.
Proof.
  rewrite slice_prefix. unfold clip.
  destruct (Z.ltb_spec (Z.of_nat n) 0) as [|_]; [lia|].
  destruct (decide (n ≤ length row)%nat).
  - f_equal. lia.
  - rewrite !take_ge by lia. done.
Qed.

(** The loop formats the rows it shows, [n + 1 - len(rows)] of them, when
    the precision is accepted or there is no cell to format. *)
Lemma preview_loop_take (n : nat) (decimals : Z) (items : list (str * list F))
    (rows : list str) :
  (1 ≤ n)%nat → (length rows ≤ n)%nat →
  precision_ok decimals
  ∨ Forall (λ item, item.2 = []) (take (n + 1 - length rows) items) →
  preview_loop format_fixed (Z.of_nat n) decimals items rows
  = Ok (rows ++ (preview_row format_fixed decimals n
                   <$> take (n + 1 - length rows) items)).
Proof.
  intros Hn. revert rows. induction items as [|[label row] items IH];
    intros rows Hrows Hok.
  - cbn. by rewrite take_nil, app_nil_r.
  - cbn [preview_loop]. rewrite slice_take.
    replace (n + 1 - length rows)%nat with (S (n - length rows)) in Hok |- * by lia.
    cbn [take] in Hok. rewrite format_row_ok.
    2: { destruct Hok as [?|Hempty]; [by left|]. right.
         apply Forall_cons in Hempty as [Hrow _]. cbn in Hrow. by rewrite Hrow, take_nil. }
    cbn [mbind result_bind bind]. rewrite length_app. cbn [length].
    cbn [take fmap list_fmap]. fold (preview_row format_fixed decimals n (label, row)).
    destruct (Z.ltb_spec (Z.of_nat n) (Z.of_nat (length rows + 1))) as [Hstop|Hgo].
    + replace (n - length rows)%nat with 0%nat by lia. by rewrite take_0.
    + rewrite IH.
      * rewrite length_app, <- app_assoc. cbn [length app].
        replace (n + 1 - (length rows + 1))%nat with (n - length rows)%nat by lia.
        done.
      * rewrite length_app. cbn. lia.
      * rewrite length_app. cbn [length].
        replace (n + 1 - (length rows + 1))%nat with (n - length rows)%nat by lia.
        destruct Hok as [?|Hempty]; [by left|]. right.
        by apply Forall_cons in Hempty as [_ ?].
Qed.

(** With a precision that is refused, the loop raises at the first cell
    it has to format. *)
Lemma preview_loop_raise (n : nat) (decimals : Z) (items : list (str * list F))
    (rows : list str) :
  (1 ≤ n)%nat → (length rows ≤ n)%nat → ¬ precision_ok decimals →
  Exists (λ item, item.2 ≠ []) (take (n + 1 - length rows) items) →
  preview_loop format_fixed (Z.of_nat n) decimals items rows = Raise ValueError.
Proof.
  intros Hn. revert rows. induction items as [|[label row] items IH];
    intros rows Hrows Hbad Hex.
  - rewrite take_nil in Hex. by apply Exists_nil in Hex.
  - cbn [preview_loop]. rewrite slice_take.
    replace (n + 1 - length rows)%nat with (S (n - length rows)) in Hex by lia.
    cbn [take] in Hex. destruct row as [|x row].
    + apply Exists_cons in Hex as [Hrow|Hex]; [done|].
      rewrite take_nil. cbn [mapM mret result_ret mbind result_bind bind].
      rewrite length_app. cbn [length].
      destruct (Z.ltb_spec (Z.of_nat n) (Z.of_nat (length rows + 1))) as [Hstop|Hgo].
      * replace (n - length rows)%nat with 0%nat in Hex by lia.
        rewrite take_0 in Hex. by apply Exists_nil in Hex.
      * apply IH; [rewrite length_app; cbn; lia|done|].
        rewrite length_app. cbn [length].
        by replace (n + 1 - (length rows + 1))%nat with (n - length rows)%nat by lia.
    + rewrite format_row_raise; [done|done|]. destruct n; [lia|done].
Qed.

(** What [preview_rows] returns, by cases. *)
Lemma preview_rows_cases (m : SimilarityMatrix F) (limit decimals : Z) :
  let n := Z.to_nat (Z.max 1 (Z.min limit (Z.of_nat (length (labels m))))) in
  let shown := take n (zip (labels m) (values m)) in
  (1 ≤ n)%nat
  ∧ (precision_ok decimals ∨ Forall (λ item, item.2 = []) shown →
     preview_rows format_fixed m limit decimals
     = Ok (join [9%N] (lit "identifier" :: take n (labels m))
           :: (preview_row format_fixed decimals n <$> shown)))
  ∧ (¬ precision_ok decimals → Exists (λ item, item.2 ≠ []) shown →
     preview_rows format_fixed m limit decimals = Raise ValueError).
Proof.
  intros n shown. unfold preview_rows.
  set (l := Z.max 1 (Z.min limit (Z.of_nat (length (labels m))))).
  assert (l = Z.of_nat n) as -> by (unfold n, l; lia).
  rewrite Nat2Z.id.
  assert (1 ≤ n)%nat as Hn by (unfold n; lia).
  assert ((n + 1 - length [join [9%N] (lit "identifier" :: take n (labels m))])%nat = n)
    as Hk by (cbn [length]; lia).
  split_and!; [done| |].
  - intros Hok. rewrite preview_loop_take; [by rewrite Hk|done|cbn; lia|by rewrite Hk].
  - intros Hbad Hex. apply preview_loop_raise; [done|cbn; lia|done|by rewrite Hk].
Qed.


End Facts.

(** X10 at a matrix whose first and third labels are both a.txt: the
    dictionary holds the third row under that label, and the third cell
    of it under that column. *)
Lemma to_dict_keeps_last_witness :
  to_dict namesake_matrix !! lit "a.txt" ≫= (.!! lit "a.txt") = Some 1%float
  ∧ ∀ c, c ∉ labels namesake_matrix → to_dict namesake_matrix !! c = None.
Proof.
  apply (to_dict_keeps_last namesake_matrix (lit "a.txt") (lit "a.txt") 2 2
           [0.25; 0; 1; 0]%float 1%float).
  - reflexivity.
  - reflexivity.
  - intros [|[|[|[|i']]]] Hlt Hlen; cbn in Hlen; try lia. discriminate.
  - reflexivity.
  - reflexivity.
  - intros [|[|[|[|j']]]] Hlt Hlen; cbn in Hlen; try lia. discriminate.
Defined.


End ViewFacts.

(** ** From documents to matches *)

Module PipelineFacts.
Import EmbeddingFacts SimilarityFacts.

Section Facts.
Context {F : Type} `{PyFloat F}.

(** What [_compute_similarity] returns for at least one document. *)
Lemma _compute_similarity_Ok `{!FloatArith F} (D : list TaggedDocument) :
  D ≠ [] →
  let st := sorted_keys (document_frequency D) in
  let embeddings := (λ d, entry D d <$> st) <$> D in
  _compute_similarity D
  = Ok {| labels := identifier <$> D;
          values := (λ a, (λ b, round_to (Some 6) (cosine a b)) <$> embeddings)
                      <$> embeddings |}.
Proof.
  intros HD st embeddings. unfold _compute_similarity, fit_transform.
  rewrite fit_Ok by done. cbn [mbind result_bind bind].
  rewrite transform_fitted. cbn [mbind result_bind bind snd].
  by rewrite build_similarity_matrix_Ok.
Qed.

Lemma filter_all {A} (P : A → Prop) `{!∀ x, Decision (P x)} (l : list A) :
  Forall P l → filter P l = l.
Proof.
  induction 1 as [|x l Hx _ IH]; [done|]. rewrite filter_cons.
  by rewrite decide_True, IH.
Qed.

Lemma filter_others_length (ls : list str) (r : list F) (target : str) :
  NoDup ls → target ∈ ls → length r = length ls →
  S (length (filter (λ item, item.1 ≠ target) (zip ls r))) = length ls.
Proof.
  revert r. induction ls as [|l ls IH]; intros [|x r] Hnd Hin Hlen; try done.
  { by apply not_elem_of_nil in Hin. }
  apply NoDup_cons in Hnd as [Hl Hnd]. cbn [zip zip_with]. rewrite filter_cons.
  cbn [fst length]. injection Hlen as Hlen.
  destruct (decide (l ≠ target)) as [Hne|Heq].
  - cbn [length]. f_equal. apply IH; [done| |done].
    apply elem_of_cons in Hin as [->|Hin]; done.
  - apply dec_stable in Heq. subst l. f_equal.
    rewrite filter_all; [rewrite length_zip_with; lia|].
    apply Forall_forall. intros [l' x'] Hin' Heq. cbn in Heq. subst l'. apply Hl.
    apply list_elem_of_lookup in Hin' as (k & Hk).
    apply lookup_zip_with_Some in Hk as (? & ? & [= <- <-] & Hk & _).
    by eapply list_elem_of_lookup_2.
Qed.

(** X12: [_compute_similarity] raises [ValueError] without documents.
    With documents it returns a matrix labelled by their identifiers,
    with one row and one column per document and equal cells across the
    diagonal; on that matrix [_display_similarity] never raises for a
    target among the labels: it returns pairs with other labels only, at
    most [top_n] of them, and exactly [min(top_n, n - 1)] when the
    identifiers are distinct. *)
Theorem similarity_pipeline `{!FloatArith F} (D : list TaggedDocument) :
  _compute_similarity (F := F) [] = Raise ValueError
  ∧ (D ≠ [] →
     ∃ m, _compute_similarity D = Ok m
       ∧ labels m = identifier <$> D
       ∧ length (values m) = length D
       ∧ Forall (λ row, length row = length D) (values m)
       ∧ (∀ i j x y, (values m !! i) ≫= (.!! j) = Some x →
                     (values m !! j) ≫= (.!! i) = Some y → x = y)
       ∧ ∀ target top_n, target ∈ labels m → 0 ≤ top_n →
           ∃ res, _display_similarity m target top_n = Ok res
             ∧ Z.of_nat (length res) ≤ top_n
             ∧ (∀ p, p ∈ res → p.1 ≠ target ∧ p.1 ∈ labels m)
             ∧ (NoDup (identifier <$> D) →
                Z.of_nat (length res) = Z.min top_n (Z.of_nat (length D) - 1))).
Proof.
  split; [done|]. intros HD. rewrite _compute_similarity_Ok by done.
  eexists. split; [done|]. cbn [labels values].
  set (embeddings := (λ d, entry D d <$> sorted_keys (document_frequency D)) <$> D).
  assert (length embeddings = length D) as Hemb by (unfold embeddings; by rewrite length_fmap).
  split_and!; [done|by rewrite length_fmap| | |].
  - apply Forall_fmap, Forall_forall. intros a _. cbn. by rewrite length_fmap.
  - intros i j x y. rewrite !list_lookup_fmap.
    destruct (embeddings !! i) as [a|] eqn:Ha, (embeddings !! j) as [b|] eqn:Hb;
      cbn; rewrite ?list_lookup_fmap, ?Ha, ?Hb; cbn; try done.
    intros [= <-] [= <-]. by rewrite cosine_comm.
  - intros target top_n Hin Htop. unfold _display_similarity.
    set (m := {| labels := identifier <$> D; values := _ |}).
    destruct (get_top_similar_cases m target top_n false)
      as [[Hnot _]|(i & _ & Hi & Hget)]; [done|].
    apply tuple_index_first in Hi as [Hi _].
    assert (i < length embeddings)%nat as Hlt.
    { apply lookup_lt_Some in Hi. cbn in Hi. rewrite length_fmap in Hi. lia. }
    apply lookup_lt_is_Some in Hlt as [a Ha].
    set (r := (λ b, round_to (Some 6) (cosine a b)) <$> embeddings).
    assert (values m !! i = Some r) as Hrow.
    { cbn [values m]. by rewrite list_lookup_fmap, Ha. }
    rewrite Hrow in Hget. change (labels m) with (identifier <$> D) in Hget.
    set (eligible := filter (λ item, item.1 ≠ target) (zip (identifier <$> D) r)) in *.
    eexists. split; [exact Hget|].
    pose proof (slice_prefix_length (sort_desc eligible) top_n) as Hlen.
    destruct (Z.ltb_spec top_n 0) as [|_]; [lia|].
    rewrite (Permutation_length (sort_desc_Permutation eligible)) in Hlen.
    split_and!.
    + lia.
    + intros p Hp. rewrite slice_prefix in Hp. apply elem_of_take in Hp as (k & Hp & _).
      apply list_elem_of_lookup_2 in Hp. rewrite sort_desc_Permutation in Hp.
      apply list_elem_of_filter in Hp as [Hne Hp]. split; [done|].
      apply list_elem_of_lookup in Hp as (k' & Hk').
      apply lookup_zip_with_Some in Hk' as (? & ? & -> & Hk' & _).
      by eapply list_elem_of_lookup_2.
    + intros Hnd.
      pose proof (filter_others_length (identifier <$> D) r target Hnd Hin) as Hn.
      fold eligible in Hn. rewrite length_fmap in Hn.
      unfold r in Hn at 1. rewrite length_fmap, Hemb in Hn.
      specialize (Hn eq_refl). lia.
Qed.

(** On a computed matrix, a target among the labels has a row. *)
Lemma computed_row `{!FloatArith F} (D : list TaggedDocument) (m : SimilarityMatrix F)
    (target : str) (top_n : Z) :
  _compute_similarity D = Ok m → target ∈ identifier <$> D →
  ∃ r, get_top_similar m target top_n false
       = Ok (slice (sort_desc (filter (λ item, item.1 ≠ target)
                                 (zip (identifier <$> D) r))) 0 top_n).
Proof.
  intros Hm Hin. assert (D ≠ []) as HD.
  { intros ->. by apply not_elem_of_nil in Hin. }
  pose proof (_compute_similarity_Ok D HD) as Hm'. cbv zeta in Hm'.
  set (embeddings := (λ d, entry D d <$> sorted_keys (document_frequency D)) <$> D)
    in Hm'.
  assert (m = {| labels := identifier <$> D;
                 values := (λ a, (λ b, round_to (Some 6) (cosine a b)) <$> embeddings)
                             <$> embeddings |}) as Hmeq by congruence.
  clear Hm Hm'.
  destruct (get_top_similar_cases m target top_n false)
    as [[Hnot _]|(i & _ & Hi & Hget)].
  { exfalso. apply Hnot. by rewrite Hmeq. }
  apply tuple_index_first in Hi as [Hi _].
  assert (i < length embeddings)%nat as Hlt.
  { apply lookup_lt_Some in Hi. rewrite Hmeq in Hi. cbn [labels] in Hi.
    rewrite length_fmap in Hi. unfold embeddings. by rewrite length_fmap. }
  apply lookup_lt_is_Some in Hlt as [a Ha].
  assert (values m !! i
          = Some ((λ b, round_to (Some 6) (cosine a b)) <$> embeddings)) as Hrow.
  { rewrite Hmeq. cbn [values]. by rewrite list_lookup_fmap, Ha. }
  rewrite Hrow in Hget. rewrite Hget.
  assert (labels m = identifier <$> D) as -> by (by rewrite Hmeq).
  by eexists.
Qed.

(** X13: [cli.main], from the parsed documents on and without
    [--output], lets no exception escape.  It ends in [parser.error]
    exactly when there are no documents, or when matches are asked for
    ([--list] absent, [--top] not zero) of a non-empty [--target] that no
    document carries; without [--target], or with an empty one, the
    matches are those of the first document. *)
Theorem cli_main_outcomes `{!FloatArith F} (format_fixed : F → Z → str)
    (D : list TaggedDocument) (args : cli_args) :
  (∀ e, cli_main format_fixed D args ≠ Raised e)
  ∧ (cli_main format_fixed D args = ParserError
     ↔ D = [] ∨ (arg_list args = false ∧ arg_top args ≠ 0
                 ∧ ∃ t, arg_target args = Some t ∧ t ≠ []
                        ∧ t ∉ identifier <$> D))
  ∧ (∀ d0, head D = Some d0 → arg_list args = false → arg_top args ≠ 0 →
       arg_target args = None ∨ arg_target args = Some [] →
       ∃ res, cli_main format_fixed D args = TopScores (identifier d0) res).
Proof.
  unfold cli_main. destruct D as [|d0 D].
  { cbn [truthy negb]. split_and!; [done| |done]. split; [by left|done]. }
  cbn [truthy negb]. destruct (arg_list args) eqn:Hlist.
  { split_and!; [done| |done]. split; [done|]. by intros [?|(? & _)]. }
  destruct (_compute_similarity (F := F) (d0 :: D)) as [m|e] eqn:Hm.
  2: { by rewrite _compute_similarity_Ok in Hm. }
  assert (labels m = identifier <$> d0 :: D) as Hlabels.
  { rewrite _compute_similarity_Ok in Hm by done. by injection Hm as <-. }
  destruct (Z.eqb_spec (arg_top args) 0) as [Htop|Htop]; cbn [negb].
  { destruct (ViewFacts.preview_rows_cases format_fixed m (arg_preview args) 3)
      as (_ & Hok & _).
    unfold preview. rewrite Hok by (left; unfold ViewFacts.precision_ok; lia).
    cbn [mbind result_bind bind].
    split_and!; [done| |done]. split; [done|]. by intros [?|(_ & ? & _)]. }
  assert (∀ t, cli_target (arg_target args) (d0 :: D) = Ok t →
            (t ∈ identifier <$> d0 :: D →
             ∃ res, get_top_similar m t (arg_top args) false = Ok res)
            ∧ (t ∉ identifier <$> d0 :: D →
               get_top_similar m t (arg_top args) false = Raise KeyError)) as Hget.
  { intros t _. split.
    - intros Hin. destruct (computed_row (d0 :: D) m t (arg_top args) Hm Hin) as [r ->].
      by eexists.
    - intros Hin. unfold get_top_similar. by rewrite Hlabels, bool_decide_eq_false_2. }
  assert (identifier d0 ∈ identifier <$> d0 :: D) as Hfirst by (rewrite fmap_cons; left).
  destruct (arg_target args) as [[|c t]|] eqn:Htarget; cbn [cli_target truthy].
  - unfold list_get. cbn [lookup list_lookup fmap result_fmap bind].
    destruct (proj1 (Hget (identifier d0) eq_refl) Hfirst) as [res ->].
    split_and!; [done| |].
    + split; [done|]. intros [?|(_ & _ & t & [= <-] & ? & _)]; done.
    + intros d [= <-] _ _ _. by eexists.
  - destruct (decide ((c :: t) ∈ identifier <$> d0 :: D)) as [Hin|Hin].
    + destruct (proj1 (Hget (c :: t) eq_refl) Hin) as [res ->].
      split_and!; [done| |].
      * split; [done|]. intros [?|(_ & _ & t' & [= <-] & _ & ?)]; done.
      * by intros d _ _ _ [?|?].
    + rewrite (proj2 (Hget (c :: t) eq_refl) Hin).
      split_and!; [done| |].
      * split; [|done]. intros _. right. split_and!; [done..|]. by exists (c :: t).
      * by intros d _ _ _ [?|?].
  - unfold list_get. cbn [lookup list_lookup fmap result_fmap bind].
    destruct (proj1 (Hget (identifier d0) eq_refl) Hfirst) as [res ->].
    split_and!; [done| |].
    + split; [done|]. intros [?|(_ & _ & t & ? & _)]; done.
    + intros d [= <-] _ _ _. by eexists.
Qed.

Lemma StronglySorted_app_elem {A} (R : relation A) (l1 l2 : list A) (x y : A) :
  StronglySorted R (l1 ++ l2) → x ∈ l1 → y ∈ l2 → R x y.
Proof.
  induction l1 as [|a l1 IH]; [by intros _ ?%not_elem_of_nil|].
  cbn [app]. intros Hs. apply StronglySorted_inv in Hs as [Hs Hall].
  intros [->|Hx]%elem_of_cons Hy; [|by apply IH].
  rewrite Forall_forall in Hall. apply Hall. rewrite elem_of_app. by right.
Qed.

(** X14: [get_top_similar] splits the pairs of the row that carry another
    label into those it returns and the rest, and when no score of the
    row is NaN no returned score is below a score of the rest. *)
Theorem top_similar_are_the_best `{!FloatOrder F} (m : SimilarityMatrix F)
    (target : str) (top_n : Z) (i : nat) (r : list F) (res : list (str * F)) :
  tuple_index (labels m) target = Ok i → values m !! i = Some r →
  Forall comparable r →
  get_top_similar m target top_n false = Ok res →
  ∃ rest, res ++ rest ≡ₚ filter (λ item, item.1 ≠ target) (zip (labels m) r)
    ∧ ∀ p q, p ∈ res → q ∈ rest → f_ltb p.2 q.2 = false.
Proof.
  intros Hi Hr Hcmp Hget.
  destruct (get_top_similar_cases m target top_n false)
    as [[_ Hraise]|(i' & _ & Hi' & Hcase)]; [congruence|].
  rewrite Hi in Hi'. injection Hi' as <-. rewrite Hr, Hget in Hcase.
  injection Hcase as ->.
  set (eligible := filter (λ item, item.1 ≠ target) (zip (labels m) r)).
  rewrite slice_prefix.
  set (k := Z.to_nat (clip (Z.of_nat (length (sort_desc eligible))) top_n)).
  exists (drop k (sort_desc eligible)). rewrite take_drop. split.
  - apply sort_desc_Permutation.
  - intros p q Hp Hq.
    apply (StronglySorted_app_elem desc (take k (sort_desc eligible))
             (drop k (sort_desc eligible))); [|done..].
    rewrite take_drop. apply sort_desc_sorted.
    apply Forall_forall. intros x [_ Hx]%list_elem_of_filter.
    apply elem_of_zip_score in Hx. by eapply Forall_forall in Hcmp.
Qed.

End Facts.

End PipelineFacts.

(** ** The pipeline on binary64 and in exact arithmetic *)

Module PipelineWitnesses.
Import EmbeddingFacts SimilarityFacts Binary64Facts ExactFacts PipelineFacts
  DocumentFacts ExactModelFacts.

(** X12 at the sample corpus, on binary64. *)
Lemma similarity_pipeline_witness :
  ∃ m, _compute_similarity (F := float) corpus = Ok m
    ∧ labels m = identifier <$> corpus
    ∧ length (values m) = 3%nat
    ∧ ∃ res, _display_similarity m (lit "doc1.txt") 2 = Ok res
        ∧ Z.of_nat (length res) = 2.
Proof.
  destruct (proj2 (similarity_pipeline (F := float) (FloatArith0 := binary64_arith)
                     corpus))
    as (m & Hm & Hlabels & Hlen & _ & _ & Hdisplay); [discriminate|].
  exists m. split; [exact Hm|]. split; [exact Hlabels|]. split; [exact Hlen|].
  destruct (Hdisplay (lit "doc1.txt") 2) as (res & Hres & _ & _ & Hexact).
  { rewrite Hlabels. apply list_elem_of_In. vm_compute. tauto. }
  { lia. }
  exists res. split; [exact Hres|]. apply Hexact.
  apply NoDup_ListNoDup. vm_compute. repeat constructor; cbn; intuition discriminate.
Defined.

(** X13 at the sample corpus, on binary64, asking for the two best
    matches of doc9.txt, which no document carries. *)
Lemma cli_main_outcomes_witness :
  cli_main (F := float) (λ _ _, []) corpus
    {| arg_list := false; arg_top := 2; arg_target := Some (lit "doc9.txt");
       arg_preview := 5 |}
  = ParserError.
Proof.
  apply (cli_main_outcomes (F := float) (FloatArith0 := binary64_arith)).
  right. split; [reflexivity|]. split; [discriminate|].
  exists (lit "doc9.txt"). split; [reflexivity|]. split; [discriminate|].
  intros Hin%list_elem_of_In. vm_compute in Hin. intuition discriminate.
Defined.

(** X14 at the matrix with a repeated label: the best match of b.txt. *)
Lemma top_similar_are_the_best_witness :
  ∃ rest, [(lit "a.txt", 0.5%float)] ++ rest
          ≡ₚ filter (λ item, item.1 ≠ lit "b.txt")
               (zip (labels namesake_matrix) [0.5; 1; 0; 0]%float)
    ∧ ∀ p q, p ∈ [(lit "a.txt", 0.5%float)] → q ∈ rest → f_ltb p.2 q.2 = false.
Proof.
  apply (top_similar_are_the_best (F := float) (FloatOrder0 := binary64_order)
           namesake_matrix (lit "b.txt") 1 1 [0.5; 1; 0; 0]%float).
  - reflexivity.
  - reflexivity.
  - repeat constructor.
  - vm_compute. reflexivity.
Defined.

(** The norm of an all-zero vector is zero on binary64. *)
Lemma norm_zeros (n : nat) : norm (F := float) (replicate n f_zero) = f_zero.
Proof.
  unfold norm. cbn [f_sqrt f_sum binary64].
  assert (∀ acc, acc = of_int 0 →
            foldl PrimFloat.add acc ((λ x, f_mul x x) <$> replicate n f_zero)
            = of_int 0) as Hsum.
  { induction n as [|n IH]; intros acc ->; [done|]. cbn [replicate fmap list_fmap foldl].
    by apply IH. }
  unfold sum_left. by rewrite Hsum.
Qed.

(** X15: on binary64, a document none of whose tags occurs in the fitted
    documents gets a vector whose similarity to any vector, itself
    included, is exactly 0.0. *)
Theorem unknown_document_is_dissimilar (D : list TaggedDocument) (d : TaggedDocument)
    (b : list float) :
  D ≠ [] →
  (∀ t d', t ∈ tags d → d' ∈ D → t ∉ tags d') →
  ∃ self' v,
    fit (F := float) new_model D = Ok self'
    ∧ transform self' [d] = Ok [v]
    ∧ _cosine_similarity v b = Ok f_zero
    ∧ _cosine_similarity b v = Ok f_zero
    ∧ _cosine_similarity v v = Ok f_zero.
Proof.
  intros HD Hunknown. rewrite fit_Ok by done. eexists _, _. split; [done|].
  rewrite transform_fitted. cbn [fmap list_fmap]. split; [done|].
  assert (entry (F := float) D d <$> sorted_keys (document_frequency D)
          = replicate (length (sorted_keys (document_frequency D))) f_zero) as ->.
  { assert (Forall (λ t, entry (F := float) D d t = f_zero)
              (sorted_keys (document_frequency D))) as Hzero.
    { apply Forall_forall. intros t Ht%elem_of_sorted_keys.
      rewrite document_frequency_lookup in Ht.
      destruct (decide (df D t = 0%nat)) as [|Hdf]; [by destruct Ht|].
      apply df_pos in Hdf as (d' & Hd' & Hin). unfold entry.
      rewrite decide_False; [done|]. intros Htd. by apply (Hunknown t d'). }
    induction Hzero as [|t st Ht _ IH]; [done|].
    cbn [fmap list_fmap length replicate]. by rewrite Ht, <- IH. }
  rewrite !(_cosine_similarity_Ok (FloatArith0 := binary64_arith)).
  unfold cosine. rewrite norm_zeros.
  change (f_eqb (f_zero (F := float)) f_zero) with true. cbn [orb].
  by rewrite orb_true_r.
Qed.

(** X15 at the sample corpus and a document tagged zebra. *)
Lemma unknown_document_is_dissimilar_witness :
  ∃ self' v,
    fit (F := float) new_model corpus = Ok self'
    ∧ transform self' [doc "q.txt" [lit "zebra"]] = Ok [v]
    ∧ _cosine_similarity v v = Ok f_zero.
Proof.
  destruct (unknown_document_is_dissimilar corpus (doc "q.txt" [lit "zebra"]) [])
    as (self' & v & Hfit & Htr & _ & _ & Hself).
  - discriminate.
  - intros t d' Ht Hd' Hin. apply list_elem_of_In in Ht, Hd'.
    cbn in Ht, Hd'. destruct Ht as [<-|[]].
    destruct Hd' as [<-|[<-|[<-|[]]]]; apply list_elem_of_In in Hin;
      vm_compute in Hin; intuition discriminate.
  - exists self', v. split; [exact Hfit|]. split; [exact Htr|exact Hself].
Defined.

(** X16: in exact arithmetic, the documents parsed from any lines, when
    there are any, give a matrix whose diagonal cells are all 1 and whose
    cells all lie in [0, 1]: every parsed document has a tag, so no
    vector is zero. *)
Theorem parsed_lines_pipeline_exact (lines : list str) (keep_duplicates : bool) :
  let D := _load_from_lines lines keep_duplicates in
  D ≠ [] →
  ∃ m, _compute_similarity (F := R) D = Ok m
    ∧ (∀ i, (i < length D)%nat → (values m !! i) ≫= (.!! i) = Some 1%R)
    ∧ (∀ i j x, (values m !! i) ≫= (.!! j) = Some x → (0 <= x <= 1)%R).
Proof.
  intros D HD.
  rewrite (_compute_similarity_Ok (FloatArith0 := exact_arith)) by done.
  eexists. split; [done|]. cbn [values].
  set (st := sorted_keys (document_frequency D)).
  set (embeddings := (λ d, entry D d <$> st) <$> D).
  assert (Forall (λ a, Forall (λ x, (0 <= x)%R) a ∧ ∃ x, x ∈ a ∧ x ≠ 0%R) embeddings)
    as Hemb.
  { apply Forall_fmap, Forall_forall. intros d Hd. cbn. split.
    - apply Forall_fmap, Forall_forall. intros t _. apply entry_sign.
    - pose proof Hd as (raw_line & Hraw & Hline)%parse_elem_of.
      destruct (line_document_parsed_from lines raw_line d Hraw Hline)
        as (raw' & pre & content & post & _ & _ & _ & _ & _ & _ & Htags & _).
      destruct (tags d) as [|t ts] eqn:Htd; [done|].
      assert (t ∈ tags d) as Ht by (rewrite Htd; left).
      exists (entry D d t). split; [|by apply entry_sign].
      apply list_elem_of_fmap. exists t. split; [done|].
      apply elem_of_sorted_keys. rewrite document_frequency_lookup.
      destruct (decide (df D t = 0%nat)) as [Hz|]; [|done].
      rewrite df_zero in Hz. by destruct (Hz d Hd). }
  rewrite Forall_forall in Hemb. split.
  - intros i Hi.
    assert (i < length embeddings)%nat as Hlt by (unfold embeddings; by rewrite length_fmap).
    apply lookup_lt_is_Some in Hlt as [a Ha].
    rewrite list_lookup_fmap, Ha. cbn. rewrite list_lookup_fmap, Ha. cbn.
    destruct (Hemb a) as [_ Hnz]; [by eapply list_elem_of_lookup_2|].
    f_equal. rewrite cosine_self_exact by done. by apply round_unit.
  - intros i j x. rewrite list_lookup_fmap.
    destruct (embeddings !! i) as [a|] eqn:Ha; [|done]. cbn.
    rewrite list_lookup_fmap.
    destruct (embeddings !! j) as [b|] eqn:Hb; [|done]. cbn. intros [= <-].
    apply round_range; [lia|]. apply cosine_range_exact.
    + by apply Hemb; eapply list_elem_of_lookup_2.
    + by apply Hemb; eapply list_elem_of_lookup_2.
Qed.

(** X16 at the five sample lines. *)
Lemma parsed_lines_pipeline_exact_witness :
  ∃ m, _compute_similarity (F := R) (_load_from_lines sample_lines false) = Ok m
    ∧ (∀ i, (i < length (_load_from_lines sample_lines false))%nat →
         (values m !! i) ≫= (.!! i) = Some 1%R).
Proof.
  destruct (parsed_lines_pipeline_exact sample_lines false) as (m & Hm & Hdiag & _).
  - intros Hnil. vm_compute in Hnil. discriminate.
  - exists m. split; [exact Hm|exact Hdiag].
Defined.

End PipelineWitnesses.

(** ** Parsing the rendering of a tag list *)

Module RoundTripFacts.
Import StrFacts ParserFacts DocumentFacts SimilarityFacts.


Lemma rstrip_by_id (p : N → bool) (s : str) (y : N) :
  last s = Some y → p y = false → rstrip_by p s = s.
Proof.
  intros [s' ->]%last_Some Hy. unfold rstrip_by.
  rewrite reverse_snoc. cbn [lstrip_by]. rewrite Hy.
  by rewrite reverse_cons, reverse_involutive.
Qed.

Lemma strip_id (x y : N) (s : str) :
  isspace x = false → isspace y = false → last (x :: s) = Some y →
  strip (x :: s) = x :: s.
Proof.
  intros Hx Hy Hlast. unfold strip. cbn [lstrip_by]. rewrite Hx.
  by apply (rstrip_by_id _ _ y).
Qed.

Lemma strip_chars_quoted (tag : str) :
  (∃ x, head tag = Some x ∧ x ∉ quote_chars) →
  (∃ y, last tag = Some y ∧ y ∉ quote_chars) →
  strip_chars quote_chars (quoted tag) = tag.
Proof.
  intros (x & Hx & Hxq) (y & [t' ->]%last_Some & Hyq). unfold strip_chars, quoted.
  set (p := λ c, bool_decide (c ∈ quote_chars)).
  assert (p x = false) as Hpx by (by apply bool_decide_eq_false_2).
  assert (p y = false) as Hpy by (by apply bool_decide_eq_false_2).
  assert (lstrip_by p ([39%N] ++ (t' ++ [y]) ++ [39%N]) = (t' ++ [y]) ++ [39%N]) as ->.
  { cbn [app lstrip_by]. change (p 39%N) with true. cbv iota.
    destruct t' as [|z t']; cbn [app head] in Hx |- *; injection Hx as ->;
      cbn [lstrip_by]; by rewrite Hpx. }
  unfold rstrip_by. rewrite !reverse_snoc. cbn [lstrip_by].
  change (p 39%N) with true. cbv iota. rewrite Hpy.
  by rewrite reverse_cons, reverse_involutive.
Qed.

Lemma last_quoted (tag : str) : last (quoted tag) = Some 39%N.
Proof. unfold quoted. by rewrite app_assoc, last_snoc. Qed.

Lemma keep_tag_quoted (tag : str) :
  plain_tag tag → keep_tag (quoted tag) = Some tag ∧ keep_tag (32%N :: quoted tag) = Some tag.
Proof.
  intros (_ & _ & Hnormal & Hhead & Hlast).
  assert (strip (quoted tag) = quoted tag) as Hstrip.
  { apply (strip_id 39 39); [done|done|]. apply (last_quoted tag). }
  assert (strip (32%N :: quoted tag) = quoted tag) as Hstrip'.
  { unfold strip. cbn [lstrip_by]. change (isspace 32) with true. cbv iota. apply Hstrip. }
  assert (_normalise_tag (quoted tag) = Some tag) as Hq.
  { unfold _normalise_tag. rewrite Hstrip, strip_chars_quoted by done.
    destruct Hhead as (x & Hx & _). destruct tag; [done|]. cbn [truthy].
    by rewrite Hnormal. }
  assert (_normalise_tag (32%N :: quoted tag) = Some tag) as Hq'.
  { unfold _normalise_tag in Hq |- *. by rewrite Hstrip', <- Hstrip. }
  unfold keep_tag. rewrite Hq, Hq'.
  destruct Hhead as (x & Hx & _). by destruct tag.
Qed.

Lemma split_on_absent (c : N) (s : str) : c ∉ s → split_on c s = [s].
Proof.
  induction s as [|x s IH]; [done|]. intros [Hx Hs]%not_elem_of_cons.
  cbn [split_on]. destruct (N.eqb_spec x c) as [->|_]; [done|]. by rewrite IH.
Qed.

Lemma split_on_app_sep (c : N) (s rest : str) :
  c ∉ s → split_on c (s ++ c :: rest) = s :: split_on c rest.
Proof.
  induction s as [|x s IH]; intros Hs.
  - cbn [app split_on]. by rewrite N.eqb_refl.
  - apply not_elem_of_cons in Hs as [Hx Hs]. cbn [app split_on].
    destruct (N.eqb_spec x c) as [->|_]; [done|]. by rewrite IH.
Qed.

Lemma join_cons_head (sep : str) (x : N) (p : str) (r : list str) :
  x :: join sep (p :: r) = join sep ((x :: p) :: r).
Proof. by destruct r. Qed.

Lemma split_on_join_comma (q : str) (rest : list str) :
  (44%N ∉ q) → Forall (λ s, 44%N ∉ s) rest →
  split_on 44 (join [44%N; 32%N] (q :: rest)) = q :: ((λ s, 32%N :: s) <$> rest).
Proof.
  revert q. induction rest as [|q2 rest IH]; intros q Hq Hrest.
  - cbn [join]. by apply split_on_absent.
  - apply Forall_cons in Hrest as [Hq2 Hrest].
    change (join [44%N; 32%N] (q :: q2 :: rest))
      with (q ++ 44%N :: (32%N :: join [44%N; 32%N] (q2 :: rest))).
    rewrite split_on_app_sep by done. rewrite join_cons_head, IH; [done| |done].
    rewrite not_elem_of_cons. by split.
Qed.

Lemma quoted_no (c : N) (tag : str) : c ≠ 39%N → c ∉ tag → c ∉ quoted tag.
Proof.
  intros Hc Ht. unfold quoted. rewrite !not_elem_of_app, !list_elem_of_singleton. tauto.
Qed.

Lemma collect_tags_rendered (tags : list str) :
  Forall plain_tag tags →
  collect_tags (join [44%N; 32%N] (quoted <$> tags)) = tags.
Proof.
  intros Hplain. rewrite collect_tags_omap. destruct tags as [|t tags]; [done|].
  apply Forall_cons in Hplain as [Ht Hplain]. rewrite fmap_cons.
  rewrite split_on_join_comma.
  - change (omap keep_tag (quoted t :: ((λ s, 32%N :: s) <$> (quoted <$> tags))))
      with (match keep_tag (quoted t) with
            | Some y => y :: omap keep_tag ((λ s, 32%N :: s) <$> (quoted <$> tags))
            | None => omap keep_tag ((λ s, 32%N :: s) <$> (quoted <$> tags))
            end).
    rewrite (proj1 (keep_tag_quoted t Ht)). f_equal.
    induction Hplain as [|t2 tags Ht2 _ IH]; [done|]. rewrite !fmap_cons.
    change (omap keep_tag ((32%N :: quoted t2)
                             :: ((λ s, 32%N :: s) <$> (quoted <$> tags))))
      with (match keep_tag (32%N :: quoted t2) with
            | Some y => y :: omap keep_tag ((λ s, 32%N :: s) <$> (quoted <$> tags))
            | None => omap keep_tag ((λ s, 32%N :: s) <$> (quoted <$> tags))
            end).
    by rewrite (proj2 (keep_tag_quoted t2 Ht2)), IH.
  - apply quoted_no; [done|]. by destruct Ht.
  - apply Forall_fmap, Forall_forall. intros t2 Ht2. cbn.
    apply quoted_no; [done|]. eapply Forall_forall in Hplain; [|done].
    by destruct Hplain.
Qed.

Lemma slice_from_drop {A} (l : list A) (k : nat) :
  slice_from l (Z.of_nat k) = drop k l.
Proof.
  unfold slice_from, slice, clip.
  destruct (Z.ltb_spec (Z.of_nat k) 0) as [|_]; [lia|].
  destruct (Z.ltb_spec (Z.of_nat (length l)) 0) as [|_]; [lia|].
  destruct (decide (k ≤ length l)%nat).
  - rewrite (Z.min_l (Z.of_nat k)), Z.min_id, Nat2Z.id by lia.
    apply take_ge. rewrite length_drop. lia.
  - rewrite (Z.min_r (Z.of_nat k)), Z.min_id, Nat2Z.id by lia.
    replace (Z.to_nat (Z.of_nat (length l) - Z.of_nat (length l))) with 0%nat by lia.
    rewrite take_0. symmetry. apply drop_ge. lia.
Qed.

(** X17: the parser reads back a rendered line.  For at least one tag,
    all plain, and an extension that is a word, parsing the single line
    [['t1', 't2', ...].ext] gives one document with exactly these tags,
    the identifier [t1_t2_....ext] and the line as its source. *)
Theorem rendered_line_round_trip (tags : list str) (extension : str)
    (drop_duplicates : bool) :
  tags ≠ [] → Forall plain_tag tags → word extension →
  parse_contents_lines [render_line tags extension] drop_duplicates
  = [{| identifier := join [95%N] tags ++ [46%N] ++ extension;
        tags := tags;
        source := Some (render_line tags extension) |}].
Proof.
  intros Htags Hplain [Hext Hextw].
  set (content := join [44%N; 32%N] (quoted <$> tags)).
  assert (93%N ∉ content) as Hcontent.
  { intros [Hsep|(q & (t & -> & Ht)%list_elem_of_fmap & Hq)]%join_elem_of.
    - apply list_elem_of_In in Hsep. cbn in Hsep. intuition discriminate.
    - revert Hq. apply quoted_no; [done|].
      eapply Forall_forall in Hplain; [|done]. by destruct Hplain as (_ & ? & _). }
  destruct (reverse_word extension Hext) as (y & r & Hrev).
  assert (last extension = Some y ∧ isspace y = false) as [Hlast Hy].
  { apply (f_equal reverse) in Hrev. rewrite reverse_involutive, reverse_cons in Hrev.
    rewrite Hrev, last_snoc. split; [done|].
    rewrite Hrev in Hextw. apply Forall_app in Hextw as [_ Hy].
    by apply Forall_cons in Hy as [Hy _]. }
  assert (last (render_line tags extension) = Some y) as Hlastline.
  { assert (render_line tags extension
            = (91%N :: content ++ [93%N; 46%N]) ++ extension) as ->.
    { unfold render_line. cbn [app]. by rewrite <- app_assoc. }
    destruct extension as [|e ext]; [done|]. by rewrite last_app_cons. }
  assert (strip (render_line tags extension) = render_line tags extension) as Hstrip.
  { pose proof Hlastline as Hl. unfold render_line in Hl |- *. cbn [app] in Hl |- *.
    by apply (strip_id 91 y). }
  assert (_extract_bracket_content (render_line tags extension) = Some content) as Hbc.
  { apply (_extract_bracket_content_split [] content (46%N :: extension));
      [apply not_elem_of_nil|done]. }
  assert (_build_identifier tags (render_line tags extension)
          = join [95%N] tags ++ [46%N] ++ extension) as Hid.
  { unfold _build_identifier, find. change (0 <? 0) with false. cbv iota.
    destruct (Z.ltb_spec (Z.of_nat (length (render_line tags extension))) 0) as [|_];
      [lia|].
    change (Z.to_nat 0) with 0%nat. rewrite drop_0.
    assert (index_of 93 (render_line tags extension) = Some (S (length content))) as ->.
    { apply index_of_Some. exists (91%N :: content), (46%N :: extension).
      split_and!; [done| |done].
      rewrite not_elem_of_cons. by split. }
    destruct (Z.eqb_spec (0 + Z.of_nat (S (length content))) (-1)) as [|_]; [lia|].
    replace (0 + Z.of_nat (S (length content)) + 1)
      with (Z.of_nat (S (S (length content)))) by lia.
    rewrite slice_from_drop.
    assert (drop (S (S (length content))) (render_line tags extension)
            = 46%N :: extension) as ->.
    { unfold render_line. cbn [app drop]. fold content.
      replace (S (length content)) with (length content + 1)%nat by lia.
      by rewrite <- drop_drop, drop_app_length. }
    rewrite (strip_id 46 y); [|done|done|].
    2: { destruct extension; [done|]. by rewrite last_cons_cons. }
    change (startswith (46%N :: extension) 46) with true. cbv iota.
    change 1 with (Z.of_nat 1). rewrite slice_from_drop. cbn [drop].
    destruct tags; [done|]. by destruct extension. }
  unfold parse_contents_lines. cbn [foldl]. rewrite parse_line_document.
  assert (line_document (render_line tags extension)
          = Some {| identifier := join [95%N] tags ++ [46%N] ++ extension;
                    tags := tags;
                    source := Some (render_line tags extension) |}) as ->.
  { unfold line_document. rewrite Hstrip, Hbc.
    change (truthy (render_line tags extension)) with true. cbn [negb].
    unfold content. rewrite collect_tags_rendered by done. rewrite Hid.
    by destruct tags. }
  cbn [identifier]. rewrite bool_decide_eq_false_2 by set_solver.
  by rewrite andb_false_r.
Qed.

(** X17 at two tags, one of two words, and the extension txt. *)
Lemma rendered_line_round_trip_witness :
  parse_contents_lines [lit "['city', 'old town'].txt"] true
  = [{| identifier := lit "city_old town.txt";
        tags := [lit "city"; lit "old town"];
        source := Some (lit "['city', 'old town'].txt") |}].
Proof.
  assert (∀ t, t = lit "city" ∨ t = lit "old town" → plain_tag t) as Hplain.
  { intros t Ht. unfold plain_tag. split_and!.
    - intros Hin%list_elem_of_In. destruct Ht as [-> | ->]; cbn in Hin; intuition discriminate.
    - intros Hin%list_elem_of_In. destruct Ht as [-> | ->]; cbn in Hin; intuition discriminate.
    - by destruct Ht as [-> | ->].
    - destruct Ht as [-> | ->]; eexists; (split; [reflexivity|]);
        intros Hin%list_elem_of_In; cbn in Hin; intuition discriminate.
    - destruct Ht as [-> | ->]; eexists; (split; [reflexivity|]);
        intros Hin%list_elem_of_In; cbn in Hin; intuition discriminate. }
  apply (rendered_line_round_trip [lit "city"; lit "old town"] (lit "txt") true).
  - discriminate.
  - repeat constructor; apply Hplain; auto.
  - split; [discriminate|]. repeat constructor.
Defined.

(** X18: [as_text] joins the tags with spaces; when every tag is a single
    word, splitting the text at white space gives the tags back. *)
Theorem as_text_round_trip (d : TaggedDocument) :
  Forall word (tags d) → split_ws (as_text d) = tags d.
Proof. intros Hwords. unfold as_text. by apply split_ws_join. Qed.

(** X18 at the first document of the sample corpus. *)
Lemma as_text_round_trip_witness :
  split_ws (as_text (doc "doc1.txt" [lit "crowd"; lit "city"])) = [lit "crowd"; lit "city"].
Proof.
  apply (as_text_round_trip (doc "doc1.txt" [lit "crowd"; lit "city"])).
  repeat constructor; discriminate.
Defined.

(** Two lines with different tags can share an identifier: with
    [drop_duplicates] the second is then left out. *)
Example identifier_collision :
  (λ d, (identifier d, tags d))
    <$> parse_contents_lines [lit "['a_b'].txt"; lit "['a', 'b'].txt"] true
  = [(lit "a_b.txt", [lit "a_b"])]
  ∧ (λ d, (identifier d, tags d))
      <$> parse_contents_lines [lit "['a_b'].txt"; lit "['a', 'b'].txt"] false
    = [(lit "a_b.txt", [lit "a_b"]); (lit "a_b.txt", [lit "a"; lit "b"])].
Proof. split; vm_compute; reflexivity. Qed.

End RoundTripFacts.
